(** * CacheFS: the cache engine, embedded and verified

  A shallow embedding of the three cache components of CacheFS

    - [cache_block.c]      the block store (one file per block, LRU eviction),
    - [cache_meta.c]       the metadata store (SQLite; and the LMDB variant),
    - [cache_coherency.c]  the open-time coherence check,

  followed by the properties of the specification that concern them, and
  by further properties of the code.

  Conventions.
    - [size_t] and [unsigned long] are 64-bit: arithmetic on them is
      written with [wrap64]; [int] is 32-bit ([to_int32]), [sqlite3_int64]
      is [to_int64].
    - [time_t] is a signed 64-bit count of seconds; sums of the form
      [now + ttl] are taken in [Z] (signed overflow is undefined in C and
      does not occur for wall-clock values).
    - what the file system does when a block file is written ([open]
      fails, [write] fails or is short) and what it does to [st_atime] when
      one is read are explicit arguments, as is the outcome of the statements
      of SQLite whose result the code inspects; [stat], [unlink], [opendir]
      and [malloc] on the local cache directory succeed, and [open] for
      reading fails only when the file does not exist.
    - pointer arguments are non-null, except where an argument is an
      [option] ([None] is the null pointer); the wall clock [time(NULL)] is
      the argument [now]. *)

From Stdlib Require Import ZArith String Ascii List Lia Bool Sorted Permutation.
From stdpp Require Import base gmap strings list fin_maps pretty.

Local Open Scope Z_scope.

(** ** Machine integers *)

Module Word.

Definition wrap64 (z : Z) : Z := z mod 2 ^ 64.
Definition wrap32 (z : Z) : Z := z mod 2 ^ 32.
Definition wrap8 (z : Z) : Z := z mod 2 ^ 8.

(** Conversion to a signed type of the same width (two's complement). *)
Definition to_int64 (z : Z) : Z :=
  let u := wrap64 z in if u <? 2 ^ 63 then u else u - 2 ^ 64.
Definition to_int32 (z : Z) : Z :=
  let u := wrap32 z in if u <? 2 ^ 31 then u else u - 2 ^ 32.

Definition SIZE_MAX : Z := 2 ^ 64 - 1.

End Word.

(** ** The block store ([cache_block.c]) *)

Module BlockStore.
Import Word.

(** [struct cache_block_ctx] *)
Record cache_block_ctx := mk_block_ctx {
  blocks_dir : string;
  block_size : Z;
  max_cache_size : Z;
  current_cache_size : Z;   (* Current total cache size *)
  debug : bool
}.

Definition set_current_cache_size (ctx : cache_block_ctx) (n : Z) : cache_block_ctx :=
  {| blocks_dir := blocks_dir ctx;
     block_size := block_size ctx;
     max_cache_size := max_cache_size ctx;
     current_cache_size := n;
     debug := debug ctx |}.

(** A regular file of the blocks tree: its bytes and its [st_atime]. *)
Record block_file := mk_block_file {
  f_data : list Byte.byte;
  f_atime : Z
}.

(** [st.st_size] of a block file. *)
Definition f_size (f : block_file) : Z := Z.of_nat (length (f_data f)).

(** The tree under [blocks_dir] holds regular files at depth three only
    ([blocks/XX/YY/name]); it is the finite map from the path of each such
    file to the file. *)
Abbreviation blocks_tree := (gmap string block_file).

(** The value of a [char] widened to [int]; plain [char] is signed on the
    targets of the project (x86-64 and arm64 macOS, x86-64 Linux). *)
Definition char_val (c : ascii) : Z :=
  let n := Z.of_N (N_of_ascii c) in
  if n <? 128 then n else n - 256.

(** [hash_path]: DJB2 over the bytes of [path] up to its NUL terminator,
    in [unsigned long]. *)
Fixpoint hash_loop (path : string) (hash : Z) : Z :=
  match path with
  | EmptyString => hash
  | String c rest =>
      if Ascii.eqb c Ascii.zero then hash
      else hash_loop rest
             (wrap64 (wrap64 (wrap64 (Z.shiftl hash 5) + hash) + char_val c))
  end.

Definition hash_path (path : string) : Z := hash_loop path 5381.

(** [printf] conversions used for block names. *)
Definition hex_digit (d : Z) : ascii :=
  nth (Z.to_nat d) (list_ascii_of_string "0123456789abcdef") "0"%char.

(** [%0<width>x] of a value below [16 ^ width]. *)
Fixpoint hex_fixed (width : nat) (z : Z) : string :=
  match width with
  | O => ""
  | S w => hex_fixed w (z / 16) +:+ String (hex_digit (z mod 16)) ""
  end.

(** The two fan-out bytes of a hash. *)
Definition fanout1 (hash : Z) : Z := Z.land (Z.shiftr hash 8) 255.
Definition fanout2 (hash : Z) : Z := Z.land hash 255.

(** [get_block_path]: blocks/XX/YY/hash-blockidx.  The path is shorter than
    [PATH_MAX] for every cache root in use, [snprintf] does not truncate. *)
Definition get_block_path (ctx : cache_block_ctx) (path : string) (block_idx : Z)
  : string :=
  let hash := hash_path path in
  let h1 := fanout1 hash in
  let h2 := fanout2 hash in
  blocks_dir ctx +:+ "/" +:+ hex_fixed 2 h1 +:+ "/" +:+ hex_fixed 2 h2 +:+ "/"
    +:+ hex_fixed 16 hash +:+ "-" +:+ pretty block_idx.

(** The directories of a block file.  [create_block_dir] is modelled by the
    [mkdir] calls it makes, in order (the code ignores the result of each
    call); [block_path] is a C string, it holds no NUL. *)

(** [strrchr (dir_path, '/')] followed by the cut at [last_slash]: the part
    of the path before its last slash; [None] when it has no slash. *)
Fixpoint before_last_slash (s : string) : option string :=
  match s with
  | EmptyString => None
  | String c rest =>
      match before_last_slash rest with
      | Some d => Some (String c d)
      | None => if Ascii.eqb c "/" then Some EmptyString else None
      end
  end.

(** The loop that skips the leading slashes: [done] is the part of
    [dir_path] before [p], [rest] the part from [p] on. *)
Fixpoint skip_slashes (done rest : string) : string * string :=
  match rest with
  | EmptyString => (done, rest)
  | String c rest' =>
      if Ascii.eqb c "/" then skip_slashes (done +:+ "/") rest'
      else (done, rest)
  end.

(** [while ((p = strchr (p, '/')) != NULL)]: at each slash from [p] on,
    [mkdir] of the path cut at that slash. *)
Fixpoint mkdir_loop (done rest : string) : list string :=
  match rest with
  | EmptyString => []
  | String c rest' =>
      if Ascii.eqb c "/" then done :: mkdir_loop (done +:+ "/") rest'
      else mkdir_loop (done +:+ String c "") rest'
  end.

(** [create_block_dir]: [None] is the return value -1, when [block_path]
    has no slash; the last call is for the whole of [dir_path]. *)
Definition create_block_dir (block_path : string) : option (list string) :=
  match before_last_slash block_path with
  | None => None
  | Some dir_path =>
      (* Create parent directories *)
      let '(done, rest) := skip_slashes "" dir_path in
      Some (mkdir_loop done rest ++ [dir_path])
  end.

(** [struct block_info] *)
Record block_info := mk_block_info {
  bi_path : string;
  bi_atime : Z;
  bi_size : Z
}.

(** [compare_block_atime] *)
Definition compare_block_atime (a b : block_info) : Z :=
  if bi_atime a <? bi_atime b then -1
  else if bi_atime a >? bi_atime b then 1
  else 0.

(** [qsort] with [compare_block_atime]: oldest first.  The order of blocks
    of equal atime is not fixed by [qsort]; here they keep the order of the
    scan. *)
Fixpoint insert_block (b : block_info) (l : list block_info) : list block_info :=
  match l with
  | [] => [b]
  | x :: rest =>
      if compare_block_atime x b >? 0 then b :: x :: rest
      else x :: insert_block b rest
  end.

Definition qsort_blocks (l : list block_info) : list block_info :=
  foldr insert_block [] l.

(** The three nested [readdir] loops: every file of the tree with its
    [stat] result (the loops skip the entries whose name starts with a dot;
    the fan-out directories and the block files are named in hexadecimal).
    [opendir] and [stat] succeed on what is in the tree, and so do [malloc]
    and [realloc] of the array. *)
Definition scan_blocks (tree : blocks_tree) : list block_info :=
  map (fun e => {| bi_path := fst e;
                   bi_atime := f_atime (snd e);
                   bi_size := f_size (snd e) |})
      (map_to_list tree).

(** [calculate_cache_size] *)
Definition calculate_cache_size (tree : blocks_tree) : Z :=
  fold_left (fun total b => wrap64 (total + bi_size b)) (scan_blocks tree) 0.

(** The eviction loop of [evict_lru_blocks]: unlink in order while
    [current_cache_size - evicted_size > target_size].  [unlink] of a file
    that the scan found succeeds. *)
Fixpoint evict_loop (blocks : list block_info) (cur target evicted : Z)
    (tree : blocks_tree) : Z * blocks_tree :=
  match blocks with
  | [] => (evicted, tree)
  | b :: rest =>
      if wrap64 (cur - evicted) >? target
      then evict_loop rest cur target (wrap64 (evicted + bi_size b))
             (delete (bi_path b) tree)
      else (evicted, tree)
  end.

(** [evict_lru_blocks] *)
Definition evict_lru_blocks (ctx : cache_block_ctx) (tree : blocks_tree)
    (target_size : Z) : Z * cache_block_ctx * blocks_tree :=
  if current_cache_size ctx <=? target_size then (0, ctx, tree)
  else
    let blocks := scan_blocks tree in
    match blocks with
    | [] => (0, ctx, tree)
    | _ =>
        let sorted := qsort_blocks blocks in
        let '(evicted_size, tree') :=
          evict_loop sorted (current_cache_size ctx) target_size 0 tree in
        (0,
         set_current_cache_size ctx (wrap64 (current_cache_size ctx - evicted_size)),
         tree')
    end.

(** [cache_block_init], given the tree found under the cache root. *)
Definition DEFAULT_BLOCK_SIZE : Z := 256 * 1024.

Definition cache_block_init (cache_root : string) (block_size max_cache_size : Z)
    (debug : bool) (tree : blocks_tree) : cache_block_ctx :=
  {| blocks_dir := cache_root +:+ "/blocks";
     block_size := if block_size >? 0 then block_size else DEFAULT_BLOCK_SIZE;
     max_cache_size := max_cache_size;
     current_cache_size := calculate_cache_size tree;
     debug := debug |}.

(** [cache_block_exists] *)
Definition cache_block_exists (ctx : cache_block_ctx) (tree : blocks_tree)
    (path : string) (block_idx : Z) : bool :=
  bool_decide (is_Some (tree !! get_block_path ctx path block_idx)).

(** [pread (fd, buf, size, offset)] on a regular file that holds [data].
    [size] and [offset] are [size_t]; [pread] takes the offset as an [off_t],
    which is signed, and fails with [EINVAL] ([None]) when that offset is
    negative or when offset plus size exceeds the largest [off_t].
    Otherwise it transfers the bytes of the file from the offset on, at
    most [size] of them; a block file is shorter than the most that one
    call transfers. *)
Definition pread (data : list Byte.byte) (size offset : Z)
  : option (list Byte.byte) :=
  let count := wrap64 size in
  let pos := to_int64 offset in
  if (pos <? 0) || (2 ^ 63 - 1 <? pos + count) then None
  else Some (take (Z.to_nat count) (drop (Z.to_nat pos) data)).

(** [cache_block_read]; [None] is the return value -1, of [open] when the
    block file does not exist and of [pread].  [touch] is what the file
    system does to the [st_atime] of the file on the read: [Some t] sets it
    to [t], [None] leaves it as it is (a [noatime] or [relatime] mount). *)
Definition cache_block_read (ctx : cache_block_ctx) (tree : blocks_tree)
    (path : string) (block_idx : Z) (size offset : Z) (touch : option Z)
  : option (list Byte.byte) * blocks_tree :=
  let block_path := get_block_path ctx path block_idx in
  match tree !! block_path with
  | None => (None, tree)
  | Some f =>
      match pread (f_data f) size offset with
      | None => (None, tree)
      | Some bytes =>
          (Some bytes,
           match touch with
           | Some t => <[block_path := {| f_data := f_data f; f_atime := t |}]> tree
           | None => tree
           end)
      end
  end.

(** What the file system does on the [open] and the [write] of
    [cache_block_write]: [open] fails; or [open] succeeds (the file is
    created empty, or truncated) and [write] fails, or transfers the first
    [n] bytes of the buffer, all of them when [n] is its length or more. *)
Inductive write_io :=
| OpenFails
| WriteFails
| Transfers (n : nat).

(** The return value of [write], and the bytes it leaves in the file. *)
Definition write_result (io : write_io) (buf : list Byte.byte) : Z :=
  match io with
  | Transfers n => Z.of_nat (Nat.min n (length buf))
  | _ => -1
  end.

Definition write_stores (io : write_io) (buf : list Byte.byte)
  : list Byte.byte :=
  match io with
  | Transfers n => take n buf
  | _ => []
  end.

(** [cache_block_write] of the [size = length buf] bytes of [buf]; a
    buffer is shorter than 2^63 bytes, [(ssize_t)size] is [size].
    [O_CREAT | O_TRUNC]: a new file gets atime [now], an existing one is
    emptied and keeps its atime.  [create_block_dir] returns 0 on every
    block path and the results of its [mkdir] calls are ignored; a missing
    directory shows as a failing [open]. *)
Definition cache_block_write (ctx : cache_block_ctx) (tree : blocks_tree)
    (path : string) (block_idx : Z) (buf : list Byte.byte) (now : Z)
    (io : write_io) : Z * cache_block_ctx * blocks_tree :=
  let block_path := get_block_path ctx path block_idx in
  match io with
  | OpenFails => (-1, ctx, tree)
  | _ =>
      let atime :=
        match tree !! block_path with
        | Some old => f_atime old
        | None => now
        end in
      let tree1 :=
        <[block_path := {| f_data := write_stores io buf; f_atime := atime |}]>
          tree in
      let written := write_result io buf in
      if negb (written =? Z.of_nat (length buf)) then (-1, ctx, tree1)
      else
        (* Update cache size and trigger eviction if needed *)
        let ctx1 := set_current_cache_size ctx
                      (wrap64 (current_cache_size ctx + written)) in
        if (max_cache_size ctx1 >? 0)
           && (current_cache_size ctx1 >? max_cache_size ctx1)
        then
          (* Evict until we're at 90% of max *)
          let target := wrap64 (max_cache_size ctx1 * 9) / 10 in
          let '(_, ctx2, tree2) := evict_lru_blocks ctx1 tree1 target in
          (0, ctx2, tree2)
        else (0, ctx1, tree1)
  end.

(** One iteration of the loop of [cache_block_invalidate_range]: [stat]
    succeeds exactly when the block file exists, and [unlink] of that file
    succeeds. *)
Definition invalidate_block (path : string) (st : cache_block_ctx * blocks_tree)
    (i : Z) : cache_block_ctx * blocks_tree :=
  let '(ctx, tree) := st in
  let block_path := get_block_path ctx path i in
  match tree !! block_path with
  | Some f =>
      (set_current_cache_size ctx (wrap64 (current_cache_size ctx - f_size f)),
       delete block_path tree)
  | None => (ctx, tree)
  end.

Fixpoint invalidate_blocks (path : string) (n : nat) (i : Z)
    (st : cache_block_ctx * blocks_tree) : cache_block_ctx * blocks_tree :=
  match n with
  | O => st
  | S n' => invalidate_blocks path n' (i + 1) (invalidate_block path st i)
  end.

(** [cache_block_invalidate_range].  [offset] is an [off_t], converted to
    [size_t] by the division; the loop [for (i = start_block;
    i <= end_block; i++)] has [end_block - start_block + 1] iterations, and
    never ends when [end_block] is [SIZE_MAX] ([None]). *)
Definition cache_block_invalidate_range (ctx : cache_block_ctx) (tree : blocks_tree)
    (path : string) (offset size : Z)
  : option (Z * cache_block_ctx * blocks_tree) :=
  let start_block := wrap64 offset / block_size ctx in
  let end_block := wrap64 (wrap64 offset + size) / block_size ctx in
  if end_block =? SIZE_MAX then None
  else
    let '(ctx', tree') :=
      invalidate_blocks path (Z.to_nat (end_block - start_block + 1))
        start_block (ctx, tree) in
    Some (0, ctx', tree').

(** [cache_block_invalidate_file]: every entry of [blocks/XX/YY] whose
    name starts with the hash prefix is unlinked ([stat] and [unlink]
    succeed on it; a directory [blocks/XX/YY] that does not exist holds no
    entry). *)
Definition block_prefix (path : string) : string :=
  hex_fixed 16 (hash_path path) +:+ "-".

Definition hash_dir (ctx : cache_block_ctx) (path : string) : string :=
  let hash := hash_path path in
  blocks_dir ctx +:+ "/" +:+ hex_fixed 2 (fanout1 hash) +:+ "/"
    +:+ hex_fixed 2 (fanout2 hash).

Definition matches_prefix (ctx : cache_block_ctx) (path : string) (file : string)
  : bool :=
  String.prefix (hash_dir ctx path +:+ "/" +:+ block_prefix path) file.

Definition cache_block_invalidate_file (ctx : cache_block_ctx) (tree : blocks_tree)
    (path : string) : Z * cache_block_ctx * blocks_tree :=
  let victims :=
    List.filter (fun e => matches_prefix ctx path (fst e)) (map_to_list tree) in
  let '(cur, tree') :=
    fold_left
      (fun acc e => (wrap64 (fst acc - f_size (snd e)), delete (fst e) (snd acc)))
      victims (current_cache_size ctx, tree) in
  (0, set_current_cache_size ctx cur, tree').

(** [cache_block_get_stats] *)
Definition cache_block_get_stats (ctx : cache_block_ctx) : Z * Z :=
  (current_cache_size ctx, max_cache_size ctx).

End BlockStore.

(** ** The interface of the metadata store ([cache_meta.h]) *)

Module Meta.

(** [cache_entry_type_t]; an enumeration is an [int] in memory and in the
    store. *)
Definition CACHE_ENTRY_FILE : Z := 1.
Definition CACHE_ENTRY_DIR : Z := 2.
Definition CACHE_ENTRY_NEG : Z := 3.  (* Negative entry (file not found) *)

(** The fields of [struct stat] that the cache reads. *)
Record stat := mk_stat {
  st_mode : Z;    (* mode_t, 32-bit unsigned *)
  st_ino : Z;     (* ino_t, 64-bit unsigned *)
  st_uid : Z;     (* uid_t, 32-bit unsigned *)
  st_gid : Z;     (* gid_t, 32-bit unsigned *)
  st_size : Z;    (* off_t, 64-bit signed *)
  st_mtime : Z;   (* time_t *)
  st_ctime : Z    (* time_t *)
}.

(** A stat buffer as the kernel fills it. *)
Definition stat_ok (st : stat) : Prop :=
  0 <= st_mode st < 2 ^ 32 /\ 0 <= st_ino st < 2 ^ 64 /\
  0 <= st_uid st < 2 ^ 32 /\ 0 <= st_gid st < 2 ^ 32 /\
  - 2 ^ 63 <= st_size st < 2 ^ 63 /\
  - 2 ^ 63 <= st_mtime st < 2 ^ 63 /\
  - 2 ^ 63 <= st_ctime st < 2 ^ 63.

(** [<sys/stat.h>]: the file type bits of [st_mode]. *)
Definition S_IFMT : Z := 61440.    (* 0170000 *)
Definition S_IFDIR : Z := 16384.   (* 0040000 *)
Definition S_IFREG : Z := 32768.   (* 0100000 *)
Definition S_ISDIR (m : Z) : bool := Z.land m S_IFMT =? S_IFDIR.
Definition S_ISREG (m : Z) : bool := Z.land m S_IFMT =? S_IFREG.

(** [cache_meta_entry_t] *)
Record cache_meta_entry_t := mk_meta_entry {
  type : Z;
  size : Z;
  mtime : Z;
  ctime : Z;
  mode : Z;
  uid : Z;
  gid : Z;
  ino : Z;  (* Cached inode number *)
  cached_at : Z;
  valid_until : Z
}.

(** [cache_dir_entry_t] *)
Record cache_dir_entry_t := mk_dir_entry {
  name : string;
  d_type : Z
}.

(** The configuration part of [struct cache_meta_ctx]. *)
Record cache_meta_ctx := mk_meta_ctx {
  cache_root : string;
  meta_ttl : Z;
  dir_ttl : Z;
  meta_debug : bool
}.

End Meta.

(** ** The metadata store on SQLite ([cache_meta.c]) *)

Module MetaSqlite.
Import Word Meta.

(** A row of table [metadata]; [path] is the primary key and every other
    column holds an SQLite integer (64-bit signed). *)
Record meta_row := mk_meta_row {
  c_type : Z;
  c_size : Z;
  c_mtime : Z;
  c_ctime : Z;
  c_mode : Z;
  c_uid : Z;
  c_gid : Z;
  c_ino : Z;
  c_cached_at : Z;
  c_valid_until : Z
}.

(** A row of table [dir_entries], primary key [(dir_path, entry_name)]. *)
Record dir_row := mk_dir_row {
  r_dir_path : string;
  r_entry_name : string;
  r_entry_type : Z;
  r_dir_mtime : Z;
  r_cached_at : Z;
  r_valid_until : Z
}.

(** The database behind [ctx->db]. *)
Record meta_db := mk_meta_db {
  metadata : gmap string meta_row;
  dir_entries : list dir_row
}.

Definition empty_db : meta_db := {| metadata := ∅; dir_entries := [] |}.

(** [sqlite3_bind_int] takes an [int], [sqlite3_bind_int64] a signed 64-bit
    value; [sqlite3_column_int] returns the low 32 bits of the stored
    integer as an [int].  They are written out where the C type of the
    argument or of the destination differs ([mode_t], [uid_t], [gid_t],
    [ino_t] are unsigned); [off_t], [time_t] and the enumeration pass
    unchanged. *)
Definition bind_int (v : Z) : Z := to_int32 v.
Definition bind_int64 (v : Z) : Z := to_int64 v.
Definition column_int (v : Z) : Z := to_int32 v.
Definition column_int64 (v : Z) : Z := to_int64 v.

(** [cache_meta_lookup]: [None] is the return value -1 (not found); the
    boolean is [*valid]. *)
Definition cache_meta_lookup (ctx : cache_meta_ctx) (db : meta_db)
    (path : string) (now : Z) : option (cache_meta_entry_t * bool) :=
  match metadata db !! path with
  | None => None  (* Not found *)
  | Some row =>
      let entry :=
        {| type := c_type row;
           size := c_size row;
           mtime := c_mtime row;
           ctime := c_ctime row;
           mode := wrap32 (column_int (c_mode row));
           uid := wrap32 (column_int (c_uid row));
           gid := wrap32 (column_int (c_gid row));
           ino := wrap64 (column_int64 (c_ino row));
           cached_at := c_cached_at row;
           valid_until := c_valid_until row |} in
      Some (entry, now <? valid_until entry)
  end.

(** [cache_meta_store]; [step_done] tells whether [sqlite3_step] of the
    insert statement returned [SQLITE_DONE]. *)
Definition cache_meta_store (ctx : cache_meta_ctx) (db : meta_db)
    (path : string) (stbuf : stat) (now : Z) (step_done : bool) : Z * meta_db :=
  let row :=
    {| c_type := CACHE_ENTRY_FILE;
       c_size := st_size stbuf;
       c_mtime := st_mtime stbuf;
       c_ctime := st_ctime stbuf;
       c_mode := bind_int (st_mode stbuf);
       c_uid := bind_int (st_uid stbuf);
       c_gid := bind_int (st_gid stbuf);
       c_ino := bind_int64 (st_ino stbuf);
       c_cached_at := now;
       c_valid_until := now + meta_ttl ctx |} in
  if step_done
  then (0, {| metadata := <[path := row]> (metadata db);
              dir_entries := dir_entries db |})
  else (-1, db).

(** [cache_meta_store_negative] *)
Definition cache_meta_store_negative (ctx : cache_meta_ctx) (db : meta_db)
    (path : string) (now : Z) (step_done : bool) : Z * meta_db :=
  let row :=
    {| c_type := CACHE_ENTRY_NEG;
       c_size := 0;
       c_mtime := 0;
       c_ctime := 0;
       c_mode := 0;
       c_uid := 0;
       c_gid := 0;
       c_ino := 0;
       c_cached_at := now;
       c_valid_until := now + meta_ttl ctx |} in
  if step_done
  then (0, {| metadata := <[path := row]> (metadata db);
              dir_entries := dir_entries db |})
  else (-1, db).

(** [cache_meta_invalidate] *)
Definition cache_meta_invalidate (ctx : cache_meta_ctx) (db : meta_db)
    (path : string) : Z * meta_db :=
  (0, {| metadata := delete path (metadata db);
         dir_entries := dir_entries db |}).

(** The three statements on [dir_entries]. *)
Definition in_dir (path : string) (r : dir_row) : bool :=
  String.eqb (r_dir_path r) path.

Definition same_key (a b : dir_row) : bool :=
  String.eqb (r_dir_path a) (r_dir_path b)
  && String.eqb (r_entry_name a) (r_entry_name b).

(** [INSERT OR REPLACE INTO dir_entries VALUES (...)] *)
Definition insert_dir_row (row : dir_row) (t : list dir_row) : list dir_row :=
  List.filter (fun r => negb (same_key r row)) t ++ [row].

(** [DELETE FROM dir_entries WHERE dir_path = ?] *)
Definition delete_dir_rows (path : string) (t : list dir_row) : list dir_row :=
  List.filter (fun r => negb (in_dir path r)) t.

(** [ORDER BY entry_name], in the BINARY collation: bytes compared as
    unsigned values, a proper prefix first. *)
Fixpoint insert_by_name (r : dir_row) (l : list dir_row) : list dir_row :=
  match l with
  | [] => [r]
  | x :: rest =>
      if String.leb (r_entry_name r) (r_entry_name x) then r :: x :: rest
      else x :: insert_by_name r rest
  end.

Definition order_by_name (l : list dir_row) : list dir_row :=
  foldr insert_by_name [] l.

(** [SELECT ... FROM dir_entries WHERE dir_path = ? ORDER BY entry_name] *)
Definition select_dir_rows (path : string) (t : list dir_row) : list dir_row :=
  order_by_name (List.filter (in_dir path) t).

(** [cache_dir_lookup]: [None] is the return value -1; on success the
    entries, [*count], [*dir_mtime] and [*valid]. *)
Definition cache_dir_lookup (ctx : cache_meta_ctx) (db : meta_db)
    (path : string) (now : Z)
  : option (list cache_dir_entry_t * Z * Z * bool) :=
  let rows := select_dir_rows path (dir_entries db) in
  (* Count entries first *)
  let entry_count := Z.of_nat (length rows) in
  match rows with
  | [] => None  (* No cached entries *)
  | first :: _ =>
      let entries :=
        map (fun r => {| name := r_entry_name r;
                         d_type := r_entry_type r |}) rows in
      let first_mtime := r_dir_mtime first in
      let first_valid_until := r_valid_until first in
      Some (entries, entry_count, first_mtime, now <? first_valid_until)
  end.

(** The insert loop of [cache_dir_store]; [insert_done i] tells whether
    [sqlite3_step] returned [SQLITE_DONE] for [entries[i]].  [None]: a step
    failed and the transaction is rolled back. *)
Fixpoint dir_insert_loop (path : string) (entries : list cache_dir_entry_t)
    (i : nat) (dir_mtime now valid_until : Z) (insert_done : nat -> bool)
    (t : list dir_row) : option (list dir_row) :=
  match entries with
  | [] => Some t
  | e :: rest =>
      let row :=
        {| r_dir_path := path;
           r_entry_name := name e;
           r_entry_type := d_type e;
           r_dir_mtime := dir_mtime;
           r_cached_at := now;
           r_valid_until := valid_until |} in
      if insert_done i
      then dir_insert_loop path rest (S i) dir_mtime now valid_until insert_done
             (insert_dir_row row t)
      else None
  end.

(** [cache_dir_store]; [entries = None] is the null array, [count] is the
    length of the list.  [BEGIN TRANSACTION] ... [COMMIT] makes the rows of
    the transaction visible together, [ROLLBACK] restores the tables. *)
Definition cache_dir_store (ctx : cache_meta_ctx) (db : meta_db)
    (path : string) (entries : option (list cache_dir_entry_t))
    (dir_mtime now : Z) (insert_done : nat -> bool) : Z * meta_db :=
  match entries with
  | None => (-1, db)
  | Some es =>
      (* Delete old entries for this directory *)
      let t := delete_dir_rows path (dir_entries db) in
      (* Insert new entries *)
      let valid_until := now + dir_ttl ctx in
      match dir_insert_loop path es 0 dir_mtime now valid_until insert_done t with
      | None => (-1, db)
      | Some t' => (0, {| metadata := metadata db; dir_entries := t' |})
      end
  end.

(** [cache_dir_invalidate] *)
Definition cache_dir_invalidate (ctx : cache_meta_ctx) (db : meta_db)
    (path : string) : Z * meta_db :=
  (0, {| metadata := metadata db;
         dir_entries := delete_dir_rows path (dir_entries db) |}).

End MetaSqlite.

(** ** The metadata store on LMDB (second implementation of [cache_meta.h]) *)

Module MetaLmdb.
Import Word Meta.

(** [meta_entry_serialized_t]: the stored record has no inode field. *)
Record meta_entry_serialized_t := mk_serialized {
  s_type : Z;         (* uint8_t *)
  s_size : Z;         (* int64_t *)
  s_mtime : Z;
  s_ctime : Z;
  s_mode : Z;         (* uint32_t *)
  s_uid : Z;
  s_gid : Z;
  s_cached_at : Z;
  s_valid_until : Z
}.

(** The database [meta_dbi]: keys are the bytes of the path. *)
Abbreviation meta_dbi := (gmap string meta_entry_serialized_t).

(** [cache_meta_lookup]: fills the caller's [*entry], whose [ino] field is
    not written. *)
Definition cache_meta_lookup (ctx : cache_meta_ctx) (db : meta_dbi)
    (path : string) (entry : cache_meta_entry_t) (now : Z)
  : option (cache_meta_entry_t * bool) :=
  match db !! path with
  | None => None
  | Some stored =>
      let entry' :=
        {| type := s_type stored;
           size := s_size stored;
           mtime := s_mtime stored;
           ctime := s_ctime stored;
           mode := s_mode stored;
           uid := s_uid stored;
           gid := s_gid stored;
           ino := ino entry;
           cached_at := s_cached_at stored;
           valid_until := s_valid_until stored |} in
      Some (entry', now <? valid_until entry')
  end.

(** [cache_meta_store]; [txn_ok] tells whether [mdb_txn_begin], [mdb_put]
    and [mdb_txn_commit] all returned 0. *)
Definition cache_meta_store (ctx : cache_meta_ctx) (db : meta_dbi)
    (path : string) (stbuf : stat) (now : Z) (txn_ok : bool) : Z * meta_dbi :=
  let entry :=
    {| s_type := wrap8 (if S_ISDIR (st_mode stbuf)
                        then CACHE_ENTRY_DIR else CACHE_ENTRY_FILE);
       s_size := st_size stbuf;
       s_mtime := st_mtime stbuf;
       s_ctime := st_ctime stbuf;
       s_mode := wrap32 (st_mode stbuf);
       s_uid := wrap32 (st_uid stbuf);
       s_gid := wrap32 (st_gid stbuf);
       s_cached_at := now;
       s_valid_until := now + meta_ttl ctx |} in
  if txn_ok then (0, <[path := entry]> db) else (-1, db).

(** [cache_meta_store_negative] *)
Definition cache_meta_store_negative (ctx : cache_meta_ctx) (db : meta_dbi)
    (path : string) (now : Z) (txn_ok : bool) : Z * meta_dbi :=
  let entry :=
    {| s_type := wrap8 CACHE_ENTRY_NEG;
       s_size := 0;
       s_mtime := 0;
       s_ctime := 0;
       s_mode := 0;
       s_uid := 0;
       s_gid := 0;
       s_cached_at := now;
       s_valid_until := now + 2  (* Short TTL for negative entries *) |} in
  if txn_ok then (0, <[path := entry]> db) else (-1, db).

(** [cache_meta_invalidate] *)
Definition cache_meta_invalidate (ctx : cache_meta_ctx) (db : meta_dbi)
    (path : string) (txn_ok : bool) : Z * meta_dbi :=
  if txn_ok then (0, delete path db) else (-1, db).

(** [cache_dir_lookup], [cache_dir_store]: not implemented, always -1. *)
Definition cache_dir_lookup (ctx : cache_meta_ctx) (db : meta_dbi)
    (path : string) : option (list cache_dir_entry_t * Z * Z * bool) := None.

Definition cache_dir_store (ctx : cache_meta_ctx) (db : meta_dbi)
    (path : string) (entries : option (list cache_dir_entry_t))
    (dir_mtime : Z) : Z * meta_dbi := (-1, db).

End MetaLmdb.

(** ** The coherence check ([cache_coherency.c]) *)

Module Coherency.
Import Word Meta BlockStore.

(** [cache_coherency_validate_meta]: Compare mtime and size. *)
Definition cache_coherency_validate_meta (path : string)
    (cached_entry : cache_meta_entry_t) (backend_stat : stat) : bool :=
  (mtime cached_entry =? st_mtime backend_stat)
  && (size cached_entry =? Meta.st_size backend_stat).

(** [cache_coherency_validate_dir] *)
Definition cache_coherency_validate_dir (path : string) (cached_mtime : Z)
    (backend_stat : stat) : bool :=
  cached_mtime =? st_mtime backend_stat.

(** [cache_coherency_check_and_invalidate]; the block cache is optional
    ([block_ctx] may be null). *)
Definition cache_coherency_check_and_invalidate
    (meta_ctx : cache_meta_ctx) (db : MetaSqlite.meta_db)
    (block : option (cache_block_ctx * blocks_tree))
    (path : string) (backend_stat : stat) (now : Z)
  : Z * MetaSqlite.meta_db * option (cache_block_ctx * blocks_tree) :=
  match MetaSqlite.cache_meta_lookup meta_ctx db path now with
  | Some (cached, valid) =>
      (* Cache entry exists, check if it's stale *)
      if negb (cache_coherency_validate_meta path cached backend_stat)
      then
        (* Invalidate metadata *)
        let '(_, db') := MetaSqlite.cache_meta_invalidate meta_ctx db path in
        (* Invalidate blocks if block cache available *)
        let block' :=
          match block with
          | Some (bctx, tree) =>
              let '(_, bctx', tree') := cache_block_invalidate_file bctx tree path in
              Some (bctx', tree')
          | None => None
          end in
        (0, db', block')
      else (0, db, block)
  | None => (0, db, block)
  end.

End Coherency.

(** * Vocabulary of the statements *)

Import Word Meta BlockStore.

(** The bytes actually present under [blocks_dir]: the sizes of all block
    files. *)
Definition bytes_present (tree : blocks_tree) : Z :=
  map_fold (fun _ f acc => acc + f_size f) 0 tree.

(** The configuration that the mount options give by default:
    [--cache-meta-ttl] 5 and [--cache-dir-ttl] 10. *)
Definition default_meta_ctx : cache_meta_ctx :=
  {| cache_root := "/home/u/.cache/cachefs/0";
     meta_ttl := 5; dir_ttl := 10; meta_debug := false |}.

(** The lifetime of a record as [cache_meta_lookup] returns it. *)
Definition entry_ttl (e : cache_meta_entry_t) : Z := valid_until e - cached_at e.

(** A record without attributes. *)
Definition no_attributes (e : cache_meta_entry_t) : Prop :=
  size e = 0 /\ mtime e = 0 /\ ctime e = 0 /\ mode e = 0 /\ uid e = 0 /\ gid e = 0.

(** A stat buffer of a regular file with inode 42. *)
Definition stat_file_42 : stat :=
  {| st_mode := S_IFREG + 420; st_ino := 42; st_uid := 501; st_gid := 20;
     st_size := 11; st_mtime := 1700000000; st_ctime := 1700000000 |}.

(** A stat buffer of a directory, mode [drwxr-xr-x]. *)
Definition stat_dir : stat :=
  {| st_mode := S_IFDIR + 493; st_ino := 7; st_uid := 501; st_gid := 20;
     st_size := 96; st_mtime := 1700000000; st_ctime := 1700000000 |}.

(** The zeroed [cache_meta_entry_t] that a caller hands to a lookup. *)
Definition caller_entry : cache_meta_entry_t :=
  {| type := 0; size := 0; mtime := 0; ctime := 0; mode := 0; uid := 0;
     gid := 0; ino := 0; cached_at := 0; valid_until := 0 |}.

Module DirFacts.
Import MetaSqlite.

(** The row that [cache_dir_store] binds for an entry, and the entry that
    [cache_dir_lookup] builds from a row. *)
Definition row_of_entry (path : string) (dir_mtime now valid_until : Z)
    (e : cache_dir_entry_t) : dir_row :=
  {| r_dir_path := path;
     r_entry_name := name e;
     r_entry_type := d_type e;
     r_dir_mtime := dir_mtime;
     r_cached_at := now;
     r_valid_until := valid_until |}.

Definition entry_of_row (r : dir_row) : cache_dir_entry_t :=
  {| name := r_entry_name r; d_type := r_entry_type r |}.

(** Ascending entry names, the order of [ORDER BY entry_name]. *)
Definition name_le (a b : cache_dir_entry_t) : Prop :=
  String.leb (name a) (name b) = true.

Definition row_le (a b : dir_row) : Prop :=
  String.leb (r_entry_name a) (r_entry_name b) = true.

End DirFacts.

(** Two small listings of a directory. *)
Definition listing_x : list cache_dir_entry_t :=
  [ {| name := "x"; d_type := CACHE_ENTRY_FILE |} ].

Definition listing_y_x : list cache_dir_entry_t :=
  [ {| name := "y"; d_type := CACHE_ENTRY_DIR |};
    {| name := "x"; d_type := CACHE_ENTRY_FILE |} ].

(** Every [sqlite3_step] of the insert statement returns [SQLITE_DONE]. *)
Definition all_done : nat -> bool := fun _ => true.

(** The write that goes well: [open] succeeds and [write] transfers the
    whole buffer. *)
Definition complete (buf : list Byte.byte) : write_io := Transfers (length buf).

(** The operations of the block store, as a caller issues them, each with
    what the file system does on it. *)
Inductive block_op :=
| OpWrite (path : string) (block_idx : Z) (buf : list Byte.byte) (now : Z)
    (io : write_io)
| OpRead (path : string) (block_idx size offset : Z) (touch : option Z)
| OpInvalidateRange (path : string) (offset size : Z)
| OpInvalidateFile (path : string).

(** The context and the tree of block files it manages. *)
Definition block_state : Type := cache_block_ctx * blocks_tree.

Definition step (st : block_state) (op : block_op) : option block_state :=
  let '(ctx, tree) := st in
  match op with
  | OpWrite p i buf now io =>
      let '(_, ctx', tree') := cache_block_write ctx tree p i buf now io in
      Some (ctx', tree')
  | OpRead p i size offset touch =>
      Some (ctx, snd (cache_block_read ctx tree p i size offset touch))
  | OpInvalidateRange p offset size =>
      match cache_block_invalidate_range ctx tree p offset size with
      | Some (_, ctx', tree') => Some (ctx', tree')
      | None => None
      end
  | OpInvalidateFile p =>
      let '(_, ctx', tree') := cache_block_invalidate_file ctx tree p in
      Some (ctx', tree')
  end.

(** A sequence of operations; [None] when one of them does not return. *)
Fixpoint run (ops : list block_op) (st : block_state) : option block_state :=
  match ops with
  | [] => Some st
  | op :: rest =>
      match step st op with
      | Some st' => run rest st'
      | None => None
      end
  end.

(** The bytes last stored per (hash of the path, block index): a write
    whose [open] fails stores nothing, every other write stores the bytes
    that [write] transferred, the whole buffer when it is complete. *)
Definition record_write (w : Z -> Z -> option (list Byte.byte)) (op : block_op)
  : Z -> Z -> option (list Byte.byte) :=
  match op with
  | OpWrite p i buf _ OpenFails => w
  | OpWrite p i buf _ io =>
      fun h j =>
        if (h =? hash_path p) && (j =? i) then Some (write_stores io buf)
        else w h j
  | _ => w
  end.

Definition last_written (ops : list block_op) : Z -> Z -> option (list Byte.byte) :=
  fold_left record_write ops (fun _ _ => None).

(** Every block file holds the bytes last written under its name. *)
Definition holds_last_written (w : Z -> Z -> option (list Byte.byte))
    (st : block_state) : Prop :=
  forall p i f,
    snd st !! get_block_path (fst st) p i = Some f ->
    w (hash_path p) i = Some (f_data f).

(** A block store without byte budget on an empty cache root, blocks of
    4 bytes. *)
Definition unbounded_ctx : cache_block_ctx := cache_block_init "/c" 4 0 false ∅.

Definition bytes_AAAA : list Byte.byte := [Byte.x41; Byte.x41; Byte.x41; Byte.x41].
Definition bytes_BB : list Byte.byte := [Byte.x42; Byte.x42].

(** Does block [b] overlap the byte range [[offset, offset + size)]? *)
Definition block_intersects (block_size b offset size : Z) : bool :=
  (b * block_size <? offset + size) && (offset <? (b + 1) * block_size).

(** Is the cached attribute record of [path], if any, out of date with
    respect to the backend's mtime and size? *)
Definition stale_record (db : MetaSqlite.meta_db) (path : string) (st : stat) : bool :=
  match MetaSqlite.metadata db !! path with
  | Some row =>
      negb ((MetaSqlite.c_mtime row =? st_mtime st)
            && (MetaSqlite.c_size row =? Meta.st_size st))
  | None => false
  end.



(** The store after blocks 0 and 1 of [/b/f] were cached. *)
Definition two_blocks_state : block_state :=
  let st1 := cache_block_write unbounded_ctx ∅ "/b/f" 0 bytes_AAAA 1700000001
               (complete bytes_AAAA) in
  let st2 := cache_block_write (snd (fst st1)) (snd st1) "/b/f" 1 bytes_AAAA
               1700000002 (complete bytes_AAAA) in
  (snd (fst st2), snd st2).

(** A cache root left by an earlier mount: one block file of 20 bytes. *)
Definition old_tree : blocks_tree :=
  {[ get_block_path unbounded_ctx "/b/f" 0 :=
       {| f_data := repeat Byte.x43 20; f_atime := 1600000000 |} ]}.

(** The block store opened on that cache root with a budget of 10 bytes. *)
Definition budget_ctx : cache_block_ctx := cache_block_init "/c" 32 10 false old_tree.

(** By how much the counter of the context exceeds the bytes present. *)
Definition overcount (ctx : cache_block_ctx) (tree : blocks_tree) : Z :=
  current_cache_size ctx - bytes_present tree.

(** The counter is a [size_t] and accounts at least for the bytes present. *)
Definition counter_covers (ctx : cache_block_ctx) (tree : blocks_tree) : Prop :=
  bytes_present tree <= current_cache_size ctx < 2 ^ 64.

(** A scan record that tells the truth about a file of the tree. *)
Definition describes (tree : blocks_tree) (b : block_info) : Prop :=
  exists f, tree !! bi_path b = Some f /\
            bi_atime b = f_atime f /\ bi_size b = f_size f.

Definition info_of (e : string * block_file) : block_info :=
  {| bi_path := fst e; bi_atime := f_atime (snd e); bi_size := f_size (snd e) |}.

Definition sum_sizes (l : list block_info) : Z :=
  fold_right (fun b s => bi_size b + s) 0 l.

Definition unlink_blocks (l : list block_info) (tree : blocks_tree) : blocks_tree :=
  fold_left (fun t b => delete (bi_path b) t) l tree.

Definition atime_le (a b : block_info) : Prop := bi_atime a <= bi_atime b.

(** A condition on every write of a history, checked in the state in which
    the write is issued. *)
Fixpoint each_write
    (P : cache_block_ctx -> blocks_tree -> string -> Z -> list Byte.byte ->
         write_io -> Prop)
    (ops : list block_op) (st : block_state) : Prop :=
  match ops with
  | [] => True
  | op :: rest =>
      match op with
      | OpWrite p i buf _ io => P (fst st) (snd st) p i buf io
      | _ => True
      end /\
      match step st op with
      | Some st' => each_write P rest st'
      | None => True
      end
  end.

(** The size of the file that a write to a block replaces. *)
Definition replaced_size (ctx : cache_block_ctx) (tree : blocks_tree)
    (p : string) (i : Z) : Z :=
  match tree !! get_block_path ctx p i with
  | Some old => f_size old
  | None => 0
  end.

(** The counter plus the bytes of the buffer is still a [size_t]. *)
Definition counter_fits (ctx : cache_block_ctx) (buf : list Byte.byte) : Prop :=
  current_cache_size ctx + Z.of_nat (length buf) < 2 ^ 64.

(** A write that leaves no byte uncounted: its [open] fails; or it is
    complete, and the counter plus its bytes is still a [size_t]; or it is
    cut short (the code then returns before it counts) and leaves no more
    bytes in the file than the file it replaces held. *)
Definition write_fits (ctx : cache_block_ctx) (tree : blocks_tree)
    (p : string) (i : Z) (buf : list Byte.byte) (io : write_io) : Prop :=
  match io with
  | OpenFails => True
  | _ =>
      if write_result io buf =? Z.of_nat (length buf)
      then counter_fits ctx buf
      else Z.of_nat (length (write_stores io buf)) <= replaced_size ctx tree p i
  end.

(** Such a write, to a block that is not cached. *)
Definition write_is_new (ctx : cache_block_ctx) (tree : blocks_tree)
    (p : string) (i : Z) (buf : list Byte.byte) (io : write_io) : Prop :=
  write_fits ctx tree p i buf io /\ tree !! get_block_path ctx p i = None.

(** By how much a write raises the overcount: by the bytes of the file it
    replaces (counted before, and no longer present), less the bytes that
    it leaves in the file without counting them, when it is cut short. *)
Definition write_overcounts (ctx : cache_block_ctx) (tree : blocks_tree)
    (p : string) (i : Z) (buf : list Byte.byte) (io : write_io) : Z :=
  match io with
  | OpenFails => 0
  | _ =>
      replaced_size ctx tree p i
      - (if write_result io buf =? Z.of_nat (length buf) then 0
         else Z.of_nat (length (write_stores io buf)))
  end.

(** The pieces of a complete [cache_block_write]: the file it leaves under
    the name of the block, and the tree and the context before the eviction
    test. *)
Definition written_file (tree : blocks_tree) (block_path : string)
    (buf : list Byte.byte) (now : Z) : block_file :=
  {| f_data := buf;
     f_atime := match tree !! block_path with
                | Some old => f_atime old
                | None => now
                end |}.

Definition written_tree (ctx : cache_block_ctx) (tree : blocks_tree)
    (p : string) (i : Z) (buf : list Byte.byte) (now : Z) : blocks_tree :=
  <[get_block_path ctx p i := written_file tree (get_block_path ctx p i) buf now]>
    tree.

Definition counted_ctx (ctx : cache_block_ctx) (buf : list Byte.byte)
  : cache_block_ctx :=
  set_current_cache_size ctx
    (wrap64 (current_cache_size ctx + Z.of_nat (length buf))).

Definition eviction_target (ctx : cache_block_ctx) : Z :=
  wrap64 (max_cache_size ctx * 9) / 10.

(** Scenario "eviction under budget": blocks of 4096 bytes, a budget of
    8192 bytes, and blocks 0, 1, 2 of a file cached in this order. *)
Definition s5_ctx : cache_block_ctx := cache_block_init "/c" 4096 8192 false ∅.

Definition s5_ops : list block_op :=
  [ OpWrite "/b/large" 0 (repeat Byte.x41 4096) 1700000000
      (complete (repeat Byte.x41 4096));
    OpWrite "/b/large" 1 (repeat Byte.x41 4096) 1700000001
      (complete (repeat Byte.x41 4096));
    OpWrite "/b/large" 2 (repeat Byte.x41 4096) 1700000002
      (complete (repeat Byte.x41 4096)) ].

(** Two contexts of the block store with the same configuration: they
    differ at most in the counter. *)
Definition same_configuration (a b : cache_block_ctx) : Prop :=
  blocks_dir a = blocks_dir b /\ block_size a = block_size b /\
  max_cache_size a = max_cache_size b /\ debug a = debug b.

(** A small history under a budget: blocks of 4 bytes, a budget of 8
    bytes, and blocks 0, 1, 2 of a file cached in this order; the third
    write triggers the eviction pass. *)
Definition small_ctx : cache_block_ctx := cache_block_init "/c" 4 8 false ∅.

Definition small_ops : list block_op :=
  [ OpWrite "/b/f" 0 bytes_AAAA 1700000000 (complete bytes_AAAA);
    OpWrite "/b/f" 1 bytes_AAAA 1700000001 (complete bytes_AAAA);
    OpWrite "/b/f" 2 bytes_AAAA 1700000002 (complete bytes_AAAA) ].

Definition small_final : block_state :=
  match run small_ops (small_ctx, ∅) with
  | Some st => st
  | None => (small_ctx, ∅)
  end.

(** A history in which the file system fails: block 0 of a file is
    cached, a rewrite of it is cut short after one byte, the [open] of the
    write of block 1 fails, and block 0 is read. *)
Definition faulty_ops : list block_op :=
  [ OpWrite "/b/f" 0 bytes_AAAA 1700000000 (complete bytes_AAAA);
    OpWrite "/b/f" 0 bytes_BB 1700000001 (Transfers 1);
    OpWrite "/b/f" 1 bytes_AAAA 1700000002 OpenFails;
    OpRead "/b/f" 0 4 0 None ].

Definition faulty_final : block_state :=
  match run faulty_ops (small_ctx, ∅) with
  | Some st => st
  | None => (small_ctx, ∅)
  end.

(** The entry of an array that [INSERT OR REPLACE] leaves for a name: the
    last one of that name. *)
Definition last_named (n : string) (es : list cache_dir_entry_t)
  : option cache_dir_entry_t :=
  List.find (fun e => String.eqb (name e) n) (rev es).

(** * Properties *)

(** ** Conversions between the integer types *)

Section Conversions.

Lemma wrap32_to_int32 z : wrap32 (to_int32 z) = wrap32 z.
Proof.
  unfold to_int32, wrap32.
  destruct (z mod 2 ^ 32 <? 2 ^ 31).
  - apply Z.mod_mod. lia.
  - rewrite Zminus_mod, Z.mod_same, Z.sub_0_r, !Z.mod_mod by lia. reflexivity.
Qed.

Lemma wrap64_to_int64 z : wrap64 (to_int64 z) = wrap64 z.
Proof.
  unfold to_int64, wrap64.
  destruct (z mod 2 ^ 64 <? 2 ^ 63).
  - apply Z.mod_mod. lia.
  - rewrite Zminus_mod, Z.mod_same, Z.sub_0_r, !Z.mod_mod by lia. reflexivity.
Qed.

Lemma to_int32_wrap32 z : to_int32 (wrap32 z) = to_int32 z.
Proof. unfold to_int32, wrap32. rewrite Z.mod_mod by lia. reflexivity. Qed.

Lemma to_int64_wrap64 z : to_int64 (wrap64 z) = to_int64 z.
Proof. unfold to_int64, wrap64. rewrite Z.mod_mod by lia. reflexivity. Qed.

(** An unsigned 32-bit value survives [sqlite3_bind_int] followed by
    [sqlite3_column_int]. *)
Lemma uint32_through_int z :
  0 <= z < 2 ^ 32 ->
  wrap32 (MetaSqlite.column_int (MetaSqlite.bind_int z)) = z.
Proof.
  intros Hz. unfold MetaSqlite.column_int, MetaSqlite.bind_int.
  rewrite wrap32_to_int32, wrap32_to_int32.
  unfold wrap32. apply Z.mod_small. exact Hz.
Qed.

(** An unsigned 64-bit value survives [sqlite3_bind_int64] followed by
    [sqlite3_column_int64]. *)
Lemma uint64_through_int64 z :
  0 <= z < 2 ^ 64 ->
  wrap64 (MetaSqlite.column_int64 (MetaSqlite.bind_int64 z)) = z.
Proof.
  intros Hz. unfold MetaSqlite.column_int64, MetaSqlite.bind_int64.
  rewrite wrap64_to_int64, wrap64_to_int64.
  unfold wrap64. apply Z.mod_small. exact Hz.
Qed.

End Conversions.

(** ** The attribute records of the metadata store *)

Section AttributeRecords.

Variable ctx : cache_meta_ctx.

(** What [cache_meta_lookup] yields right after a successful
    [cache_meta_store] (SQLite). *)
Lemma sqlite_lookup_store db path st now now' :
  stat_ok st ->
  MetaSqlite.cache_meta_lookup ctx
    (snd (MetaSqlite.cache_meta_store ctx db path st now true)) path now'
  = Some ({| type := CACHE_ENTRY_FILE;
             size := st_size st;
             mtime := st_mtime st;
             ctime := st_ctime st;
             mode := st_mode st;
             uid := st_uid st;
             gid := st_gid st;
             ino := st_ino st;
             cached_at := now;
             valid_until := now + meta_ttl ctx |},
          now' <? now + meta_ttl ctx).
Proof.
  intros (Hmode & Hino & Huid & Hgid & _).
  unfold MetaSqlite.cache_meta_lookup, MetaSqlite.cache_meta_store. cbn.
  rewrite lookup_insert_eq. cbn.
  rewrite !uint32_through_int, uint64_through_int64 by assumption.
  reflexivity.
Qed.

(** A failed insert leaves the database as it was. *)
Lemma sqlite_store_failed db path st now :
  MetaSqlite.cache_meta_store ctx db path st now false = (-1, db).
Proof. reflexivity. Qed.

(** What [cache_meta_lookup] yields right after a successful
    [cache_meta_store] (LMDB): the inode field is the caller's. *)
Lemma lmdb_lookup_store db path st now now' entry0 :
  stat_ok st ->
  MetaLmdb.cache_meta_lookup ctx
    (snd (MetaLmdb.cache_meta_store ctx db path st now true)) path entry0 now'
  = Some ({| type := if S_ISDIR (st_mode st)
                     then CACHE_ENTRY_DIR else CACHE_ENTRY_FILE;
             size := st_size st;
             mtime := st_mtime st;
             ctime := st_ctime st;
             mode := st_mode st;
             uid := st_uid st;
             gid := st_gid st;
             ino := ino entry0;
             cached_at := now;
             valid_until := now + meta_ttl ctx |},
          now' <? now + meta_ttl ctx).
Proof.
  intros (Hmode & Hino & Huid & Hgid & _).
  unfold MetaLmdb.cache_meta_lookup, MetaLmdb.cache_meta_store. cbn.
  rewrite lookup_insert_eq. cbn.
  unfold wrap32. rewrite !Z.mod_small by assumption.
  destruct (S_ISDIR (st_mode st)); reflexivity.
Qed.

End AttributeRecords.

(** What [cache_meta_lookup] yields right after a successful
    [cache_meta_store_negative], in either store. *)
Lemma sqlite_lookup_store_negative ctx db path now now' :
  MetaSqlite.cache_meta_lookup ctx
    (snd (MetaSqlite.cache_meta_store_negative ctx db path now true)) path now'
  = Some ({| type := CACHE_ENTRY_NEG;
             size := 0; mtime := 0; ctime := 0; mode := 0; uid := 0; gid := 0;
             ino := 0;
             cached_at := now;
             valid_until := now + meta_ttl ctx |},
          now' <? now + meta_ttl ctx).
Proof.
  unfold MetaSqlite.cache_meta_lookup, MetaSqlite.cache_meta_store_negative.
  cbn. rewrite lookup_insert_eq. reflexivity.
Qed.

Lemma lmdb_lookup_store_negative ctx db path now now' entry0 :
  MetaLmdb.cache_meta_lookup ctx
    (snd (MetaLmdb.cache_meta_store_negative ctx db path now true))
    path entry0 now'
  = Some ({| type := CACHE_ENTRY_NEG;
             size := 0; mtime := 0; ctime := 0; mode := 0; uid := 0; gid := 0;
             ino := ino entry0;
             cached_at := now;
             valid_until := now + 2 |},
          now' <? now + 2).
Proof.
  unfold MetaLmdb.cache_meta_lookup, MetaLmdb.cache_meta_store_negative.
  cbn. rewrite lookup_insert_eq. reflexivity.
Qed.

(** What the two stores record for a negative entry, in general: kind
    NEGATIVE and no attributes in both; the lifetime is [meta_ttl] in the
    SQLite store and the constant 2 in the LMDB variant. *)
Lemma store_negative_record ctx path now now' :
  (forall db,
     fst (MetaSqlite.cache_meta_store_negative ctx db path now true) = 0 /\
     exists e,
       MetaSqlite.cache_meta_lookup ctx
         (snd (MetaSqlite.cache_meta_store_negative ctx db path now true))
         path now'
       = Some (e, now' <? now + meta_ttl ctx) /\
       type e = CACHE_ENTRY_NEG /\ no_attributes e /\
       cached_at e = now /\ entry_ttl e = meta_ttl ctx) /\
  (forall db entry0,
     fst (MetaLmdb.cache_meta_store_negative ctx db path now true) = 0 /\
     exists e,
       MetaLmdb.cache_meta_lookup ctx
         (snd (MetaLmdb.cache_meta_store_negative ctx db path now true))
         path entry0 now'
       = Some (e, now' <? now + 2) /\
       type e = CACHE_ENTRY_NEG /\ no_attributes e /\
       cached_at e = now /\ entry_ttl e = 2).
Proof.
  split; intros db.
  - split; [reflexivity |].
    rewrite sqlite_lookup_store_negative. eexists. split; [reflexivity |].
    unfold entry_ttl, no_attributes. cbn. repeat split; lia.
  - intros entry0. split; [reflexivity |].
    rewrite lmdb_lookup_store_negative. eexists. split; [reflexivity |].
    unfold entry_ttl, no_attributes. cbn. repeat split; lia.
Qed.

(** Claim C2, at the default configuration (attribute TTL 5): the SQLite
    [cache_meta_store_negative] returns 0 and records a negative entry
    whose lifetime is the attribute TTL, 5 seconds, and which a lookup 3
    seconds later still reports as valid; the claim, and the LMDB variant
    of the same function on the same input, give it 2 seconds. *)
Theorem sqlite_store_negative_lifetime :
  let sqlite := MetaSqlite.cache_meta_store_negative default_meta_ctx
                  MetaSqlite.empty_db "/b/new" 1700000000 true in
  let lmdb := MetaLmdb.cache_meta_store_negative default_meta_ctx ∅
                "/b/new" 1700000000 true in
  meta_ttl default_meta_ctx = 5 /\
  fst sqlite = 0 /\
  (fun r => (type (fst r), entry_ttl (fst r), snd r)) <$>
    MetaSqlite.cache_meta_lookup default_meta_ctx (snd sqlite) "/b/new" 1700000003
  = Some (CACHE_ENTRY_NEG, 5, true) /\
  fst lmdb = 0 /\
  (fun r => (type (fst r), entry_ttl (fst r), snd r)) <$>
    MetaLmdb.cache_meta_lookup default_meta_ctx (snd lmdb) "/b/new"
      caller_entry 1700000003
  = Some (CACHE_ENTRY_NEG, 2, false).
Proof. repeat split; vm_compute; reflexivity. Qed.

(** ** The inode number *)





(** ** The kind of an attribute record *)

(** Claim C9, at a directory: the SQLite [cache_meta_store] binds
    [CACHE_ENTRY_FILE] whatever the file type, so the record that
    [cache_meta_lookup] returns for a directory has kind FILE, not DIR
    (the other fields are those of the stat buffer). *)
Theorem sqlite_store_directory_kind :
  S_ISDIR (st_mode stat_dir) = true /\
  fst (MetaSqlite.cache_meta_store default_meta_ctx MetaSqlite.empty_db
         "/b/d" stat_dir 1700000001 true) = 0 /\
  (fun r => type (fst r)) <$>
    MetaSqlite.cache_meta_lookup default_meta_ctx
      (snd (MetaSqlite.cache_meta_store default_meta_ctx MetaSqlite.empty_db
              "/b/d" stat_dir 1700000001 true)) "/b/d" 1700000002
  = Some CACHE_ENTRY_FILE /\
  CACHE_ENTRY_FILE <> CACHE_ENTRY_DIR.
Proof. repeat split; vm_compute; congruence. Qed.

(** The six attributes do survive store and lookup in the SQLite store,
    and the kind is always FILE. *)
Lemma sqlite_store_lookup_attributes ctx db path st now now' :
  stat_ok st ->
  exists e v,
    MetaSqlite.cache_meta_lookup ctx
      (snd (MetaSqlite.cache_meta_store ctx db path st now true)) path now'
    = Some (e, v) /\
    size e = st_size st /\ mtime e = st_mtime st /\ ctime e = st_ctime st /\
    mode e = st_mode st /\ uid e = st_uid st /\ gid e = st_gid st /\
    type e = CACHE_ENTRY_FILE.
Proof.
  intros Hst. rewrite sqlite_lookup_store by exact Hst.
  eexists _, _. repeat split; reflexivity.
Qed.

(** The LMDB variant records the kind from the file type bits. *)
Lemma lmdb_store_lookup_attributes ctx db path st now now' entry0 :
  stat_ok st ->
  exists e v,
    MetaLmdb.cache_meta_lookup ctx
      (snd (MetaLmdb.cache_meta_store ctx db path st now true)) path entry0 now'
    = Some (e, v) /\
    size e = st_size st /\ mtime e = st_mtime st /\ ctime e = st_ctime st /\
    mode e = st_mode st /\ uid e = st_uid st /\ gid e = st_gid st /\
    (S_ISDIR (st_mode st) = true -> type e = CACHE_ENTRY_DIR) /\
    (S_ISREG (st_mode st) = true -> type e = CACHE_ENTRY_FILE).
Proof.
  intros Hst. rewrite lmdb_lookup_store by exact Hst.
  eexists _, _. split; [reflexivity |]. cbn.
  repeat split; try reflexivity.
  - intros ->. reflexivity.
  - unfold S_ISREG, S_ISDIR. intros Hreg.
    apply Z.eqb_eq in Hreg. rewrite Hreg. reflexivity.
Qed.

(** ** Directory listings *)

Section DirListings.
Import MetaSqlite DirFacts.

Variable ctx : cache_meta_ctx.

Local Arguments order_by_name : simpl never.

Lemma entry_of_row_of_entry path m n v e :
  entry_of_row (row_of_entry path m n v e) = e.
Proof. destruct e; reflexivity. Qed.

Lemma filter_all_true {A} (p : A -> bool) (l : list A) :
  (forall x, In x l -> p x = true) -> List.filter p l = l.
Proof.
  induction l as [| a l IH]; intros Hall; [reflexivity |].
  cbn. rewrite (Hall a) by (left; reflexivity).
  f_equal. apply IH. intros x Hx. apply Hall. right. exact Hx.
Qed.

Lemma filter_all_false {A} (p : A -> bool) (l : list A) :
  (forall x, In x l -> p x = false) -> List.filter p l = [].
Proof.
  induction l as [| a l IH]; intros Hall; [reflexivity |].
  cbn. rewrite (Hall a) by (left; reflexivity).
  apply IH. intros x Hx. apply Hall. right. exact Hx.
Qed.

(** After the [DELETE], no row of the directory is left. *)
Lemma select_after_delete path t :
  List.filter (in_dir path) (delete_dir_rows path t) = [].
Proof.
  apply filter_all_false. intros r Hr.
  apply filter_In in Hr. destruct Hr as [_ Hr].
  apply negb_true_iff. exact Hr.
Qed.

(** The rows of other directories are not touched by the [DELETE]. *)
Lemma select_other_after_delete path path' t :
  path' <> path ->
  List.filter (in_dir path') (delete_dir_rows path t) = List.filter (in_dir path') t.
Proof.
  intros Hne. unfold delete_dir_rows.
  induction t as [| r t IH]; [reflexivity |].
  cbn. destruct (in_dir path r) eqn:Hr; cbn.
  - destruct (in_dir path' r) eqn:Hr'; [| exact IH].
    unfold in_dir in Hr, Hr'. apply String.eqb_eq in Hr, Hr'. congruence.
  - rewrite IH. reflexivity.
Qed.

(** The loop either fails or yields the table with every row inserted. *)
Lemma dir_insert_loop_result path es i m n v insert_done t :
  dir_insert_loop path es i m n v insert_done t = None \/
  dir_insert_loop path es i m n v insert_done t
  = Some (fold_left (fun t e => insert_dir_row (row_of_entry path m n v e) t) es t).
Proof.
  revert i t. induction es as [| e es IH]; intros i t; cbn.
  - right. reflexivity.
  - destruct (insert_done i); [| left; reflexivity].
    apply IH.
Qed.

(** When every step is done the loop succeeds. *)
Lemma dir_insert_loop_done path es i m n v insert_done t :
  (forall j, insert_done j = true) ->
  dir_insert_loop path es i m n v insert_done t
  = Some (fold_left (fun t e => insert_dir_row (row_of_entry path m n v e) t) es t).
Proof.
  intros Hdone. revert i t. induction es as [| e es IH]; intros i t; cbn.
  - reflexivity.
  - rewrite Hdone. apply IH.
Qed.

(** Inserting entries with fresh, pairwise distinct names appends their
    rows to the rows of the directory. *)
Lemma select_after_inserts path m n v es t :
  NoDup (map name es) ->
  (forall r, In r t -> in_dir path r = true -> ~ In (r_entry_name r) (map name es)) ->
  List.filter (in_dir path)
    (fold_left (fun t e => insert_dir_row (row_of_entry path m n v e) t) es t)
  = List.filter (in_dir path) t ++ map (row_of_entry path m n v) es.
Proof.
  revert t. induction es as [| e es IH]; intros t Hnd Hfresh; cbn.
  - rewrite app_nil_r. reflexivity.
  - apply NoDup_cons in Hnd. destruct Hnd as [He Hnd].
    assert (Hins : insert_dir_row (row_of_entry path m n v e) t
                   = t ++ [row_of_entry path m n v e]).
    { unfold insert_dir_row. f_equal. apply filter_all_true.
      intros r Hr. apply negb_true_iff.
      destruct (same_key r (row_of_entry path m n v e)) eqn:Hk; [| reflexivity].
      exfalso. unfold same_key in Hk. apply andb_true_iff in Hk.
      destruct Hk as [Hd Hn]. cbn in Hd, Hn.
      apply String.eqb_eq in Hn.
      apply (Hfresh r Hr).
      - exact Hd.
      - left. symmetry. exact Hn. }
    rewrite Hins, IH.
    + rewrite List.filter_app. cbn. unfold in_dir at 2. cbn.
      rewrite String.eqb_refl, <- app_assoc. reflexivity.
    + exact Hnd.
    + intros r Hr Hdir Hin. apply in_app_or in Hr. destruct Hr as [Hr | Hr].
      * apply (Hfresh r Hr Hdir). right. exact Hin.
      * destruct Hr as [<- | []]. cbn in Hin.
        apply He. apply list_elem_of_In. exact Hin.
Qed.

(** [ORDER BY] permutes the rows ... *)
Lemma insert_by_name_perm r l : Permutation (insert_by_name r l) (r :: l).
Proof.
  induction l as [| x l IH]; cbn; [reflexivity |].
  destruct (String.leb (r_entry_name r) (r_entry_name x)); [reflexivity |].
  rewrite IH. apply perm_swap.
Qed.

Lemma order_by_name_perm l : Permutation (order_by_name l) l.
Proof.
  induction l as [| r l IH]; [reflexivity |].
  change (order_by_name (r :: l)) with (insert_by_name r (order_by_name l)).
  rewrite insert_by_name_perm, IH. reflexivity.
Qed.

(** ... and leaves them in ascending order of [entry_name]. *)
Lemma insert_by_name_sorted r l :
  Sorted row_le l -> Sorted row_le (insert_by_name r l).
Proof.
  induction l as [| x l IH]; intros Hs; cbn.
  - repeat constructor.
  - destruct (String.leb (r_entry_name r) (r_entry_name x)) eqn:Hle.
    + constructor; [exact Hs |]. constructor. exact Hle.
    + apply Sorted_inv in Hs. destruct Hs as [Hs Hhd].
      constructor; [apply IH; exact Hs |].
      assert (Hxr : row_le x r).
      { unfold row_le.
        destruct (String.leb_total (r_entry_name x) (r_entry_name r)) as [H | H];
          [exact H | congruence]. }
      destruct l as [| y l]; cbn.
      * constructor. exact Hxr.
      * destruct (String.leb (r_entry_name r) (r_entry_name y));
          constructor; [exact Hxr |].
        apply HdRel_inv in Hhd. exact Hhd.
Qed.

Lemma order_by_name_sorted l : Sorted row_le (order_by_name l).
Proof.
  induction l as [| r l IH]; [constructor |].
  change (order_by_name (r :: l)) with (insert_by_name r (order_by_name l)).
  apply insert_by_name_sorted. exact IH.
Qed.

(** Rows that are already in ascending order stay as they are. *)
Lemma order_by_name_ascending l : Sorted row_le l -> order_by_name l = l.
Proof.
  induction l as [| r l IH]; intros Hs; [reflexivity |].
  apply Sorted_inv in Hs. destruct Hs as [Hs Hhd].
  change (order_by_name (r :: l)) with (insert_by_name r (order_by_name l)).
  rewrite (IH Hs).
  destruct l as [| x l]; [reflexivity |].
  apply HdRel_inv in Hhd. cbn. unfold row_le in Hhd. rewrite Hhd. reflexivity.
Qed.

Lemma sorted_entries_of_rows l :
  Sorted row_le l -> Sorted name_le (map entry_of_row l).
Proof.
  induction 1 as [| r l Hs IH Hhd]; cbn; constructor; [exact IH |].
  destruct Hhd; cbn; constructor. assumption.
Qed.

(** [cache_dir_lookup] in terms of the selected rows. *)
Lemma cache_dir_lookup_rows db path now :
  cache_dir_lookup ctx db path now =
  match select_dir_rows path (dir_entries db) with
  | [] => None
  | first :: rest =>
      Some (map entry_of_row (first :: rest),
            Z.of_nat (length (first :: rest)),
            r_dir_mtime first, now <? r_valid_until first)
  end.
Proof.
  unfold cache_dir_lookup.
  destruct (select_dir_rows path (dir_entries db)); reflexivity.
Qed.

(** A failing [cache_dir_store] leaves the database as it was. *)
Lemma cache_dir_store_failure db path entries dir_mtime now insert_done :
  fst (cache_dir_store ctx db path entries dir_mtime now insert_done) <> 0 ->
  snd (cache_dir_store ctx db path entries dir_mtime now insert_done) = db.
Proof.
  unfold cache_dir_store. destruct entries as [es |]; [| reflexivity].
  destruct (dir_insert_loop _ _ _ _ _ _ _ _); cbn; [congruence | reflexivity].
Qed.

(** The listing that a lookup finds after a successful [cache_dir_store] of
    entries with pairwise distinct names. *)
Lemma cache_dir_lookup_after_store db path es dir_mtime now now' insert_done :
  es <> [] ->
  NoDup (map name es) ->
  fst (cache_dir_store ctx db path (Some es) dir_mtime now insert_done) = 0 ->
  exists l,
    cache_dir_lookup ctx
      (snd (cache_dir_store ctx db path (Some es) dir_mtime now insert_done))
      path now'
    = Some (l, Z.of_nat (length es), dir_mtime, now' <? now + dir_ttl ctx) /\
    Permutation l es /\ Sorted name_le l.
Proof.
  intros Hne Hnd Hrc. rewrite cache_dir_lookup_rows.
  unfold cache_dir_store in *.
  destruct (dir_insert_loop_result path es 0 dir_mtime now (now + dir_ttl ctx)
              insert_done (delete_dir_rows path (dir_entries db))) as [Hl | Hl];
    rewrite Hl in *; cbn in Hrc; [discriminate |]. cbn.
  unfold select_dir_rows.
  rewrite select_after_inserts, select_after_delete; cbn.
  2: exact Hnd.
  2: { intros r Hr Hdir _. apply filter_In in Hr. destruct Hr as [_ Hr].
       rewrite Hdir in Hr. discriminate. }
  set (rows := map (row_of_entry path dir_mtime now (now + dir_ttl ctx)) es).
  assert (Hperm : Permutation (order_by_name rows) rows) by apply order_by_name_perm.
  assert (Hall : forall r, In r (order_by_name rows) ->
                   r_dir_mtime r = dir_mtime /\ r_valid_until r = now + dir_ttl ctx).
  { intros r Hr. apply (Permutation_in _ Hperm) in Hr.
    apply in_map_iff in Hr. destruct Hr as (e & <- & _). split; reflexivity. }
  assert (Hlen : length (order_by_name rows) = length es).
  { rewrite (Permutation_length Hperm). unfold rows. apply length_map. }
  assert (Hents : Permutation (map entry_of_row (order_by_name rows)) es).
  { rewrite Hperm. unfold rows. rewrite map_map.
    erewrite map_ext; [rewrite map_id; reflexivity |].
    intros e. apply entry_of_row_of_entry. }
  pose proof (order_by_name_sorted rows) as Hsorted.
  destruct (order_by_name rows) as [| first rest] eqn:Hrows.
  - destruct es; [congruence | discriminate].
  - destruct (Hall first) as [-> ->]; [left; reflexivity |].
    cbn [length] in Hlen. cbn. rewrite Hlen. eexists. split; [reflexivity |].
    split; [exact Hents |].
    apply (sorted_entries_of_rows (first :: rest)). exact Hsorted.
Qed.

End DirListings.

(** A listing is looked up in ascending order of names, whatever the order
    it was stored in. *)
Example dir_lookup_orders_by_name :
  let r := MetaSqlite.cache_dir_store default_meta_ctx MetaSqlite.empty_db "/b"
             (Some listing_y_x) 1700000000 1700000001 all_done in
  fst r = 0 /\
  MetaSqlite.cache_dir_lookup default_meta_ctx (snd r) "/b" 1700000002
  = Some ([ {| name := "x"; d_type := CACHE_ENTRY_FILE |};
            {| name := "y"; d_type := CACHE_ENTRY_DIR |} ],
          2, 1700000000, true).
Proof. split; vm_compute; reflexivity. Qed.

(** Claim C7, as stated, fails: [cache_dir_store] of a listing without
    entries returns success, and the lookup that follows does not return
    the stored (empty) listing but reports a miss. *)
Lemma dir_store_empty_listing_missed :
  let db1 := snd (MetaSqlite.cache_dir_store default_meta_ctx MetaSqlite.empty_db
                    "/b" (Some listing_x) 1700000000 1700000001 all_done) in
  let r := MetaSqlite.cache_dir_store default_meta_ctx db1 "/b" (Some [])
             1700000005 1700000006 all_done in
  fst r = 0 /\
  MetaSqlite.cache_dir_lookup default_meta_ctx (snd r) "/b" 1700000007 = None.
Proof. split; vm_compute; reflexivity. Qed.

(** Claim C7 (amended): [cache_dir_store] replaces the listing of a
    directory as a whole.  If it returns success for entries with pairwise
    distinct names, a subsequent [cache_dir_lookup] reports a miss when the
    listing has no entry, and otherwise returns exactly the stored
    (entry_name, entry_kind) pairs, each once, in ascending order of
    entry_name (not in the order they were stored), with the stored
    [dir_mtime]; if it returns failure the database, hence the previously
    stored listing, is unchanged.  No lookup sees a mix of old and new
    entries. *)
Theorem cache_dir_store_atomic_replace ctx db path es dir_mtime now now' insert_done :
  NoDup (map name es) ->
  let r := MetaSqlite.cache_dir_store ctx db path (Some es) dir_mtime now
             insert_done in
  (fst r = 0 /\
   match es with
   | [] => MetaSqlite.cache_dir_lookup ctx (snd r) path now' = None
   | _ =>
       exists l,
         MetaSqlite.cache_dir_lookup ctx (snd r) path now'
         = Some (l, Z.of_nat (length es), dir_mtime, now' <? now + dir_ttl ctx) /\
         Permutation l es /\ Sorted DirFacts.name_le l
   end) \/
  (fst r = -1 /\ snd r = db).
Proof.
  intros Hnd r.
  destruct (Z.eq_dec (fst r) 0) as [Hrc | Hrc].
  - left. split; [exact Hrc |].
    destruct es as [| e es].
    + subst r. cbn. rewrite cache_dir_lookup_rows. cbn.
      unfold MetaSqlite.select_dir_rows. rewrite select_after_delete. reflexivity.
    + apply cache_dir_lookup_after_store; [discriminate | exact Hnd | exact Hrc].
  - right. split.
    + subst r. unfold MetaSqlite.cache_dir_store in *.
      destruct (MetaSqlite.dir_insert_loop _ _ _ _ _ _ _ _); cbn in *;
        [congruence | reflexivity].
    + apply cache_dir_store_failure. exact Hrc.
Qed.

(** The amended claim C7 at the listing [y, x], every insert succeeding. *)
Lemma cache_dir_store_atomic_replace_witness :
  NoDup (map name listing_y_x) /\
  exists l,
    MetaSqlite.cache_dir_lookup default_meta_ctx
      (snd (MetaSqlite.cache_dir_store default_meta_ctx MetaSqlite.empty_db "/b"
              (Some listing_y_x) 1700000000 1700000001 all_done))
      "/b" 1700000002
    = Some (l, 2, 1700000000, true) /\
    Permutation l listing_y_x /\ Sorted DirFacts.name_le l.
Proof.
  assert (Hnd : NoDup (map name listing_y_x)).
  { apply (bool_decide_eq_true_1 _). vm_compute. reflexivity. }
  split; [exact Hnd |].
  destruct (cache_dir_store_atomic_replace default_meta_ctx MetaSqlite.empty_db
              "/b" listing_y_x 1700000000 1700000001 1700000002 all_done Hnd)
    as [[_ H] | [H _]].
  - exact H.
  - vm_compute in H. discriminate H.
Defined.

(** Claim C10: an empty directory listing is never served from the cache.
    [cache_dir_lookup] reports a miss exactly when the directory has no
    cached entry row, so a hit always carries at least one entry;
    [cache_dir_store] rejects a null entry array and leaves the database as
    it was; and after storing a listing with no entries the lookup of that
    directory is a miss. *)
Theorem empty_listing_never_served ctx db path dir_mtime now now' insert_done :
  (MetaSqlite.cache_dir_lookup ctx db path now = None <->
   List.filter (MetaSqlite.in_dir path) (MetaSqlite.dir_entries db) = []) /\
  (forall l count m v,
     MetaSqlite.cache_dir_lookup ctx db path now = Some (l, count, m, v) ->
     l <> [] /\ 0 < count) /\
  MetaSqlite.cache_dir_store ctx db path None dir_mtime now insert_done = (-1, db) /\
  fst (MetaSqlite.cache_dir_store ctx db path (Some []) dir_mtime now insert_done) = 0 /\
  MetaSqlite.cache_dir_lookup ctx
    (snd (MetaSqlite.cache_dir_store ctx db path (Some []) dir_mtime now insert_done))
    path now' = None.
Proof.
  split; [| split; [| split; [reflexivity | split; [reflexivity |]]]].
  - rewrite cache_dir_lookup_rows. unfold MetaSqlite.select_dir_rows.
    pose proof (order_by_name_perm
                  (List.filter (MetaSqlite.in_dir path) (MetaSqlite.dir_entries db)))
      as Hperm.
    destruct (MetaSqlite.order_by_name _) as [| first rest] eqn:Hsel.
    + split; [intros _ | reflexivity].
      apply Permutation_nil in Hperm. exact Hperm.
    + split; [discriminate |]. intros Hnil. rewrite Hnil in Hperm.
      symmetry in Hperm. apply Permutation_nil in Hperm. discriminate Hperm.
  - intros l count m v. rewrite cache_dir_lookup_rows.
    destruct (MetaSqlite.select_dir_rows _ _) as [| first rest]; [discriminate |].
    intros [= <- <- _ _]. split; [discriminate |]. cbn [length]. lia.
  - cbn. rewrite cache_dir_lookup_rows. cbn.
    unfold MetaSqlite.select_dir_rows. rewrite select_after_delete. reflexivity.
Qed.

(** ** The names of block files *)

Section BlockNames.

Lemma str_app_cons x (a b : string) : String x a +:+ b = String x (a +:+ b).
Proof. reflexivity. Qed.

Lemma str_app_assoc (a b c : string) : (a +:+ b) +:+ c = a +:+ (b +:+ c).
Proof.
  induction a as [| x a IH]; [reflexivity |].
  rewrite !str_app_cons, IH. reflexivity.
Qed.

Lemma str_length_app (a b : string) :
  String.length (a +:+ b) = (String.length a + String.length b)%nat.
Proof.
  induction a as [| x a IH]; [reflexivity |].
  rewrite str_app_cons. cbn [String.length]. rewrite IH. reflexivity.
Qed.

(** Two concatenations whose first parts have the same length agree part
    by part. *)
Lemma str_app_inj_length (a a' b b' : string) :
  String.length a = String.length a' ->
  a +:+ b = a' +:+ b' -> a = a' /\ b = b'.
Proof.
  revert a'. induction a as [| x a IH]; intros [| x' a'] Hlen Heq;
    try discriminate Hlen.
  - split; [reflexivity | exact Heq].
  - rewrite !str_app_cons in Heq.
    injection Heq as -> Heq. injection Hlen as Hlen.
    destruct (IH a' Hlen Heq) as [-> ->]. split; reflexivity.
Qed.

Lemma str_prefix_app (a b : string) : String.prefix a (a +:+ b) = true.
Proof.
  induction a as [| x a IH].
  - destruct b; reflexivity.
  - rewrite str_app_cons. cbn [String.prefix].
    destruct (ascii_dec x x) as [_ | Hne]; [exact IH | congruence].
Qed.

Lemma hex_fixed_length w z : String.length (hex_fixed w z) = w.
Proof.
  revert z. induction w as [| w IH]; intros z; [reflexivity |].
  cbn [hex_fixed]. rewrite str_length_app, IH. cbn. lia.
Qed.

Lemma hex_digit_inj a b :
  0 <= a < 16 -> 0 <= b < 16 -> hex_digit a = hex_digit b -> a = b.
Proof.
  intros Ha Hb. unfold hex_digit.
  rewrite <- (Z2Nat.id a), <- (Z2Nat.id b) by lia.
  assert (Hna : (Z.to_nat a < 16)%nat) by lia.
  assert (Hnb : (Z.to_nat b < 16)%nat) by lia.
  rewrite !Nat2Z.id.
  generalize dependent (Z.to_nat b). generalize dependent (Z.to_nat a).
  clear. intros na Hna nb Hnb H. f_equal.
  do 16 (destruct na as [| na];
         [ do 16 (destruct nb as [| nb];
                  [first [reflexivity | discriminate H] |]); lia |]).
  lia.
Qed.

(** Fixed-width hexadecimal is injective on the values that fit. *)
Lemma hex_fixed_inj w z z' :
  0 <= z < 16 ^ Z.of_nat w -> 0 <= z' < 16 ^ Z.of_nat w ->
  hex_fixed w z = hex_fixed w z' -> z = z'.
Proof.
  revert z z'. induction w as [| w IH]; intros z z' Hz Hz' Heq.
  - cbn in Hz, Hz'. lia.
  - cbn [hex_fixed] in Heq.
    apply str_app_inj_length in Heq; [| rewrite !hex_fixed_length; reflexivity].
    destruct Heq as [Hhi Hlo]. injection Hlo as Hlo.
    rewrite Nat2Z.inj_succ, Z.pow_succ_r in Hz, Hz' by lia.
    apply hex_digit_inj in Hlo; [| apply Z.mod_pos_bound; lia ..].
    apply IH in Hhi.
    + rewrite (Z.div_mod z 16), (Z.div_mod z' 16) by lia. congruence.
    + split; [apply Z.div_pos; lia | apply Z.div_lt_upper_bound; lia].
    + split; [apply Z.div_pos; lia | apply Z.div_lt_upper_bound; lia].
Qed.

Lemma wrap64_range z : 0 <= wrap64 z < 2 ^ 64.
Proof. unfold wrap64. apply Z.mod_pos_bound. lia. Qed.

Lemma wrap64_small z : 0 <= z < 2 ^ 64 -> wrap64 z = z.
Proof. intros Hz. unfold wrap64. apply Z.mod_small. exact Hz. Qed.

Lemma hash_loop_range path h : 0 <= h < 2 ^ 64 -> 0 <= hash_loop path h < 2 ^ 64.
Proof.
  revert h. induction path as [| c path IH]; intros h Hh; cbn; [exact Hh |].
  destruct (Ascii.eqb c zero); [exact Hh |].
  apply IH. apply wrap64_range.
Qed.

(** A hash is an [unsigned long]. *)
Lemma hash_path_range path : 0 <= hash_path path < 2 ^ 64.
Proof. apply hash_loop_range. lia. Qed.

(** The name of a block file determines the hash of the path and the block
    index, and nothing else of the path. *)
Lemma get_block_path_inj ctx ctx' p i p' i' :
  blocks_dir ctx = blocks_dir ctx' ->
  get_block_path ctx p i = get_block_path ctx' p' i' ->
  hash_path p = hash_path p' /\ i = i'.
Proof.
  intros Hdir. unfold get_block_path. rewrite Hdir. intros Heq.
  apply String.app_inj in Heq. apply String.app_inj in Heq.
  apply str_app_inj_length in Heq; [| rewrite !hex_fixed_length; reflexivity].
  destruct Heq as [_ Heq]. apply String.app_inj in Heq.
  apply str_app_inj_length in Heq; [| rewrite !hex_fixed_length; reflexivity].
  destruct Heq as [_ Heq]. apply String.app_inj in Heq.
  apply str_app_inj_length in Heq; [| rewrite !hex_fixed_length; reflexivity].
  destruct Heq as [Hhash Heq]. apply String.app_inj in Heq.
  split.
  - apply (hex_fixed_inj 16); [apply hash_path_range .. | exact Hhash].
  - apply (inj pretty). exact Heq.
Qed.

Lemma get_block_path_same_hash ctx ctx' p i p' :
  blocks_dir ctx = blocks_dir ctx' ->
  hash_path p = hash_path p' ->
  get_block_path ctx p i = get_block_path ctx' p' i.
Proof. intros Hdir Hhash. unfold get_block_path. rewrite Hdir, Hhash. reflexivity. Qed.

Lemma get_block_path_dir ctx n p i :
  get_block_path (set_current_cache_size ctx n) p i = get_block_path ctx p i.
Proof. reflexivity. Qed.

(** Every block file of a path is matched by [cache_block_invalidate_file]. *)
Lemma block_path_matches_prefix ctx p i :
  matches_prefix ctx p (get_block_path ctx p i) = true.
Proof.
  unfold matches_prefix, get_block_path, hash_dir, block_prefix.
  rewrite !str_app_assoc. cbn.
  replace (blocks_dir ctx +:+ "/" +:+ hex_fixed 2 (fanout1 (hash_path p)) +:+ "/"
           +:+ hex_fixed 2 (fanout2 (hash_path p)) +:+ "/"
           +:+ hex_fixed 16 (hash_path p) +:+ "-" +:+ pretty i)
    with ((blocks_dir ctx +:+ "/" +:+ hex_fixed 2 (fanout1 (hash_path p)) +:+ "/"
           +:+ hex_fixed 2 (fanout2 (hash_path p)) +:+ "/"
           +:+ hex_fixed 16 (hash_path p) +:+ "-") +:+ pretty i).
  - apply str_prefix_app.
  - rewrite !str_app_assoc. cbn. rewrite !str_app_assoc. reflexivity.
Qed.

End BlockNames.

(** ** The block store: what the operations leave in the tree *)

Section BlockTree.

Lemma get_block_path_ext ctx ctx' p i :
  blocks_dir ctx = blocks_dir ctx' ->
  get_block_path ctx p i = get_block_path ctx' p i.
Proof. intros Hdir. apply get_block_path_same_hash; [exact Hdir | reflexivity]. Qed.

(** The eviction loop only unlinks. *)
Lemma evict_loop_subseteq blocks cur target evicted (tree : blocks_tree) :
  snd (evict_loop blocks cur target evicted tree) ⊆ tree.
Proof.
  revert evicted tree. induction blocks as [| b blocks IH]; intros evicted tree; cbn.
  - reflexivity.
  - destruct (wrap64 (cur - evicted) >? target); [| reflexivity].
    etransitivity; [apply IH | apply delete_subseteq].
Qed.

Lemma evict_lru_blocks_subseteq ctx (tree : blocks_tree) target :
  snd (evict_lru_blocks ctx tree target) ⊆ tree /\
  blocks_dir (snd (fst (evict_lru_blocks ctx tree target))) = blocks_dir ctx.
Proof.
  unfold evict_lru_blocks.
  destruct (current_cache_size ctx <=? target); [split; reflexivity |].
  destruct (scan_blocks tree) as [| b blocks] eqn:Hscan; [split; reflexivity |].
  pose proof (evict_loop_subseteq (qsort_blocks (b :: blocks))
                (current_cache_size ctx) target 0 tree) as Hsub.
  destruct (evict_loop _ _ _ _ _) as [evicted tree']. cbn in *.
  split; [exact Hsub | reflexivity].
Qed.

(** [cache_block_write], by cases on what the file system does: a failing
    [open], a write that is not complete, and a complete one. *)
Lemma cache_block_write_open_fails ctx (tree : blocks_tree) p i buf now :
  cache_block_write ctx tree p i buf now OpenFails = (-1, ctx, tree).
Proof. reflexivity. Qed.

Lemma cache_block_write_short ctx (tree : blocks_tree) p i buf now io :
  io <> OpenFails ->
  write_result io buf <> Z.of_nat (length buf) ->
  cache_block_write ctx tree p i buf now io
  = (-1, ctx,
     <[get_block_path ctx p i :=
         written_file tree (get_block_path ctx p i) (write_stores io buf) now]>
       tree).
Proof.
  intros Hio Hres. apply Z.eqb_neq in Hres.
  destruct io as [| | n]; [congruence | |];
    unfold cache_block_write; rewrite Hres; reflexivity.
Qed.

Lemma cache_block_write_complete ctx (tree : blocks_tree) p i buf now n :
  (length buf <= n)%nat ->
  cache_block_write ctx tree p i buf now (Transfers n) =
  if (max_cache_size ctx >? 0)
     && (current_cache_size (counted_ctx ctx buf) >? max_cache_size ctx)
  then
    (0,
     snd (fst (evict_lru_blocks (counted_ctx ctx buf)
                 (written_tree ctx tree p i buf now) (eviction_target ctx))),
     snd (evict_lru_blocks (counted_ctx ctx buf)
            (written_tree ctx tree p i buf now) (eviction_target ctx)))
  else (0, counted_ctx ctx buf, written_tree ctx tree p i buf now).
Proof.
  intros Hn. unfold cache_block_write, write_result, write_stores.
  rewrite Nat.min_r by exact Hn. rewrite take_ge by exact Hn.
  rewrite Z.eqb_refl. cbn [negb].
  change (max_cache_size (set_current_cache_size ctx _)) with (max_cache_size ctx).
  fold (counted_ctx ctx buf).
  fold (written_file tree (get_block_path ctx p i) buf now).
  fold (written_tree ctx tree p i buf now). fold (eviction_target ctx).
  destruct ((max_cache_size ctx >? 0)
            && (current_cache_size (counted_ctx ctx buf) >? max_cache_size ctx));
    [| reflexivity].
  destruct (evict_lru_blocks _ _ _) as [[rc ctx2] tree2]. reflexivity.
Qed.

(** A write is complete or it is not. *)
Lemma write_io_cases io buf :
  io = OpenFails \/
  (io <> OpenFails /\ write_result io buf <> Z.of_nat (length buf)) \/
  exists n, io = Transfers n /\ (length buf <= n)%nat.
Proof.
  destruct io as [| | n]; [left; reflexivity | right; left | right].
  - split; [discriminate | cbn; lia].
  - destruct (le_lt_dec (length buf) n) as [Hle | Hlt].
    + right. exists n. split; [reflexivity | exact Hle].
    + left. split; [discriminate | cbn; lia].
Qed.

(** [cache_block_write] leaves what [write] transferred under the name of
    the block and may then unlink files; it creates or changes no other
    file, and none at all when [open] fails. *)
Lemma cache_block_write_tree ctx (tree : blocks_tree) p i buf now io :
  blocks_dir (snd (fst (cache_block_write ctx tree p i buf now io)))
  = blocks_dir ctx /\
  match io with
  | OpenFails => snd (cache_block_write ctx tree p i buf now io) = tree
  | _ =>
      snd (cache_block_write ctx tree p i buf now io)
      ⊆ <[get_block_path ctx p i :=
            written_file tree (get_block_path ctx p i) (write_stores io buf) now]>
          tree
  end.
Proof.
  destruct (write_io_cases io buf) as [-> | [[Hio Hres] | (n & -> & Hn)]].
  - split; reflexivity.
  - rewrite (cache_block_write_short _ _ _ _ _ _ _ Hio Hres). cbn [fst snd].
    split; [reflexivity |]. destruct io; [congruence | reflexivity ..].
  - rewrite (cache_block_write_complete _ _ _ _ _ _ _ Hn).
    cbn [write_stores]. rewrite take_ge by exact Hn.
    fold (written_tree ctx tree p i buf now).
    destruct ((max_cache_size ctx >? 0)
              && (current_cache_size (counted_ctx ctx buf) >? max_cache_size ctx));
      cbn [fst snd]; [| split; reflexivity].
    destruct (evict_lru_blocks_subseteq (counted_ctx ctx buf)
                (written_tree ctx tree p i buf now) (eviction_target ctx))
      as [Hsub Hdir].
    split; [exact Hdir | exact Hsub].
Qed.

(** A write returns 0 exactly when it is complete. *)
Lemma cache_block_write_rc ctx (tree : blocks_tree) p i buf now io :
  fst (fst (cache_block_write ctx tree p i buf now io))
  = if match io with
       | OpenFails => false
       | _ => write_result io buf =? Z.of_nat (length buf)
       end
    then 0 else -1.
Proof.
  destruct (write_io_cases io buf) as [-> | [[Hio Hres] | (n & -> & Hn)]].
  - reflexivity.
  - rewrite (cache_block_write_short _ _ _ _ _ _ _ Hio Hres).
    apply Z.eqb_neq in Hres. rewrite Hres. destruct io; reflexivity.
  - rewrite (cache_block_write_complete _ _ _ _ _ _ _ Hn).
    cbn [write_result]. rewrite Nat.min_r, Z.eqb_refl by exact Hn.
    destruct ((max_cache_size ctx >? 0)
              && (current_cache_size (counted_ctx ctx buf) >? max_cache_size ctx));
      reflexivity.
Qed.

(** Without a byte budget nothing is evicted. *)
Lemma cache_block_write_unbounded ctx (tree : blocks_tree) p i buf now :
  max_cache_size ctx = 0 ->
  cache_block_write ctx tree p i buf now (complete buf)
  = (0, counted_ctx ctx buf, written_tree ctx tree p i buf now).
Proof.
  intros Hmax. unfold complete.
  rewrite cache_block_write_complete by reflexivity. rewrite Hmax. reflexivity.
Qed.

(** [cache_block_read] changes no content. *)
Lemma cache_block_read_tree ctx (tree : blocks_tree) p i size offset touch k f :
  snd (cache_block_read ctx tree p i size offset touch) !! k = Some f ->
  exists f0, tree !! k = Some f0 /\ f_data f = f_data f0.
Proof.
  unfold cache_block_read.
  destruct (tree !! get_block_path ctx p i) as [g |] eqn:Hg; cbn [snd];
    [| intros H; eauto].
  destruct (pread (f_data g) size offset); cbn [snd]; [| intros H; eauto].
  destruct touch as [t |]; [| intros H; eauto].
  destruct (decide (get_block_path ctx p i = k)) as [<- | Hne].
  - rewrite lookup_insert_eq. intros [= <-]. eauto.
  - rewrite lookup_insert_ne by exact Hne. intros H; eauto.
Qed.

(** What [cache_block_read] returns is what [pread] returns on the block
    file. *)
Lemma cache_block_read_bytes ctx (tree : blocks_tree) p i size offset touch :
  fst (cache_block_read ctx tree p i size offset touch)
  = tree !! get_block_path ctx p i ≫= (fun f => pread (f_data f) size offset).
Proof.
  unfold cache_block_read.
  destruct (tree !! get_block_path ctx p i) as [g |]; cbn; [| reflexivity].
  destruct (pread (f_data g) size offset); reflexivity.
Qed.

(** [pread] within the range of [off_t]. *)
Lemma pread_in_range data size offset :
  0 <= size -> 0 <= offset -> offset + size <= 2 ^ 63 - 1 ->
  pread data size offset
  = Some (take (Z.to_nat size) (drop (Z.to_nat offset) data)).
Proof.
  intros Hs Ho Hsum. unfold pread, to_int64.
  rewrite !wrap64_small by lia.
  replace (offset <? 2 ^ 63) with true by (symmetry; apply Z.ltb_lt; lia).
  replace (offset <? 0) with false by (symmetry; apply Z.ltb_ge; lia).
  replace (2 ^ 63 - 1 <? offset + size) with false
    by (symmetry; apply Z.ltb_ge; lia).
  reflexivity.
Qed.

(** When [pread] succeeds it returns the slice of the file at the offset
    and size as the call converts them. *)
Lemma pread_Some data size offset bytes :
  pread data size offset = Some bytes ->
  wrap64 offset + wrap64 size <= 2 ^ 63 - 1 /\
  bytes = take (Z.to_nat (wrap64 size)) (drop (Z.to_nat (wrap64 offset)) data).
Proof.
  unfold pread, to_int64.
  pose proof (wrap64_range offset) as Ho. pose proof (wrap64_range size) as Hs.
  destruct (wrap64 offset <? 2 ^ 63) eqn:Hlt.
  - apply Z.ltb_lt in Hlt.
    replace (wrap64 offset <? 0) with false by (symmetry; apply Z.ltb_ge; lia).
    cbn [orb].
    destruct (2 ^ 63 - 1 <? wrap64 offset + wrap64 size) eqn:Hsum;
      [discriminate |].
    apply Z.ltb_ge in Hsum. intros [= <-]. split; [exact Hsum | reflexivity].
  - apply Z.ltb_ge in Hlt.
    replace (wrap64 offset - 2 ^ 64 <? 0) with true
      by (symmetry; apply Z.ltb_lt; lia).
    discriminate.
Qed.

(** The loop of [cache_block_invalidate_range] only unlinks. *)
Lemma invalidate_blocks_subseteq p n i (st : cache_block_ctx * blocks_tree) :
  snd (invalidate_blocks p n i st) ⊆ snd st /\
  blocks_dir (fst (invalidate_blocks p n i st)) = blocks_dir (fst st).
Proof.
  revert i st. induction n as [| n IH]; intros i [ctx tree]; cbn.
  - split; reflexivity.
  - destruct (tree !! get_block_path ctx p i) as [f |] eqn:Hf.
    + destruct (IH (i + 1)
                  (set_current_cache_size ctx
                     (wrap64 (current_cache_size ctx - f_size f)),
                   delete (get_block_path ctx p i) tree)) as [Hsub Hdir].
      split; [| exact Hdir].
      etransitivity; [exact Hsub | apply delete_subseteq].
    + apply (IH (i + 1) (ctx, tree)).
Qed.

(** The unlink loop of [cache_block_invalidate_file]. *)
Lemma unlink_all_subseteq (victims : list (string * block_file)) cur (tree : blocks_tree) :
  snd (fold_left
         (fun acc e => (wrap64 (fst acc - f_size (snd e)), delete (fst e) (snd acc)))
         victims (cur, tree)) ⊆ tree.
Proof.
  revert cur tree. induction victims as [| e victims IH]; intros cur tree; cbn.
  - reflexivity.
  - etransitivity; [apply IH | apply delete_subseteq].
Qed.

Lemma unlink_all_gone (victims : list (string * block_file)) cur (tree : blocks_tree) k :
  In k (map fst victims) ->
  snd (fold_left
         (fun acc e => (wrap64 (fst acc - f_size (snd e)), delete (fst e) (snd acc)))
         victims (cur, tree)) !! k = None.
Proof.
  revert cur tree. induction victims as [| e victims IH]; intros cur tree; cbn.
  - intros [].
  - intros [<- | Hin].
    + eapply lookup_weaken_None; [| apply unlink_all_subseteq].
      apply lookup_delete_eq.
    + apply IH. exact Hin.
Qed.

Lemma cache_block_invalidate_file_subseteq ctx (tree : blocks_tree) p :
  snd (cache_block_invalidate_file ctx tree p) ⊆ tree /\
  blocks_dir (snd (fst (cache_block_invalidate_file ctx tree p))) = blocks_dir ctx.
Proof.
  unfold cache_block_invalidate_file.
  match goal with
  | |- context [fold_left ?f ?l (?c, ?t)] =>
      pose proof (unlink_all_subseteq l c t) as Hsub;
      destruct (fold_left f l (c, t)) as [cur tree']
  end.
  cbn in *. split; [exact Hsub | reflexivity].
Qed.


End BlockTree.

(** ** Which bytes a block read returns *)

Section LastWritten.

Lemma step_holds_last_written w st op st' :
  holds_last_written w st ->
  step st op = Some st' ->
  holds_last_written (record_write w op) st' /\
  blocks_dir (fst st') = blocks_dir (fst st).
Proof.
  destruct st as [ctx tree]. intros Hinv Hstep.
  destruct op as [p0 i0 buf now io | p0 i0 size offset touch | p0 offset size | p0];
    cbn in Hstep.
  - (* write *)
    destruct (cache_block_write_tree ctx tree p0 i0 buf now io) as [Hdir Htree].
    destruct (cache_block_write ctx tree p0 i0 buf now io) as [[rc ctx'] tree'].
    injection Hstep as <-. cbn [fst snd] in *. split; [| exact Hdir].
    assert (Hsub : io <> OpenFails ->
              tree' ⊆ <[get_block_path ctx p0 i0 :=
                          written_file tree (get_block_path ctx p0 i0)
                            (write_stores io buf) now]> tree)
      by (destruct io; [congruence | intros _; exact Htree ..]).
    assert (Hd : io = OpenFails \/ io <> OpenFails)
      by (destruct io; [left; reflexivity | right; discriminate ..]).
    destruct Hd as [-> | Hio].
    { subst tree'. intros p i f Hf. cbn [fst snd] in Hf.
      rewrite (get_block_path_ext ctx' ctx p i Hdir) in Hf.
      apply (Hinv p i f). exact Hf. }
    specialize (Hsub Hio). clear Htree.
    assert (Hrec : record_write w (OpWrite p0 i0 buf now io)
                   = fun h j => if (h =? hash_path p0) && (j =? i0)
                                then Some (write_stores io buf) else w h j)
      by (destruct io; [congruence | reflexivity ..]).
    rewrite Hrec. clear Hrec.
    intros p i f Hf. cbn [fst snd] in Hf.
    rewrite (get_block_path_ext ctx' ctx p i Hdir) in Hf.
    eapply lookup_weaken in Hf; [| exact Hsub].
    destruct (decide (get_block_path ctx p0 i0 = get_block_path ctx p i)) as [Heq | Hne].
    + rewrite Heq, lookup_insert_eq in Hf. injection Hf as <-.
      apply get_block_path_inj in Heq; [| reflexivity].
      destruct Heq as [-> ->]. rewrite !Z.eqb_refl. reflexivity.
    + rewrite lookup_insert_ne in Hf by exact Hne.
      destruct ((hash_path p =? hash_path p0) && (i =? i0)) eqn:Hc.
      * exfalso. apply Hne. apply andb_true_iff in Hc.
        destruct Hc as [Hh Hi]. apply Z.eqb_eq in Hh, Hi. subst i.
        apply get_block_path_same_hash; [reflexivity | symmetry; exact Hh].
      * apply (Hinv p i f). exact Hf.
  - (* read *)
    injection Hstep as <-. cbn. split; [| reflexivity].
    intros p i f Hf. cbn in Hf.
    apply cache_block_read_tree in Hf. destruct Hf as (f0 & Hf0 & ->).
    apply (Hinv p i f0). exact Hf0.
  - (* invalidate a range *)
    unfold cache_block_invalidate_range in Hstep.
    destruct (_ =? SIZE_MAX); [discriminate |].
    match type of Hstep with
    | context [invalidate_blocks ?q ?n ?i ?s] =>
        pose proof (invalidate_blocks_subseteq q n i s) as [Hsub Hdir];
        destruct (invalidate_blocks q n i s) as [ctx' tree']
    end.
    injection Hstep as <-. cbn in *. split; [| exact Hdir].
    intros p i f Hf. cbn in Hf.
    rewrite (get_block_path_ext ctx' ctx p i Hdir) in Hf.
    apply (Hinv p i f). eapply lookup_weaken; [exact Hf | exact Hsub].
  - (* invalidate a file *)
    destruct (cache_block_invalidate_file_subseteq ctx tree p0) as [Hsub Hdir].
    destruct (cache_block_invalidate_file ctx tree p0) as [[rc ctx'] tree'].
    injection Hstep as <-. cbn in *. split; [| exact Hdir].
    intros p i f Hf. cbn in Hf.
    rewrite (get_block_path_ext ctx' ctx p i Hdir) in Hf.
    apply (Hinv p i f). eapply lookup_weaken; [exact Hf | exact Hsub].
Qed.

Lemma run_holds_last_written ops w st st' :
  holds_last_written w st ->
  run ops st = Some st' ->
  holds_last_written (fold_left record_write ops w) st'.
Proof.
  revert w st. induction ops as [| op ops IH]; intros w st Hinv Hrun; cbn in *.
  - injection Hrun as <-. exact Hinv.
  - destruct (step st op) as [st1 |] eqn:Hstep; [| discriminate].
    apply (IH _ st1); [| exact Hrun].
    apply (step_holds_last_written w st op st1 Hinv Hstep).
Qed.

(** After a history on an empty cache, a read that succeeds returns the
    requested slice of the bytes last stored under the name of the block. *)
Lemma read_after_run ctx ops ctx' tree' p i size offset touch bytes :
  run ops (ctx, ∅) = Some (ctx', tree') ->
  fst (cache_block_read ctx' tree' p i size offset touch) = Some bytes ->
  exists stored,
    last_written ops (hash_path p) i = Some stored /\
    bytes = take (Z.to_nat (wrap64 size)) (drop (Z.to_nat (wrap64 offset)) stored).
Proof.
  intros Hrun Hread.
  assert (Hinv : holds_last_written (last_written ops) (ctx', tree')).
  { apply (run_holds_last_written ops _ (ctx, ∅)); [| exact Hrun].
    intros q j f Hf. cbn in Hf. rewrite lookup_empty in Hf. discriminate. }
  rewrite cache_block_read_bytes in Hread.
  destruct (tree' !! get_block_path ctx' p i) as [f |] eqn:Hf; [| discriminate].
  cbn in Hread. apply pread_Some in Hread. destruct Hread as [_ ->].
  exists (f_data f). split; [| reflexivity].
  apply (Hinv p i f). exact Hf.
Qed.

(** A write for a path of another hash does not count as the last write. *)
Lemma last_written_other_hash ops p1 i1 buf now io p2 i2 :
  hash_path p1 <> hash_path p2 ->
  last_written (ops ++ [OpWrite p1 i1 buf now io]) (hash_path p2) i2
  = last_written ops (hash_path p2) i2.
Proof.
  intros Hne. unfold last_written. rewrite fold_left_app. cbn [fold_left].
  destruct io; cbn [record_write]; [reflexivity | |];
    (destruct (hash_path p2 =? hash_path p1) eqn:Hh; [| reflexivity]);
    apply Z.eqb_eq in Hh; congruence.
Qed.

(** A complete write stores its buffer, and a later write whose [open]
    fails stores nothing in its place. *)
Lemma last_written_complete ops p i buf now :
  last_written (ops ++ [OpWrite p i buf now (complete buf)]) (hash_path p) i
  = Some buf.
Proof.
  unfold last_written. rewrite fold_left_app. cbn.
  rewrite !Z.eqb_refl. cbn. rewrite take_ge by reflexivity. reflexivity.
Qed.

Lemma last_written_open_fails ops p i buf now h j :
  last_written (ops ++ [OpWrite p i buf now OpenFails]) h j
  = last_written ops h j.
Proof. unfold last_written. rewrite fold_left_app. reflexivity. Qed.

(** A block stored for a path is not what a read for a path of another hash
    returns: that read returns what it would have returned before. *)
Lemma read_after_write_of_other_hash ctx ops p1 i1 buf1 t1 io1 ctx' tree'
    p2 i2 size offset touch bytes :
  hash_path p1 <> hash_path p2 ->
  run (ops ++ [OpWrite p1 i1 buf1 t1 io1]) (ctx, ∅) = Some (ctx', tree') ->
  fst (cache_block_read ctx' tree' p2 i2 size offset touch) = Some bytes ->
  exists stored,
    last_written ops (hash_path p2) i2 = Some stored /\
    bytes = take (Z.to_nat (wrap64 size)) (drop (Z.to_nat (wrap64 offset)) stored).
Proof.
  intros Hne Hrun Hread.
  destruct (read_after_run _ _ _ _ _ _ _ _ _ _ Hrun Hread) as (stored & Hst & ->).
  rewrite last_written_other_hash in Hst by exact Hne.
  exists stored. split; [exact Hst | reflexivity].
Qed.

End LastWritten.




(** ** The open-time coherence check *)


(** Without a block cache the check acts on the metadata store alone. *)
Lemma coherency_check_without_blocks mctx db path st now :
  let r := Coherency.cache_coherency_check_and_invalidate mctx db None path st now in
  fst (fst r) = 0 /\ snd r = None /\
  if stale_record db path st
  then MetaSqlite.metadata (snd (fst r)) !! path = None
  else snd (fst r) = db.
Proof.
  unfold Coherency.cache_coherency_check_and_invalidate, stale_record,
    MetaSqlite.cache_meta_lookup, Coherency.cache_coherency_validate_meta.
  destruct (MetaSqlite.metadata db !! path) as [row |] eqn:Hrow; cbn.
  2: { repeat split. }
  destruct ((MetaSqlite.c_mtime row =? st_mtime st)
            && (MetaSqlite.c_size row =? Meta.st_size st)); cbn.
  - repeat split.
  - split; [reflexivity | split; [reflexivity | apply lookup_delete_eq]].
Qed.

(** ** The bytes present and the counter *)

Section BytesPresent.

Lemma f_size_nonneg f : 0 <= f_size f.
Proof. unfold f_size. lia. Qed.

Lemma bytes_present_empty : bytes_present ∅ = 0.
Proof. unfold bytes_present. apply map_fold_empty. Qed.

Lemma bytes_present_insert_new (tree : blocks_tree) k f :
  tree !! k = None ->
  bytes_present (<[k := f]> tree) = bytes_present tree + f_size f.
Proof.
  intros Hk. unfold bytes_present.
  rewrite map_fold_insert_L; [reflexivity | | exact Hk].
  intros; lia.
Qed.

Lemma bytes_present_delete (tree : blocks_tree) k f :
  tree !! k = Some f ->
  bytes_present (delete k tree) = bytes_present tree - f_size f.
Proof.
  intros Hk. unfold bytes_present.
  rewrite (map_fold_delete_L _ 0 k f tree); [lia | | exact Hk].
  intros; lia.
Qed.

Lemma bytes_present_nonneg (tree : blocks_tree) : 0 <= bytes_present tree.
Proof.
  induction tree as [| k f tree Hk IH] using map_ind.
  - rewrite bytes_present_empty. lia.
  - rewrite bytes_present_insert_new by exact Hk.
    pose proof (f_size_nonneg f). lia.
Qed.

(** A file present takes part in the bytes present. *)
Lemma bytes_present_lookup (tree : blocks_tree) k f :
  tree !! k = Some f -> f_size f <= bytes_present tree.
Proof.
  intros Hk. pose proof (bytes_present_delete tree k f Hk).
  pose proof (bytes_present_nonneg (delete k tree)). lia.
Qed.

Lemma bytes_present_delete_le (tree : blocks_tree) k :
  bytes_present (delete k tree) <= bytes_present tree.
Proof.
  destruct (tree !! k) as [f |] eqn:Hk.
  - rewrite (bytes_present_delete tree k f Hk). pose proof (f_size_nonneg f). lia.
  - rewrite delete_id by exact Hk. lia.
Qed.

(** Writing over a file replaces its bytes. *)
Lemma bytes_present_insert (tree : blocks_tree) k f :
  bytes_present (<[k := f]> tree)
  = bytes_present tree
    - match tree !! k with Some old => f_size old | None => 0 end
    + f_size f.
Proof.
  destruct (tree !! k) as [old |] eqn:Hk.
  - rewrite <- insert_delete_eq.
    rewrite bytes_present_insert_new by apply lookup_delete_eq.
    rewrite (bytes_present_delete tree k old Hk). lia.
  - rewrite bytes_present_insert_new by exact Hk. lia.
Qed.

Lemma bytes_present_sum (tree : blocks_tree) :
  bytes_present tree = sum_sizes (map info_of (map_to_list tree)).
Proof.
  unfold bytes_present. rewrite map_fold_foldr.
  induction (map_to_list tree) as [| [k f] l IH]; cbn; [reflexivity |].
  rewrite IH. unfold sum_sizes. cbn. lia.
Qed.

Lemma sum_sizes_nonneg_scan (l : list (string * block_file)) :
  0 <= sum_sizes (map info_of l).
Proof.
  induction l as [| e l IH]; cbn; [lia |].
  pose proof (f_size_nonneg (snd e)). unfold sum_sizes in *. cbn. lia.
Qed.

Lemma count_sizes (l : list (string * block_file)) total :
  0 <= total ->
  total + sum_sizes (map info_of l) < 2 ^ 64 ->
  fold_left (fun t b => wrap64 (t + bi_size b)) (map info_of l) total
  = total + sum_sizes (map info_of l).
Proof.
  revert total. induction l as [| e l IH]; intros total Htot Hlt; cbn.
  - unfold sum_sizes. cbn. lia.
  - pose proof (f_size_nonneg (snd e)) as He.
    pose proof (sum_sizes_nonneg_scan l) as Hl.
    unfold sum_sizes in Hlt, Hl |- *. cbn in Hlt |- *.
    fold (sum_sizes (map info_of l)) in Hlt, Hl |- *.
    rewrite wrap64_small by lia. rewrite IH by lia. lia.
Qed.

(** [calculate_cache_size] finds the bytes present: the counter is exact
    when the block store is opened. *)
Lemma cache_block_init_exact root bs maxsz dbg (tree : blocks_tree) :
  bytes_present tree < 2 ^ 64 ->
  current_cache_size (cache_block_init root bs maxsz dbg tree) = bytes_present tree.
Proof.
  intros Hlt. cbn. unfold calculate_cache_size, scan_blocks.
  rewrite bytes_present_sum in Hlt |- *.
  change (fun e : string * block_file =>
            {| bi_path := fst e; bi_atime := f_atime (snd e);
               bi_size := f_size (snd e) |}) with info_of.
  rewrite count_sizes; lia.
Qed.

End BytesPresent.

(** ** The eviction pass *)

Section Eviction.

Lemma scan_blocks_info (tree : blocks_tree) :
  scan_blocks tree = map info_of (map_to_list tree).
Proof. reflexivity. Qed.

Lemma scan_blocks_describes (tree : blocks_tree) :
  Forall (describes tree) (scan_blocks tree).
Proof.
  rewrite scan_blocks_info. apply Forall_forall. intros b Hb.
  apply list_elem_of_In, in_map_iff in Hb. destruct Hb as ([k f] & <- & He).
  apply list_elem_of_In, elem_of_map_to_list in He.
  exists f. cbn. repeat split. exact He.
Qed.

Lemma scan_blocks_paths (tree : blocks_tree) :
  NoDup (map bi_path (scan_blocks tree)).
Proof.
  rewrite scan_blocks_info, map_map. cbn.
  change (map (fun x : string * block_file => fst x) (map_to_list tree))
    with ((map_to_list tree).*1).
  apply NoDup_fst_map_to_list.
Qed.

Lemma scan_blocks_complete (tree : blocks_tree) k f :
  tree !! k = Some f -> In (info_of (k, f)) (scan_blocks tree).
Proof.
  intros Hk. rewrite scan_blocks_info. apply in_map.
  apply list_elem_of_In, elem_of_map_to_list. exact Hk.
Qed.

(** [qsort] permutes the scan and leaves it oldest first. *)
Lemma insert_block_perm b l : Permutation (insert_block b l) (b :: l).
Proof.
  induction l as [| x l IH]; cbn; [reflexivity |].
  destruct (compare_block_atime x b >? 0); [reflexivity |].
  rewrite IH. apply perm_swap.
Qed.

Lemma qsort_blocks_perm l : Permutation (qsort_blocks l) l.
Proof.
  induction l as [| b l IH]; [reflexivity |].
  change (qsort_blocks (b :: l)) with (insert_block b (qsort_blocks l)).
  rewrite insert_block_perm, IH. reflexivity.
Qed.

Lemma compare_block_atime_gt x b :
  (compare_block_atime x b >? 0) = (bi_atime b <? bi_atime x).
Proof.
  unfold compare_block_atime.
  destruct (bi_atime x <? bi_atime b) eqn:H1;
    [| destruct (bi_atime x >? bi_atime b) eqn:H2]; cbn; lia.
Qed.

Lemma insert_block_sorted b l :
  Sorted atime_le l -> Sorted atime_le (insert_block b l).
Proof.
  induction l as [| x l IH]; intros Hs; cbn.
  - repeat constructor.
  - rewrite compare_block_atime_gt.
    destruct (bi_atime b <? bi_atime x) eqn:Hlt.
    + constructor; [exact Hs |]. constructor. unfold atime_le. lia.
    + apply Sorted_inv in Hs. destruct Hs as [Hs Hhd].
      constructor; [apply IH; exact Hs |].
      assert (Hxb : atime_le x b) by (unfold atime_le; lia).
      destruct l as [| y l]; cbn.
      * constructor. exact Hxb.
      * destruct (compare_block_atime y b >? 0); constructor; [exact Hxb |].
        apply HdRel_inv in Hhd. exact Hhd.
Qed.

Lemma qsort_blocks_sorted l : StronglySorted atime_le (qsort_blocks l).
Proof.
  apply Sorted_StronglySorted.
  - intros a b c Hab Hbc. unfold atime_le in *. lia.
  - induction l as [| b l IH]; [constructor |].
    change (qsort_blocks (b :: l)) with (insert_block b (qsort_blocks l)).
    apply insert_block_sorted. exact IH.
Qed.

Lemma strongly_sorted_app_le (l1 l2 : list block_info) a b :
  StronglySorted atime_le (l1 ++ l2) -> In a l1 -> In b l2 -> atime_le a b.
Proof.
  induction l1 as [| x l1 IH]; intros Hs Ha Hb; [destruct Ha |].
  cbn in Hs. apply StronglySorted_inv in Hs. destruct Hs as [Hs Hall].
  destruct Ha as [<- | Ha].
  - rewrite Forall_forall in Hall. apply Hall.
    apply list_elem_of_In, in_or_app. right. exact Hb.
  - apply IH; assumption.
Qed.

(** Unlinking a list of files. *)
Lemma unlink_blocks_gone l (tree : blocks_tree) k :
  In k (map bi_path l) -> unlink_blocks l tree !! k = None.
Proof.
  revert tree. induction l as [| b l IH]; intros tree; cbn; [intros [] |].
  intros [<- | Hin].
  - clear IH. assert (Hsub : unlink_blocks l (delete (bi_path b) tree)
                            ⊆ delete (bi_path b) tree).
    { generalize (delete (bi_path b) tree). induction l as [| x l IHl];
        intros t; cbn; [reflexivity |].
      etransitivity; [apply IHl | apply delete_subseteq]. }
    eapply lookup_weaken_None; [apply lookup_delete_eq | exact Hsub].
  - apply IH. exact Hin.
Qed.

Lemma unlink_blocks_other l (tree : blocks_tree) k :
  ~ In k (map bi_path l) -> unlink_blocks l tree !! k = tree !! k.
Proof.
  revert tree. induction l as [| b l IH]; intros tree Hnot; cbn; [reflexivity |].
  cbn in Hnot. rewrite IH by tauto.
  apply lookup_delete_ne. tauto.
Qed.

Lemma unlink_blocks_bytes l (tree : blocks_tree) :
  NoDup (map bi_path l) ->
  Forall (describes tree) l ->
  bytes_present (unlink_blocks l tree) = bytes_present tree - sum_sizes l.
Proof.
  revert tree. induction l as [| b l IH]; intros tree Hnd Hall; cbn.
  - unfold sum_sizes. cbn. lia.
  - cbn in Hnd. apply NoDup_cons in Hnd. destruct Hnd as [Hb Hnd].
    apply Forall_cons in Hall. destruct Hall as [(f & Hf & _ & Hsz) Hall].
    rewrite IH.
    + rewrite (bytes_present_delete tree _ f Hf).
      unfold sum_sizes. cbn. fold (sum_sizes l). lia.
    + exact Hnd.
    + rewrite Forall_forall in Hall |- *. intros x Hx.
      destruct (Hall x Hx) as (g & Hg & Hat & Hgs).
      exists g. split; [| split; assumption].
      rewrite lookup_delete_ne; [exact Hg |].
      intros Heq. apply Hb. rewrite Heq.
      apply list_elem_of_In, in_map, list_elem_of_In. exact Hx.
Qed.

Lemma sum_sizes_app l1 l2 : sum_sizes (l1 ++ l2) = sum_sizes l1 + sum_sizes l2.
Proof.
  induction l1 as [| b l1 IH]; cbn; [unfold sum_sizes; cbn; lia |].
  unfold sum_sizes in *. cbn. lia.
Qed.

Lemma sum_sizes_nonneg (tree : blocks_tree) l :
  Forall (describes tree) l -> 0 <= sum_sizes l.
Proof.
  induction 1 as [| b l (f & _ & _ & Hsz) _ IH]; [unfold sum_sizes; cbn; lia |].
  pose proof (f_size_nonneg f). unfold sum_sizes in *. cbn. lia.
Qed.

Lemma sum_sizes_perm l l' : Permutation l l' -> sum_sizes l = sum_sizes l'.
Proof.
  induction 1; unfold sum_sizes in *; cbn; lia.
Qed.

(** The bytes counted as evicted, when no sum wraps. *)
Lemma add_sizes_exact (tree : blocks_tree) l evicted :
  Forall (describes tree) l ->
  0 <= evicted -> evicted + sum_sizes l < 2 ^ 64 ->
  fold_left (fun e b => wrap64 (e + bi_size b)) l evicted = evicted + sum_sizes l.
Proof.
  intros Hall. revert evicted.
  induction Hall as [| b l (f & _ & _ & Hsz) Hl IH]; intros evicted He Hlt; cbn.
  - unfold sum_sizes. cbn. lia.
  - pose proof (f_size_nonneg f) as Hf.
    pose proof (sum_sizes_nonneg tree l Hl) as Hnn.
    unfold sum_sizes in Hlt |- *. cbn in Hlt |- *.
    fold (sum_sizes l) in Hlt |- *.
    rewrite wrap64_small by lia. rewrite IH by lia. lia.
Qed.

(** The loop unlinks a prefix of the list, and stops either at its end or
    as soon as the counter minus the evicted bytes is within the target. *)
Lemma evict_loop_split blocks cur target evicted (tree : blocks_tree) :
  exists l1 l2,
    blocks = l1 ++ l2 /\
    evict_loop blocks cur target evicted tree
    = (fold_left (fun e b => wrap64 (e + bi_size b)) l1 evicted,
       unlink_blocks l1 tree) /\
    (l2 = [] \/
     (wrap64 (cur - fold_left (fun e b => wrap64 (e + bi_size b)) l1 evicted)
        >? target) = false).
Proof.
  revert evicted tree. induction blocks as [| b blocks IH]; intros evicted tree.
  - exists [], []. cbn. repeat split. left. reflexivity.
  - cbn. destruct (wrap64 (cur - evicted) >? target) eqn:Hgt.
    + destruct (IH (wrap64 (evicted + bi_size b)) (delete (bi_path b) tree))
        as (l1 & l2 & -> & Heq & Hstop).
      exists (b :: l1), l2. cbn. repeat split; assumption.
    + exists [], (b :: blocks). cbn. repeat split. right. exact Hgt.
Qed.

End Eviction.

Section EvictionPass.

Lemma describes_perm (tree : blocks_tree) l l' :
  Permutation l l' -> Forall (describes tree) l' -> Forall (describes tree) l.
Proof.
  intros Hperm Hall. rewrite Forall_forall in Hall |- *.
  intros x Hx. apply Hall. rewrite <- Hperm. exact Hx.
Qed.

(** What an eviction pass does when the counter covers the bytes present:
    it removes from the counter exactly the bytes it unlinks; it ends with
    the counter within the target, or with no block left; and every block
    it unlinks was accessed no later than every block it leaves. *)
Lemma evict_lru_blocks_spec ctx (tree : blocks_tree) target :
  counter_covers ctx tree ->
  let ctx' := snd (fst (evict_lru_blocks ctx tree target)) in
  let tree' := snd (evict_lru_blocks ctx tree target) in
  overcount ctx' tree' = overcount ctx tree /\
  counter_covers ctx' tree' /\
  (current_cache_size ctx' <= target \/ tree' = ∅) /\
  (forall k f k' f',
     tree !! k = Some f -> tree' !! k = None -> tree' !! k' = Some f' ->
     f_atime f <= f_atime f').
Proof.
  intros Hcov. unfold evict_lru_blocks.
  destruct (current_cache_size ctx <=? target) eqn:Hle; cbn.
  { split; [reflexivity | split; [exact Hcov | split; [left; lia |]]].
    intros k f k' f' Hk Hk'. congruence. }
  destruct (scan_blocks tree) as [| b0 bl] eqn:Hscan.
  { cbn. assert (Hempty : tree = ∅).
    { apply map_to_list_empty_iff. rewrite scan_blocks_info in Hscan.
      destruct (map_to_list tree); [reflexivity | discriminate]. }
    split; [reflexivity | split; [exact Hcov | split; [right; exact Hempty |]]].
    intros k f k' f' Hk Hk'. congruence. }
  rewrite <- Hscan. clear b0 bl Hscan.
  destruct (evict_loop_split (qsort_blocks (scan_blocks tree))
              (current_cache_size ctx) target 0 tree)
    as (l1 & l2 & Hsplit & -> & Hstop).
  cbn.
  pose proof (qsort_blocks_perm (scan_blocks tree)) as Hperm.
  pose proof (qsort_blocks_sorted (scan_blocks tree)) as Hsorted.
  rewrite Hsplit in Hperm, Hsorted.
  assert (Hdesc : Forall (describes tree) (l1 ++ l2)).
  { eapply describes_perm; [exact Hperm | apply scan_blocks_describes]. }
  apply Forall_app in Hdesc. destruct Hdesc as [Hd1 Hd2].
  assert (Hnd : NoDup (map bi_path (l1 ++ l2))).
  { rewrite (Permutation_map bi_path Hperm). apply scan_blocks_paths. }
  rewrite map_app in Hnd. apply NoDup_app in Hnd. destruct Hnd as (Hnd1 & Hdisj & _).
  assert (Hsum : sum_sizes l1 + sum_sizes l2 = bytes_present tree).
  { rewrite <- sum_sizes_app, (sum_sizes_perm _ _ Hperm), bytes_present_sum.
    reflexivity. }
  pose proof (sum_sizes_nonneg tree l1 Hd1) as Hn1.
  pose proof (sum_sizes_nonneg tree l2 Hd2) as Hn2.
  destruct Hcov as [Hcov1 Hcov2].
  rewrite (add_sizes_exact tree l1 0 Hd1) in * by lia.
  rewrite Z.add_0_l in *.
  rewrite (wrap64_small (current_cache_size ctx - sum_sizes l1)) in * by lia.
  pose proof (unlink_blocks_bytes l1 tree Hnd1 Hd1) as Hbytes.
  unfold overcount, counter_covers. cbn.
  split; [lia | split; [lia | split]].
  - destruct Hstop as [-> | Hstop]; [right | left; lia].
    rewrite app_nil_r in *. apply map_empty. intros k.
    destruct (tree !! k) as [f |] eqn:Hk.
    + apply unlink_blocks_gone.
      pose proof (scan_blocks_complete tree k f Hk) as Hin.
      apply (Permutation_in _ (Permutation_sym Hperm)) in Hin.
      apply in_map_iff. exists (info_of (k, f)). split; [reflexivity | exact Hin].
    + destruct (in_dec string_dec k (map bi_path l1)) as [Hin | Hnot].
      * apply unlink_blocks_gone. exact Hin.
      * rewrite unlink_blocks_other by exact Hnot. exact Hk.
  - intros k f k' f' Hk Hgone Hkept.
    assert (Hin1 : In k (map bi_path l1)).
    { destruct (in_dec string_dec k (map bi_path l1)) as [Hin | Hnot];
        [exact Hin |].
      rewrite unlink_blocks_other in Hgone by exact Hnot. congruence. }
    assert (Hnot2 : ~ In k' (map bi_path l1)).
    { intros Hin. rewrite unlink_blocks_gone in Hkept by exact Hin. discriminate. }
    rewrite unlink_blocks_other in Hkept by exact Hnot2.
    apply in_map_iff in Hin1. destruct Hin1 as (b & Hbk & Hb).
    rewrite Forall_forall in Hd1.
    destruct (Hd1 b (proj2 (list_elem_of_In _ _) Hb)) as (g & Hg & Hat & _).
    rewrite Hbk, Hk in Hg. injection Hg as <-.
    pose proof (scan_blocks_complete tree k' f' Hkept) as Hin'.
    apply (Permutation_in _ (Permutation_sym Hperm)) in Hin'.
    apply in_app_or in Hin'. destruct Hin' as [Hin' | Hin'].
    + exfalso. apply Hnot2. apply in_map_iff.
      exists (info_of (k', f')). split; [reflexivity | exact Hin'].
    + pose proof (strongly_sorted_app_le l1 l2 b (info_of (k', f'))
                    Hsorted Hb Hin') as Hle'.
      unfold atime_le in Hle'. cbn in Hle'. lia.
Qed.

Lemma evict_lru_blocks_max ctx (tree : blocks_tree) target :
  max_cache_size (snd (fst (evict_lru_blocks ctx tree target))) = max_cache_size ctx.
Proof.
  unfold evict_lru_blocks.
  destruct (current_cache_size ctx <=? target); [reflexivity |].
  destruct (scan_blocks tree); [reflexivity |].
  destruct (evict_loop _ _ _ _ _). reflexivity.
Qed.

End EvictionPass.

(** ** The counter across the operations *)

Section EvictionTarget.

Lemma eviction_target_le_max maxsz : 0 <= maxsz -> wrap64 (maxsz * 9) / 10 <= maxsz.
Proof.
  intros Hmax. unfold wrap64.
  assert (Hmod : (maxsz * 9) mod 2 ^ 64 <= maxsz * 9) by (apply Z.mod_le; lia).
  apply Z.div_le_upper_bound; lia.
Qed.

(** The target of the eviction pass is nine tenths of the budget. *)
Lemma eviction_target_exact maxsz c :
  0 <= maxsz -> maxsz * 9 < 2 ^ 64 ->
  (c <= wrap64 (maxsz * 9) / 10 <-> 10 * c <= 9 * maxsz).
Proof.
  intros Hmax Hfit. rewrite wrap64_small by lia. split; intros H.
  - pose proof (Z.mul_div_le (maxsz * 9) 10 ltac:(lia)). lia.
  - apply Z.div_le_lower_bound; lia.
Qed.

End EvictionTarget.

Section Counter.

(** A write issued in a state whose counter covers the bytes present, and
    that does not take the counter beyond a [size_t]. *)
Variables (ctx : cache_block_ctx) (tree : blocks_tree).
Variables (p : string) (i : Z) (buf : list Byte.byte) (now : Z).
Hypothesis Hcov : counter_covers ctx tree.
Hypothesis Hfit : counter_fits ctx buf.

(** The complete [cache_block_write], in its pieces. *)
Lemma cache_block_write_eq :
  cache_block_write ctx tree p i buf now (complete buf) =
  if (max_cache_size ctx >? 0)
     && (current_cache_size (counted_ctx ctx buf) >? max_cache_size ctx)
  then
    (0,
     snd (fst (evict_lru_blocks (counted_ctx ctx buf)
                 (written_tree ctx tree p i buf now) (eviction_target ctx))),
     snd (evict_lru_blocks (counted_ctx ctx buf)
            (written_tree ctx tree p i buf now) (eviction_target ctx)))
  else (0, counted_ctx ctx buf, written_tree ctx tree p i buf now).
Proof. apply cache_block_write_complete. reflexivity. Qed.

Lemma replaced_size_bounds :
  0 <= replaced_size ctx tree p i <= bytes_present tree.
Proof.
  unfold replaced_size. pose proof (bytes_present_nonneg tree).
  destruct (tree !! get_block_path ctx p i) as [old |] eqn:Hbp; [| lia].
  pose proof (bytes_present_lookup tree _ old Hbp).
  pose proof (f_size_nonneg old). lia.
Qed.

(** The state between the write and the eviction test. *)
Lemma written_state :
  current_cache_size (counted_ctx ctx buf)
  = current_cache_size ctx + Z.of_nat (length buf) /\
  counter_covers (counted_ctx ctx buf) (written_tree ctx tree p i buf now) /\
  overcount (counted_ctx ctx buf) (written_tree ctx tree p i buf now)
  = overcount ctx tree + replaced_size ctx tree p i.
Proof.
  destruct Hcov as [Hc1 Hc2]. pose proof Hfit as Hfit'. unfold counter_fits in Hfit'.
  pose proof replaced_size_bounds as Hold.
  pose proof (bytes_present_insert tree (get_block_path ctx p i)
                (written_file tree (get_block_path ctx p i) buf now)) as Hins.
  fold (written_tree ctx tree p i buf now) in Hins.
  fold (replaced_size ctx tree p i) in Hins.
  change (f_size (written_file _ _ buf now)) with (Z.of_nat (length buf)) in Hins.
  assert (Hcur : current_cache_size (counted_ctx ctx buf)
                 = current_cache_size ctx + Z.of_nat (length buf)).
  { unfold counted_ctx, set_current_cache_size. cbn [current_cache_size].
    apply wrap64_small. pose proof (bytes_present_nonneg tree). lia. }
  unfold counter_covers, overcount. rewrite Hcur, Hins.
  split; [reflexivity | split; lia].
Qed.

(** [cache_block_write] adds the bytes written to the counter without
    subtracting those of the block it replaces: the overcount grows by the
    size of the overwritten file. *)
Lemma cache_block_write_overcount :
  let ctx' := snd (fst (cache_block_write ctx tree p i buf now (complete buf))) in
  let tree' := snd (cache_block_write ctx tree p i buf now (complete buf)) in
  overcount ctx' tree' = overcount ctx tree + replaced_size ctx tree p i /\
  counter_covers ctx' tree' /\
  max_cache_size ctx' = max_cache_size ctx.
Proof.
  destruct written_state as (_ & Hcov1 & Hov1).
  rewrite cache_block_write_eq.
  destruct ((max_cache_size ctx >? 0) && _); cbn [fst snd].
  - destruct (evict_lru_blocks_spec _ _ (eviction_target ctx) Hcov1)
      as (Hov & Hcv & _ & _).
    split; [lia | split; [exact Hcv |]].
    apply (evict_lru_blocks_max (counted_ctx ctx buf)).
  - split; [exact Hov1 | split; [exact Hcov1 | reflexivity]].
Qed.

(** The bound of claim C5 where the counter is right: a write that starts
    within the budget, or that adds a new block to a store whose counter is
    exact, completes with the counter within the budget. *)
Lemma cache_block_write_within_budget :
  0 < max_cache_size ctx ->
  current_cache_size ctx <= max_cache_size ctx \/
  (overcount ctx tree = 0 /\ tree !! get_block_path ctx p i = None) ->
  current_cache_size
    (snd (fst (cache_block_write ctx tree p i buf now (complete buf))))
  <= max_cache_size ctx.
Proof.
  intros Hmax Hstart.
  destruct written_state as (Hcur & Hcov1 & Hov1).
  pose proof replaced_size_bounds as Hold.
  rewrite cache_block_write_eq.
  destruct (max_cache_size ctx >? 0) eqn:Hpos; [| lia].
  destruct (current_cache_size (counted_ctx ctx buf) >? max_cache_size ctx)
    eqn:Hgt; cbn [andb fst snd].
  - destruct (evict_lru_blocks_spec _ _ (eviction_target ctx) Hcov1)
      as (Hov & _ & Hstop & _).
    pose proof (eviction_target_le_max (max_cache_size ctx) ltac:(lia)) as Htgt.
    fold (eviction_target ctx) in Htgt.
    destruct Hstop as [Hstop | Hempty]; [lia |].
    rewrite Hempty in Hov. unfold overcount in Hov, Hov1, Hstart.
    rewrite bytes_present_empty in Hov. destruct Hcov as [Hc1 Hc2].
    destruct Hstart as [Hle | [Hexact Hfresh]].
    + lia.
    + unfold replaced_size in Hov1, Hold. rewrite Hfresh in Hov1. lia.
  - rewrite Z.gtb_ltb in Hgt. apply Z.ltb_ge in Hgt. exact Hgt.
Qed.

(** The eviction pass of claim C5: when a write takes the counter above a
    budget that is set, the pass runs on the tree that holds the new block;
    it ends with the counter at or below nine tenths of the budget, or with
    no block left, and it unlinks in order of access time, oldest first. *)
Lemma cache_block_write_evicts :
  0 < max_cache_size ctx -> max_cache_size ctx * 9 < 2 ^ 64 ->
  max_cache_size ctx < current_cache_size ctx + Z.of_nat (length buf) ->
  let ctx' := snd (fst (cache_block_write ctx tree p i buf now (complete buf))) in
  let tree' := snd (cache_block_write ctx tree p i buf now (complete buf)) in
  (10 * current_cache_size ctx' <= 9 * max_cache_size ctx \/ tree' = ∅) /\
  (forall k f k' f',
     written_tree ctx tree p i buf now !! k = Some f ->
     tree' !! k = None -> tree' !! k' = Some f' ->
     f_atime f <= f_atime f').
Proof.
  intros Hmax Hmax9 Hover.
  destruct written_state as (Hcur & Hcov1 & _).
  rewrite cache_block_write_eq.
  replace (max_cache_size ctx >? 0) with true by lia.
  replace (current_cache_size (counted_ctx ctx buf) >? max_cache_size ctx)
    with true by lia.
  cbn [andb fst snd].
  destruct (evict_lru_blocks_spec _ _ (eviction_target ctx) Hcov1)
    as (_ & _ & Hstop & Horder).
  split; [| exact Horder].
  destruct Hstop as [Hstop | Hstop]; [left | right; exact Hstop].
  unfold eviction_target in Hstop.
  apply (eviction_target_exact (max_cache_size ctx)); [lia | exact Hmax9 |].
  exact Hstop.
Qed.

End Counter.

(** A write that is cut short leaves what was transferred in the file and
    the counter as it was: the code returns before it counts. *)
Lemma cache_block_write_short_counter ctx (tree : blocks_tree) p i buf now io :
  counter_covers ctx tree ->
  io <> OpenFails ->
  write_result io buf <> Z.of_nat (length buf) ->
  let ctx' := snd (fst (cache_block_write ctx tree p i buf now io)) in
  let tree' := snd (cache_block_write ctx tree p i buf now io) in
  ctx' = ctx /\
  bytes_present tree'
  = bytes_present tree - replaced_size ctx tree p i
    + Z.of_nat (length (write_stores io buf)).
Proof.
  intros Hcov Hio Hres.
  rewrite (cache_block_write_short _ _ _ _ _ _ _ Hio Hres). cbn [fst snd].
  split; [reflexivity |]. rewrite bytes_present_insert. reflexivity.
Qed.

(** By how much a write raises the overcount. *)
Lemma cache_block_write_counter ctx (tree : blocks_tree) p i buf now io :
  counter_covers ctx tree ->
  write_fits ctx tree p i buf io ->
  let ctx' := snd (fst (cache_block_write ctx tree p i buf now io)) in
  let tree' := snd (cache_block_write ctx tree p i buf now io) in
  overcount ctx' tree' = overcount ctx tree + write_overcounts ctx tree p i buf io /\
  0 <= write_overcounts ctx tree p i buf io /\
  counter_covers ctx' tree' /\
  max_cache_size ctx' = max_cache_size ctx /\
  (0 < max_cache_size ctx ->
   current_cache_size ctx <= max_cache_size ctx ->
   current_cache_size ctx' <= max_cache_size ctx).
Proof.
  intros Hcov Hfit.
  pose proof (replaced_size_bounds ctx tree p i) as Hold.
  destruct (write_io_cases io buf) as [-> | [[Hio Hres] | (n & -> & Hn)]].
  - cbn. unfold write_overcounts. repeat split; try apply Hcov; lia.
  - destruct (cache_block_write_short_counter ctx tree p i buf now io
                Hcov Hio Hres) as [Hctx Hbytes].
    cbn zeta. rewrite Hctx.
    assert (Hres' : (write_result io buf =? Z.of_nat (length buf)) = false)
      by (apply Z.eqb_neq; exact Hres).
    assert (Hover : write_overcounts ctx tree p i buf io
                    = replaced_size ctx tree p i
                      - Z.of_nat (length (write_stores io buf)))
      by (unfold write_overcounts; rewrite Hres';
          destruct io; [congruence | reflexivity ..]).
    assert (Hle : Z.of_nat (length (write_stores io buf))
                  <= replaced_size ctx tree p i)
      by (unfold write_fits in Hfit; rewrite Hres' in Hfit;
          destruct io; [congruence | exact Hfit ..]).
    unfold overcount, counter_covers in *. rewrite Hbytes, Hover.
    repeat split; lia.
  - assert (Hmin : write_result (Transfers n) buf = Z.of_nat (length buf))
      by (cbn; rewrite Nat.min_r by exact Hn; reflexivity).
    assert (Hcf : counter_fits ctx buf)
      by (unfold write_fits in Hfit; rewrite Hmin, Z.eqb_refl in Hfit;
          exact Hfit).
    assert (Hover : write_overcounts ctx tree p i buf (Transfers n)
                    = replaced_size ctx tree p i)
      by (unfold write_overcounts; rewrite Hmin, Z.eqb_refl; lia).
    assert (Heq : cache_block_write ctx tree p i buf now (Transfers n)
                  = cache_block_write ctx tree p i buf now (complete buf)).
    { rewrite (cache_block_write_complete _ _ _ _ _ _ _ Hn).
      symmetry. apply cache_block_write_complete. reflexivity. }
    rewrite Heq, Hover.
    destruct (cache_block_write_overcount ctx tree p i buf now Hcov Hcf)
      as (Hov & Hcov' & Hmax).
    pose proof (cache_block_write_within_budget ctx tree p i buf now Hcov Hcf)
      as Hbudget.
    cbn zeta in *.
    split; [exact Hov | split; [lia | split; [exact Hcov' | split; [exact Hmax |]]]].
    intros Hpos Hle. apply Hbudget; [exact Hpos | left; exact Hle].
Qed.

(** ** Invalidation *)

Section Invalidation.

(** One iteration of the loop unlinks the block file if it is there, and
    takes its size off the counter. *)
Lemma invalidate_block_spec p ctx (tree : blocks_tree) i :
  let r := invalidate_block p (ctx, tree) i in
  blocks_dir (fst r) = blocks_dir ctx /\
  block_size (fst r) = block_size ctx /\
  max_cache_size (fst r) = max_cache_size ctx /\
  snd r = delete (get_block_path ctx p i) tree /\
  (counter_covers ctx tree ->
   overcount (fst r) (snd r) = overcount ctx tree /\
   counter_covers (fst r) (snd r)).
Proof.
  cbn. destruct (tree !! get_block_path ctx p i) as [f |] eqn:Hf; cbn.
  - split; [reflexivity | split; [reflexivity | split; [reflexivity |
      split; [reflexivity |]]]].
    intros [Hc1 Hc2]. unfold overcount, counter_covers. cbn.
    pose proof (bytes_present_lookup tree _ f Hf).
    pose proof (f_size_nonneg f).
    rewrite (bytes_present_delete tree _ f Hf), wrap64_small by lia. lia.
  - split; [reflexivity | split; [reflexivity | split; [reflexivity | split]]].
    + symmetry. apply delete_id. exact Hf.
    + intros Hcov. split; [reflexivity | exact Hcov].
Qed.

Lemma invalidate_blocks_gone p n i (st : cache_block_ctx * blocks_tree) j :
  i <= j < i + Z.of_nat n ->
  snd (invalidate_blocks p n i st) !! get_block_path (fst st) p j = None.
Proof.
  revert i st. induction n as [| n IH]; intros i [ctx tree] Hj; [lia |].
  cbn [invalidate_blocks].
  destruct (invalidate_block_spec p ctx tree i) as (Hdir & _ & _ & Htree & _).
  destruct (invalidate_block p (ctx, tree) i) as [ctx1 tree1]. cbn in *.
  destruct (Z.eq_dec j i) as [-> | Hne].
  - eapply lookup_weaken_None;
      [| apply (invalidate_blocks_subseteq p n (i + 1) (ctx1, tree1))].
    cbn. rewrite Htree. apply lookup_delete_eq.
  - rewrite <- (get_block_path_ext ctx1 ctx p j Hdir).
    apply (IH (i + 1) (ctx1, tree1)). lia.
Qed.

Lemma invalidate_blocks_other p n i (st : cache_block_ctx * blocks_tree) k :
  (forall j, i <= j < i + Z.of_nat n -> get_block_path (fst st) p j <> k) ->
  snd (invalidate_blocks p n i st) !! k = snd st !! k.
Proof.
  revert i st. induction n as [| n IH]; intros i [ctx tree] Hk; [reflexivity |].
  cbn [invalidate_blocks].
  destruct (invalidate_block_spec p ctx tree i) as (Hdir & _ & _ & Htree & _).
  destruct (invalidate_block p (ctx, tree) i) as [ctx1 tree1]. cbn in *.
  rewrite (IH (i + 1) (ctx1, tree1)).
  - cbn. rewrite Htree. apply lookup_delete_ne. apply Hk. lia.
  - intros j Hj. cbn. rewrite (get_block_path_ext ctx1 ctx p j Hdir).
    apply Hk. lia.
Qed.

Lemma invalidate_blocks_counter p n i ctx (tree : blocks_tree) :
  counter_covers ctx tree ->
  let r := invalidate_blocks p n i (ctx, tree) in
  overcount (fst r) (snd r) = overcount ctx tree /\
  counter_covers (fst r) (snd r) /\
  max_cache_size (fst r) = max_cache_size ctx /\
  current_cache_size (fst r) <= current_cache_size ctx.
Proof.
  revert i ctx tree. induction n as [| n IH]; intros i ctx tree Hcov.
  - cbn. repeat split; try apply Hcov; lia.
  - cbn [invalidate_blocks].
    destruct (invalidate_block_spec p ctx tree i) as (_ & _ & Hmax & Htree & Hcnt).
    destruct (Hcnt Hcov) as [Hov Hcov1].
    destruct (invalidate_block p (ctx, tree) i) as [ctx1 tree1]. cbn in *.
    destruct (IH (i + 1) ctx1 tree1 Hcov1) as (Hov' & Hcov' & Hmax' & Hle).
    pose proof (bytes_present_delete_le tree (get_block_path ctx p i)) as Hdel.
    rewrite <- Htree in Hdel. unfold overcount in *.
    split; [lia | split; [exact Hcov' | split; [congruence | lia]]].
Qed.

(** [cache_block_invalidate_range] returns, unlinks the block files of
    the path with an index from [offset / block_size] to
    [(offset + size) / block_size], both included, and no other file. *)
Lemma cache_block_invalidate_range_spec ctx (tree : blocks_tree) p offset size :
  0 < block_size ctx -> 0 <= offset -> 0 <= size -> offset + size < 2 ^ 64 - 1 ->
  exists ctx' tree',
    cache_block_invalidate_range ctx tree p offset size = Some (0, ctx', tree') /\
    blocks_dir ctx' = blocks_dir ctx /\
    (forall b,
       offset / block_size ctx <= b <= (offset + size) / block_size ctx ->
       tree' !! get_block_path ctx p b = None) /\
    (forall k,
       (forall b,
          offset / block_size ctx <= b <= (offset + size) / block_size ctx ->
          get_block_path ctx p b <> k) ->
       tree' !! k = tree !! k).
Proof.
  intros Hbs Ho Hn Hfit. unfold cache_block_invalidate_range.
  rewrite (wrap64_small offset), (wrap64_small (offset + size)) by lia.
  set (start_block := offset / block_size ctx).
  set (end_block := (offset + size) / block_size ctx).
  assert (Hse : start_block <= end_block).
  { apply Z.div_le_mono; lia. }
  assert (Hend : end_block <= offset + size).
  { subst end_block. apply Z.div_le_upper_bound; [lia |]. nia. }
  replace (end_block =? SIZE_MAX) with false
    by (symmetry; apply Z.eqb_neq; unfold SIZE_MAX; lia).
  pose proof (invalidate_blocks_gone p (Z.to_nat (end_block - start_block + 1))
                start_block (ctx, tree)) as Hgone.
  pose proof (invalidate_blocks_other p (Z.to_nat (end_block - start_block + 1))
                start_block (ctx, tree)) as Hother.
  destruct (invalidate_blocks_subseteq p (Z.to_nat (end_block - start_block + 1))
              start_block (ctx, tree)) as [_ Hdir].
  destruct (invalidate_blocks p _ start_block (ctx, tree)) as [ctx' tree'].
  cbn in *. exists ctx', tree'.
  split; [reflexivity | split; [exact Hdir | split]].
  - intros b Hb. apply Hgone. lia.
  - intros k Hk. apply Hother. intros j Hj. apply Hk. lia.
Qed.

(** The part of claim C4 that holds: every block of the path whose bytes
    intersect the written range is absent afterwards, and the blocks of the
    path before the first or after the last index of the loop are kept. *)
Lemma cache_block_invalidate_range_intersecting ctx (tree : blocks_tree)
    p offset size :
  0 < block_size ctx -> 0 <= offset -> 0 <= size -> offset + size < 2 ^ 64 - 1 ->
  exists ctx' tree',
    cache_block_invalidate_range ctx tree p offset size = Some (0, ctx', tree') /\
    (forall b,
       block_intersects (block_size ctx) b offset size = true ->
       cache_block_exists ctx' tree' p b = false) /\
    (forall b,
       b < offset / block_size ctx \/ (offset + size) / block_size ctx < b ->
       tree' !! get_block_path ctx' p b = tree !! get_block_path ctx p b).
Proof.
  intros Hbs Ho Hn Hfit.
  destruct (cache_block_invalidate_range_spec ctx tree p offset size
              Hbs Ho Hn Hfit) as (ctx' & tree' & Heq & Hdir & Hgone & Hother).
  exists ctx', tree'. split; [exact Heq | split].
  - intros b Hb. unfold block_intersects in Hb.
    apply andb_true_iff in Hb. destruct Hb as [Hlo Hhi].
    apply Z.ltb_lt in Hlo, Hhi.
    unfold cache_block_exists.
    rewrite (get_block_path_ext ctx' ctx p b Hdir), Hgone.
    + apply bool_decide_eq_false_2. intros [f Hf]. discriminate Hf.
    + split.
      * assert (offset / block_size ctx < b + 1); [| lia].
        apply Z.div_lt_upper_bound; lia.
      * apply Z.div_le_lower_bound; lia.
  - intros b Hb. rewrite (get_block_path_ext ctx' ctx p b Hdir).
    apply Hother. intros j Hj Heqp.
    apply get_block_path_inj in Heqp; [| reflexivity]. lia.
Qed.

(** The unlink loop of [cache_block_invalidate_file] and the counter. *)
Lemma unlink_all_counter (victims : list (string * block_file)) cur
    (tree : blocks_tree) :
  NoDup (map fst victims) ->
  (forall e, In e victims -> tree !! fst e = Some (snd e)) ->
  bytes_present tree <= cur < 2 ^ 64 ->
  let r := fold_left
             (fun acc e => (wrap64 (fst acc - f_size (snd e)),
                            delete (fst e) (snd acc)))
             victims (cur, tree) in
  fst r - bytes_present (snd r) = cur - bytes_present tree /\
  bytes_present (snd r) <= fst r < 2 ^ 64 /\
  fst r <= cur.
Proof.
  revert cur tree. induction victims as [| [k f] victims IH];
    intros cur tree Hnd Hin Hcov; cbn.
  - lia.
  - cbn in Hnd. apply NoDup_cons in Hnd. destruct Hnd as [Hk Hnd].
    assert (Hf : tree !! k = Some f) by (apply (Hin (k, f)); left; reflexivity).
    pose proof (bytes_present_lookup tree k f Hf) as Hle.
    pose proof (f_size_nonneg f) as Hnn.
    pose proof (bytes_present_delete tree k f Hf) as Hdel.
    rewrite wrap64_small by lia.
    destruct (IH (cur - f_size f) (delete k tree)) as (H1 & H2 & H3).
    + exact Hnd.
    + intros e He. rewrite lookup_delete_ne; [apply Hin; right; exact He |].
      intros ->. apply Hk. apply list_elem_of_In, in_map. exact He.
    + lia.
    + cbn in *. lia.
Qed.

Lemma nodup_fst_filter {A B} (q : A * B -> bool) (l : list (A * B)) :
  NoDup (map fst l) -> NoDup (map fst (List.filter q l)).
Proof.
  induction l as [| e l IH]; intros Hnd; cbn; [constructor |].
  cbn in Hnd. apply NoDup_cons in Hnd. destruct Hnd as [He Hnd].
  destruct (q e); cbn; [| apply IH; exact Hnd].
  apply NoDup_cons. split; [| apply IH; exact Hnd].
  intros Hin. apply He. apply list_elem_of_In in Hin. apply list_elem_of_In.
  apply in_map_iff in Hin. destruct Hin as (x & Hx & Hin).
  apply filter_In in Hin. apply in_map_iff. exists x. tauto.
Qed.

Lemma cache_block_invalidate_file_counter ctx (tree : blocks_tree) p :
  counter_covers ctx tree ->
  let ctx' := snd (fst (cache_block_invalidate_file ctx tree p)) in
  let tree' := snd (cache_block_invalidate_file ctx tree p) in
  overcount ctx' tree' = overcount ctx tree /\
  counter_covers ctx' tree' /\
  max_cache_size ctx' = max_cache_size ctx /\
  current_cache_size ctx' <= current_cache_size ctx.
Proof.
  intros Hcov. unfold cache_block_invalidate_file.
  match goal with
  | |- context [fold_left ?f ?l (?c, ?t)] =>
      pose proof (unlink_all_counter l c t) as Hcnt;
      destruct (fold_left f l (c, t)) as [cur tree']
  end.
  cbn in *. unfold overcount, counter_covers. cbn.
  destruct Hcnt as (H1 & H2 & H3).
  - apply nodup_fst_filter.
    change (map fst (map_to_list tree)) with ((map_to_list tree).*1).
    apply NoDup_fst_map_to_list.
  - intros [k f] He. apply filter_In in He. destruct He as [He _].
    cbn. apply elem_of_map_to_list, list_elem_of_In. exact He.
  - exact Hcov.
  - tauto.
Qed.

End Invalidation.

(** Claim C4, at a write that ends on a block boundary: with blocks of 4
    bytes, [cache_block_invalidate_range] for the bytes [[0, 4)] also unlinks
    block 1, whose bytes [[4, 8)] do not intersect the range. *)
Theorem invalidate_range_aligned_end :
  let ctx := fst two_blocks_state in
  let tree := snd two_blocks_state in
  block_size ctx = 4 /\
  cache_block_exists ctx tree "/b/f" 1 = true /\
  block_intersects 4 1 0 4 = false /\
  match cache_block_invalidate_range ctx tree "/b/f" 0 4 with
  | Some (rc, ctx', tree') =>
      rc = 0 /\
      cache_block_exists ctx' tree' "/b/f" 0 = false /\
      cache_block_exists ctx' tree' "/b/f" 1 = false
  | None => False
  end.
Proof. vm_compute. repeat split; reflexivity. Qed.

(** ** The counter along a history *)

Section CounterHistory.

Lemma cache_block_read_bytes_present ctx (tree : blocks_tree) p i size offset
    touch :
  bytes_present (snd (cache_block_read ctx tree p i size offset touch))
  = bytes_present tree.
Proof.
  unfold cache_block_read.
  destruct (tree !! get_block_path ctx p i) as [f |] eqn:Hf; [| reflexivity].
  destruct (pread _ _ _); [| reflexivity].
  destruct touch as [t |]; [| reflexivity]. cbn [snd].
  rewrite bytes_present_insert, Hf. unfold f_size. cbn. lia.
Qed.

Lemma cache_block_invalidate_range_counter ctx (tree : blocks_tree) p offset size
    rc ctx' tree' :
  counter_covers ctx tree ->
  cache_block_invalidate_range ctx tree p offset size = Some (rc, ctx', tree') ->
  overcount ctx' tree' = overcount ctx tree /\
  counter_covers ctx' tree' /\
  max_cache_size ctx' = max_cache_size ctx /\
  current_cache_size ctx' <= current_cache_size ctx.
Proof.
  intros Hcov. unfold cache_block_invalidate_range.
  destruct (_ =? SIZE_MAX); [discriminate |].
  match goal with
  | |- context [invalidate_blocks ?q ?n ?i (ctx, tree)] =>
      pose proof (invalidate_blocks_counter q n i ctx tree Hcov) as Hcnt;
      destruct (invalidate_blocks q n i (ctx, tree)) as [ctx1 tree1]
  end.
  intros [= _ <- <-]. exact Hcnt.
Qed.

(** One operation: the counter keeps covering the bytes present, the
    overcount changes at a write only, and a counter within the budget
    stays within it. *)
Lemma step_counter st op st' :
  counter_covers (fst st) (snd st) ->
  match op with
  | OpWrite p i buf _ io => write_fits (fst st) (snd st) p i buf io
  | _ => True
  end ->
  step st op = Some st' ->
  counter_covers (fst st') (snd st') /\
  max_cache_size (fst st') = max_cache_size (fst st) /\
  overcount (fst st') (snd st')
  = overcount (fst st) (snd st)
    + match op with
      | OpWrite p i buf _ io => write_overcounts (fst st) (snd st) p i buf io
      | _ => 0
      end /\
  0 <= match op with
       | OpWrite p i buf _ io => write_overcounts (fst st) (snd st) p i buf io
       | _ => 0
       end /\
  (0 < max_cache_size (fst st) ->
   current_cache_size (fst st) <= max_cache_size (fst st) ->
   current_cache_size (fst st') <= max_cache_size (fst st)).
Proof.
  destruct st as [ctx tree]. cbn [fst snd]. intros Hcov Hfit Hstep.
  destruct op as [p i buf now io | p i size offset touch | p offset size | p];
    cbn in Hstep.
  - pose proof (cache_block_write_counter ctx tree p i buf now io Hcov Hfit)
      as (Hov & Hnn & Hcov' & Hmax & Hbudget).
    destruct (cache_block_write ctx tree p i buf now io) as [[rc ctx'] tree'].
    injection Hstep as <-. cbn [fst snd] in *.
    split; [exact Hcov' | split; [exact Hmax | split; [exact Hov |
      split; [exact Hnn | exact Hbudget]]]].
  - injection Hstep as <-. cbn [fst snd].
    unfold counter_covers, overcount.
    rewrite cache_block_read_bytes_present.
    split; [exact Hcov | split; [reflexivity | split; [lia | split; [lia | tauto]]]].
  - destruct (cache_block_invalidate_range ctx tree p offset size)
      as [[[rc ctx'] tree'] |] eqn:Hinv; [| discriminate].
    injection Hstep as <-. cbn [fst snd].
    destruct (cache_block_invalidate_range_counter ctx tree p offset size
                rc ctx' tree' Hcov Hinv) as (Hov & Hcov' & Hmax & Hle).
    split; [exact Hcov' | split; [exact Hmax | split; [lia | split; lia]]].
  - pose proof (cache_block_invalidate_file_counter ctx tree p Hcov)
      as (Hov & Hcov' & Hmax & Hle).
    destruct (cache_block_invalidate_file ctx tree p) as [[rc ctx'] tree'].
    injection Hstep as <-. cbn [fst snd] in *.
    split; [exact Hcov' | split; [exact Hmax | split; [lia | split; lia]]].
Qed.

(** Along every history whose writes fit, the counter never under-counts
    the bytes present. *)
Lemma run_counter_covers ops st st' :
  counter_covers (fst st) (snd st) ->
  each_write write_fits ops st ->
  run ops st = Some st' ->
  counter_covers (fst st') (snd st') /\
  overcount (fst st) (snd st) <= overcount (fst st') (snd st').
Proof.
  revert st. induction ops as [| op ops IH]; intros st Hcov Hall Hrun; cbn in *.
  - injection Hrun as <-. split; [exact Hcov | lia].
  - destruct Hall as [Hop Hrest].
    destruct (step st op) as [st1 |] eqn:Hstep; [| discriminate].
    assert (Hfit : match op with
                   | OpWrite p i buf _ io => write_fits (fst st) (snd st) p i buf io
                   | _ => True
                   end) by (destruct op; tauto).
    destruct (step_counter st op st1 Hcov Hfit Hstep) as (Hcov1 & _ & Hov & Hnn & _).
    destruct (IH st1 Hcov1 Hrest Hrun) as [Hcov' Hle].
    split; [exact Hcov' | lia].
Qed.

(** The part of claim C6 that holds: along every history in which no write
    hits a block that is already cached and none leaves bytes it did not
    count, the counter that the stats operation returns equals the bytes
    present. *)
Lemma run_counter_exact ops st st' :
  counter_covers (fst st) (snd st) ->
  overcount (fst st) (snd st) = 0 ->
  each_write write_is_new ops st ->
  run ops st = Some st' ->
  fst (cache_block_get_stats (fst st')) = bytes_present (snd st').
Proof.
  revert st. induction ops as [| op ops IH]; intros st Hcov Hex Hall Hrun; cbn in *.
  - injection Hrun as <-. unfold overcount in Hex. lia.
  - destruct Hall as [Hop Hrest].
    destruct (step st op) as [st1 |] eqn:Hstep; [| discriminate].
    assert (Hfit : match op with
                   | OpWrite p i buf _ io => write_fits (fst st) (snd st) p i buf io
                   | _ => True
                   end) by (destruct op; try tauto; apply Hop).
    destruct (step_counter st op st1 Hcov Hfit Hstep) as (Hcov1 & _ & Hov & Hnn & _).
    apply (IH st1 Hcov1); [| exact Hrest | exact Hrun].
    rewrite Hov, Hex. destruct op as [p i buf now io | | |]; try reflexivity.
    destruct Hop as [Hf Hnew].
    unfold write_overcounts, write_fits, replaced_size in Hnn, Hf |- *.
    rewrite Hnew in Hnn, Hf |- *.
    destruct io; [reflexivity | |];
      destruct (write_result _ buf =? Z.of_nat (length buf)); lia.
Qed.

(** The part of claim C5 that holds along a history: from a state whose
    counter is within the budget, for instance an empty cache, every
    operation completes with the counter within the budget. *)
Lemma run_within_budget ops st st' :
  counter_covers (fst st) (snd st) ->
  0 < max_cache_size (fst st) ->
  current_cache_size (fst st) <= max_cache_size (fst st) ->
  each_write write_fits ops st ->
  run ops st = Some st' ->
  current_cache_size (fst st') <= max_cache_size (fst st').
Proof.
  revert st. induction ops as [| op ops IH]; intros st Hcov Hpos Hle Hall Hrun;
    cbn in *.
  - injection Hrun as <-. exact Hle.
  - destruct Hall as [Hop Hrest].
    destruct (step st op) as [st1 |] eqn:Hstep; [| discriminate].
    assert (Hfit : match op with
                   | OpWrite p i buf _ io => write_fits (fst st) (snd st) p i buf io
                   | _ => True
                   end) by (destruct op; tauto).
    destruct (step_counter st op st1 Hcov Hfit Hstep)
      as (Hcov1 & Hmax & _ & _ & Hb).
    apply (IH st1 Hcov1); [| | exact Hrest | exact Hrun].
    + rewrite Hmax. exact Hpos.
    + rewrite Hmax. apply Hb; assumption.
Qed.

End CounterHistory.

(** The scenario on the embedding: the third write takes the counter to
    12288 bytes, and the eviction pass unlinks block 0 and then block 1
    before the counter (4096) is within nine tenths of the budget (7372). *)
Example eviction_under_budget :
  match run s5_ops (s5_ctx, ∅) with
  | Some (ctx, tree) =>
      cache_block_get_stats ctx = (4096, 8192) /\
      bytes_present tree = 4096 /\
      cache_block_exists ctx tree "/b/large" 0 = false /\
      cache_block_exists ctx tree "/b/large" 1 = false /\
      cache_block_exists ctx tree "/b/large" 2 = true
  | None => False
  end.
Proof. vm_compute. repeat split; reflexivity. Qed.

(** Claim C6, at an overwrite: writing the same block twice counts its
    bytes twice, while the store holds them once. *)
Theorem overwrite_counts_twice :
  let st1 := cache_block_write unbounded_ctx ∅ "/b/f" 0 bytes_AAAA 1700000001
               (complete bytes_AAAA) in
  let st2 := cache_block_write (snd (fst st1)) (snd st1) "/b/f" 0 bytes_AAAA
               1700000002 (complete bytes_AAAA) in
  fst (fst st2) = 0 /\
  fst (cache_block_get_stats (snd (fst st2))) = 8 /\
  bytes_present (snd st2) = 4.
Proof. vm_compute. repeat split; reflexivity. Qed.

(** Claim C5, at an overwrite in a cache that starts above its budget: the
    block store is opened with a budget of 10 bytes on a cache root that
    holds one block of 20 bytes; rewriting that block with 4 bytes counts
    24 bytes, the eviction pass unlinks the only file (4 bytes), and the
    write completes with a counter of 20 bytes, above the budget, on an
    empty store. *)
Theorem write_completes_over_budget :
  max_cache_size budget_ctx = 10 /\
  current_cache_size budget_ctx = 20 /\
  bytes_present old_tree = 20 /\
  let st := cache_block_write budget_ctx old_tree "/b/f" 0 bytes_AAAA 1700000001
              (complete bytes_AAAA) in
  fst (fst st) = 0 /\
  fst (cache_block_get_stats (snd (fst st))) = 20 /\
  snd st = ∅.
Proof. vm_compute. repeat split; reflexivity. Qed.

(** * Further properties of the code *)

(** ** The block store: names, reads and writes *)

Section BlockNameFacts.

Lemma str_prefix_app_length (a a' b c : string) :
  String.length a = String.length a' ->
  String.prefix (a +:+ b) (a' +:+ c) = true ->
  a = a' /\ String.prefix b c = true.
Proof.
  revert a'. induction a as [| x a IH]; intros [| x' a'] Hlen Hpre;
    try discriminate Hlen.
  - split; [reflexivity | exact Hpre].
  - rewrite !str_app_cons in Hpre. cbn [String.prefix] in Hpre.
    destruct (ascii_dec x x') as [-> | Hne]; [| discriminate Hpre].
    injection Hlen as Hlen. destruct (IH a' Hlen Hpre) as [-> Hbc].
    split; [reflexivity | exact Hbc].
Qed.

(** Only the block files of a path of the same hash carry the prefix that
    [cache_block_invalidate_file] compares. *)
Lemma matches_prefix_hash ctx p q j :
  matches_prefix ctx p (get_block_path ctx q j) = true ->
  hash_path p = hash_path q.
Proof.
  unfold matches_prefix, get_block_path, hash_dir, block_prefix.
  rewrite !str_app_assoc. intros H.
  apply str_prefix_app_length in H; [| reflexivity]. destruct H as [_ H].
  apply str_prefix_app_length in H; [| reflexivity]. destruct H as [_ H].
  apply str_prefix_app_length in H; [| rewrite !hex_fixed_length; reflexivity].
  destruct H as [_ H].
  apply str_prefix_app_length in H; [| reflexivity]. destruct H as [_ H].
  apply str_prefix_app_length in H; [| rewrite !hex_fixed_length; reflexivity].
  destruct H as [_ H].
  apply str_prefix_app_length in H; [| reflexivity]. destruct H as [_ H].
  apply str_prefix_app_length in H; [| rewrite !hex_fixed_length; reflexivity].
  destruct H as [H _].
  apply (hex_fixed_inj 16); [apply hash_path_range .. | exact H].
Qed.

Lemma matches_prefix_block_path ctx p q j :
  matches_prefix ctx p (get_block_path ctx q j) = (hash_path q =? hash_path p).
Proof.
  destruct (Z.eqb_spec (hash_path q) (hash_path p)) as [Heq | Hne].
  - rewrite (get_block_path_same_hash ctx ctx q j p eq_refl Heq).
    apply block_path_matches_prefix.
  - destruct (matches_prefix ctx p (get_block_path ctx q j)) eqn:Hm;
      [| reflexivity].
    apply matches_prefix_hash in Hm. congruence.
Qed.

Lemma cache_block_exists_lookup ctx (tree : blocks_tree) p i :
  cache_block_exists ctx tree p i
  = match tree !! get_block_path ctx p i with
    | Some _ => true
    | None => false
    end.
Proof.
  unfold cache_block_exists.
  destruct (tree !! get_block_path ctx p i) as [f |].
  - apply bool_decide_eq_true_2. eauto.
  - apply bool_decide_eq_false_2. intros [f Hf]. discriminate Hf.
Qed.

End BlockNameFacts.

(** Property X1: two block files of a block store have the same name
    exactly when the two paths have the same DJB2 hash and the two block
    indices are equal; the name says nothing else about the path. *)
Theorem block_path_eq_iff ctx p i p' i' :
  get_block_path ctx p i = get_block_path ctx p' i' <->
  hash_path p = hash_path p' /\ i = i'.
Proof.
  split.
  - apply get_block_path_inj. reflexivity.
  - intros [Hhash ->]. apply get_block_path_same_hash; [reflexivity | exact Hhash].
Qed.

Section WriteAndRead.

(** A complete write that does not trigger the eviction pass. *)
Lemma cache_block_write_no_eviction ctx (tree : blocks_tree) p i buf now :
  max_cache_size ctx = 0 \/
  wrap64 (current_cache_size ctx + Z.of_nat (length buf)) <= max_cache_size ctx ->
  cache_block_write ctx tree p i buf now (complete buf)
  = (0, counted_ctx ctx buf, written_tree ctx tree p i buf now).
Proof.
  intros H. unfold complete. rewrite cache_block_write_complete by reflexivity.
  unfold counted_ctx. cbn [max_cache_size current_cache_size set_current_cache_size].
  destruct H as [H | H].
  - rewrite H. reflexivity.
  - replace (wrap64 (current_cache_size ctx + Z.of_nat (length buf))
             >? max_cache_size ctx) with false.
    + rewrite andb_false_r. reflexivity.
    + symmetry. rewrite Z.gtb_ltb. apply Z.ltb_ge. exact H.
Qed.


(** [pread] fails exactly outside the range of [off_t]. *)
Lemma pread_eq data size offset :
  pread data size offset
  = if wrap64 offset + wrap64 size <=? 2 ^ 63 - 1
    then Some (take (Z.to_nat (wrap64 size)) (drop (Z.to_nat (wrap64 offset)) data))
    else None.
Proof.
  destruct (pread data size offset) as [bytes |] eqn:Hp.
  - apply pread_Some in Hp. destruct Hp as [Hr ->].
    apply Z.leb_le in Hr. rewrite Hr. reflexivity.
  - destruct (wrap64 offset + wrap64 size <=? 2 ^ 63 - 1) eqn:Hr; [| reflexivity].
    apply Z.leb_le in Hr. exfalso. revert Hp. unfold pread, to_int64.
    pose proof (wrap64_range offset) as Ho. pose proof (wrap64_range size) as Hs.
    replace (wrap64 offset <? 2 ^ 63) with true by (symmetry; apply Z.ltb_lt; lia).
    replace (wrap64 offset <? 0) with false by (symmetry; apply Z.ltb_ge; lia).
    replace (2 ^ 63 - 1 <? wrap64 offset + wrap64 size) with false
      by (symmetry; apply Z.ltb_ge; lia).
    discriminate.
Qed.

(** The return value 0 of [cache_block_write] says that the whole buffer
    went into the file. *)
Lemma cache_block_write_rc_0 ctx (tree : blocks_tree) p i buf now io :
  fst (fst (cache_block_write ctx tree p i buf now io)) = 0 ->
  io <> OpenFails /\ write_stores io buf = buf.
Proof.
  rewrite cache_block_write_rc.
  destruct io as [| | n]; [discriminate | |].
  { cbn [write_result].
    destruct (Z.eqb_spec (-1) (Z.of_nat (length buf))); [lia | discriminate]. }
  cbn [write_result write_stores].
  destruct (Z.of_nat (Nat.min n (length buf)) =? Z.of_nat (length buf)) eqn:Hm;
    [| discriminate].
  intros _. apply Z.eqb_eq in Hm. split; [discriminate |].
  apply take_ge. lia.
Qed.

End WriteAndRead.

(** Property X2: a block written completely ([open] succeeds and [write]
    transfers the whole buffer) without triggering the eviction pass (no
    byte budget, or the counter stays within the budget) can be read back:
    [cache_block_write] returns 0, the block exists, and for a size and an
    offset whose sum is within the range of [off_t], [cache_block_read]
    returns the requested slice of the buffer, hence the whole buffer when
    asked for its length from offset 0. *)
Theorem write_then_read ctx (tree : blocks_tree) p i buf now size offset touch :
  max_cache_size ctx = 0 \/
  wrap64 (current_cache_size ctx + Z.of_nat (length buf)) <= max_cache_size ctx ->
  0 <= size -> 0 <= offset -> offset + size <= 2 ^ 63 - 1 ->
  Z.of_nat (length buf) <= 2 ^ 63 - 1 ->
  let r := cache_block_write ctx tree p i buf now (complete buf) in
  fst (fst r) = 0 /\
  cache_block_exists (snd (fst r)) (snd r) p i = true /\
  fst (cache_block_read (snd (fst r)) (snd r) p i size offset touch)
  = Some (take (Z.to_nat size) (drop (Z.to_nat offset) buf)) /\
  fst (cache_block_read (snd (fst r)) (snd r) p i (Z.of_nat (length buf)) 0 touch)
  = Some buf.
Proof.
  intros H Hsize Hoffset Hrange Hlen r. subst r.
  rewrite (cache_block_write_no_eviction _ _ _ _ _ _ H).
  cbn [fst snd]. split; [reflexivity |].
  assert (Hl : written_tree ctx tree p i buf now
               !! get_block_path (counted_ctx ctx buf) p i
               = Some (written_file tree (get_block_path ctx p i) buf now)).
  { unfold written_tree, counted_ctx. rewrite get_block_path_dir.
    apply lookup_insert_eq. }
  split; [| split].
  - rewrite cache_block_exists_lookup, Hl. reflexivity.
  - rewrite cache_block_read_bytes, Hl. cbn [mbind option_bind written_file f_data].
    apply pread_in_range; assumption.
  - rewrite cache_block_read_bytes, Hl. cbn [mbind option_bind written_file f_data].
    rewrite pread_in_range by lia.
    rewrite Nat2Z.id, drop_0, take_ge by lia. reflexivity.
Qed.

Lemma write_then_read_witness :
  wrap64 (current_cache_size s5_ctx + Z.of_nat (length bytes_AAAA))
  <= max_cache_size s5_ctx /\
  fst (cache_block_read
         (snd (fst (cache_block_write s5_ctx ∅ "/b/f" 3 bytes_AAAA 1700000001
                      (complete bytes_AAAA))))
         (snd (cache_block_write s5_ctx ∅ "/b/f" 3 bytes_AAAA 1700000001
                 (complete bytes_AAAA)))
         "/b/f" 3 2 1 (Some 1700000002))
  = Some (take (Z.to_nat 2) (drop (Z.to_nat 1) bytes_AAAA)).
Proof.
  assert (H : wrap64 (current_cache_size s5_ctx + Z.of_nat (length bytes_AAAA))
              <= max_cache_size s5_ctx) by (vm_compute; discriminate).
  split; [exact H |].
  exact (proj1 (proj2 (proj2
           (write_then_read s5_ctx ∅ "/b/f" 3 bytes_AAAA 1700000001 2 1
              (Some 1700000002) (or_intror H)
              ltac:(lia) ltac:(lia) ltac:(lia) ltac:(vm_compute; discriminate))))).
Defined.

(** Property X3: whatever the file system does on it, [cache_block_write]
    creates or changes no file but the one of its block.  A file found in
    the tree afterwards under another name was there before with the same
    bytes and access time; the file of the block was there before, as it
    is, when [open] failed, and otherwise holds what [write] transferred:
    the whole buffer when [cache_block_write] returned 0. *)
Theorem write_creates_no_other_file ctx (tree : blocks_tree) p i buf now io k f :
  snd (cache_block_write ctx tree p i buf now io) !! k = Some f ->
  if decide (k = get_block_path ctx p i)
  then
    match io with
    | OpenFails => tree !! k = Some f
    | _ => f_data f = write_stores io buf
    end /\
    (fst (fst (cache_block_write ctx tree p i buf now io)) = 0 -> f_data f = buf)
  else tree !! k = Some f.
Proof.
  intros Hk.
  pose proof (cache_block_write_rc_0 ctx tree p i buf now io) as Hrc.
  destruct (cache_block_write_tree ctx tree p i buf now io) as [_ Htree].
  assert (Hcases :
            match io with
            | OpenFails => tree !! k = Some f
            | _ => if decide (k = get_block_path ctx p i)
                   then f_data f = write_stores io buf
                   else tree !! k = Some f
            end).
  { destruct io as [| | n]; [rewrite Htree in Hk; exact Hk | |];
      pose proof (lookup_weaken _ _ _ _ Hk Htree) as Hin;
      (destruct (decide (k = get_block_path ctx p i)) as [-> | Hne];
       [rewrite lookup_insert_eq in Hin; injection Hin as <-; reflexivity
       | rewrite lookup_insert_ne in Hin by congruence; exact Hin]). }
  destruct (decide (k = get_block_path ctx p i)) as [-> | Hne].
  - split.
    + destruct io; exact Hcases.
    + intros H0. destruct (Hrc H0) as [Hio Hst].
      destruct io; [congruence | |]; rewrite <- Hst; exact Hcases.
  - destruct io; exact Hcases.
Qed.

Lemma write_creates_no_other_file_witness :
  let tree := snd two_blocks_state in
  let k := get_block_path unbounded_ctx "/b/f" 1 in
  let f := {| f_data := bytes_AAAA; f_atime := 1700000002 |} in
  snd (cache_block_write (fst two_blocks_state) tree "/b/f" 0 bytes_BB 1700000003
         (Transfers 1))
    !! k = Some f /\
  tree !! k = Some f.
Proof.
  assert (H : snd (cache_block_write (fst two_blocks_state) (snd two_blocks_state)
                     "/b/f" 0 bytes_BB 1700000003 (Transfers 1))
                !! get_block_path unbounded_ctx "/b/f" 1
              = Some {| f_data := bytes_AAAA; f_atime := 1700000002 |})
    by (vm_compute; reflexivity).
  split; [exact H |].
  exact (write_creates_no_other_file _ _ _ _ _ _ _ _ _ H).
Defined.

(** Property X4: [cache_block_read] fails (returns -1) exactly when the
    block file is absent or the offset plus the size, as [pread] takes them,
    is beyond the largest [off_t]; otherwise it returns the bytes of the
    file from the offset on, at most [size] of them: their number is the
    smaller of the size and the file length minus the offset, which is 0 at
    or past the end of the file. *)
Theorem read_returns_slice ctx (tree : blocks_tree) p i size offset touch :
  match fst (cache_block_read ctx tree p i size offset touch) with
  | None =>
      cache_block_exists ctx tree p i = false \/
      2 ^ 63 - 1 < wrap64 offset + wrap64 size
  | Some bytes =>
      wrap64 offset + wrap64 size <= 2 ^ 63 - 1 /\
      exists f,
        tree !! get_block_path ctx p i = Some f /\
        bytes = take (Z.to_nat (wrap64 size))
                  (drop (Z.to_nat (wrap64 offset)) (f_data f)) /\
        length bytes
        = Nat.min (Z.to_nat (wrap64 size))
            (length (f_data f) - Z.to_nat (wrap64 offset))
  end.
Proof.
  rewrite cache_block_read_bytes, cache_block_exists_lookup.
  destruct (tree !! get_block_path ctx p i) as [f |]; cbn [mbind option_bind];
    [| left; reflexivity].
  rewrite pread_eq.
  destruct (wrap64 offset + wrap64 size <=? 2 ^ 63 - 1) eqn:Hr.
  - apply Z.leb_le in Hr. split; [exact Hr |].
    exists f. split; [reflexivity | split; [reflexivity |]].
    rewrite length_take, length_drop. reflexivity.
  - apply Z.leb_gt in Hr. right. exact Hr.
Qed.


(** ** The block store: invalidation *)

Section InvalidationFacts.

Lemma unlink_all_other (victims : list (string * block_file)) cur
    (tree : blocks_tree) k :
  ~ In k (map fst victims) ->
  snd (fold_left
         (fun acc e => (wrap64 (fst acc - f_size (snd e)), delete (fst e) (snd acc)))
         victims (cur, tree)) !! k = tree !! k.
Proof.
  revert cur tree. induction victims as [| e victims IH]; intros cur tree Hnot; cbn.
  - reflexivity.
  - cbn in Hnot. rewrite IH by tauto.
    apply lookup_delete_ne. intros Heq. apply Hnot. left. exact Heq.
Qed.

(** What [cache_block_invalidate_file] leaves of the tree: the files that
    carry the prefix are gone, the others are as they were. *)
Lemma cache_block_invalidate_file_lookup ctx (tree : blocks_tree) p k :
  snd (cache_block_invalidate_file ctx tree p) !! k
  = if matches_prefix ctx p k then None else tree !! k.
Proof.
  unfold cache_block_invalidate_file.
  match goal with
  | |- context [fold_left ?f ?l (?c, ?t)] =>
      pose proof (unlink_all_gone l c t k) as Hgone;
      pose proof (unlink_all_other l c t k) as Hother;
      pose proof (unlink_all_subseteq l c t) as Hsub;
      destruct (fold_left f l (c, t)) as [cur tree']
  end.
  cbn in *.
  destruct (matches_prefix ctx p k) eqn:Hm.
  - destruct (tree !! k) as [f |] eqn:Hk.
    + apply Hgone. apply in_map_iff. exists (k, f). split; [reflexivity |].
      apply filter_In. split; [| exact Hm].
      apply list_elem_of_In, elem_of_map_to_list. exact Hk.
    + eapply lookup_weaken_None; [exact Hk | exact Hsub].
  - apply Hother. intros Hin. apply in_map_iff in Hin.
    destruct Hin as ([k0 f0] & Hk0 & Hin). cbn in Hk0. subst k0.
    apply filter_In in Hin. destruct Hin as [_ Hm']. cbn [fst] in Hm'. congruence.
Qed.

Lemma cache_block_invalidate_file_rc ctx (tree : blocks_tree) p :
  fst (fst (cache_block_invalidate_file ctx tree p)) = 0.
Proof.
  unfold cache_block_invalidate_file.
  destruct (fold_left _ _ _) as [cur tree']. reflexivity.
Qed.

End InvalidationFacts.

Section InvalidateFileExists.

Lemma cache_block_invalidate_file_exists ctx (tree : blocks_tree) p q j :
  cache_block_exists (snd (fst (cache_block_invalidate_file ctx tree p)))
    (snd (cache_block_invalidate_file ctx tree p)) q j
  = cache_block_exists ctx tree q j && negb (hash_path q =? hash_path p).
Proof.
  destruct (cache_block_invalidate_file_subseteq ctx tree p) as [_ Hdir].
  rewrite !cache_block_exists_lookup.
  rewrite (get_block_path_ext _ ctx q j Hdir).
  rewrite cache_block_invalidate_file_lookup, matches_prefix_block_path.
  destruct (hash_path q =? hash_path p); cbn.
  - rewrite andb_false_r. reflexivity.
  - rewrite andb_true_r. reflexivity.
Qed.

End InvalidateFileExists.

(** Property X6: [cache_block_invalidate_file] returns 0 and unlinks
    exactly the blocks named by the hash of the path: afterwards a block
    (q, j) exists if and only if it existed before and the hash of [q]
    differs from the hash of the path.  The blocks of every path of another
    hash are kept, those of a colliding path are lost with it. *)
Theorem invalidate_file_exact ctx (tree : blocks_tree) p q j :
  let r := cache_block_invalidate_file ctx tree p in
  fst (fst r) = 0 /\
  cache_block_exists (snd (fst r)) (snd r) q j
  = cache_block_exists ctx tree q j && negb (hash_path q =? hash_path p).
Proof.
  intros r. subst r. split.
  - apply cache_block_invalidate_file_rc.
  - apply cache_block_invalidate_file_exists.
Qed.

(** Property X7: for a byte range within [size_t],
    [cache_block_invalidate_range] returns 0 and unlinks exactly the blocks
    of the path's hash whose index lies between [offset / block_size] and
    [(offset + size) / block_size], both included: afterwards a block (q, j)
    exists if and only if it existed before and is not one of these. *)
Theorem invalidate_range_exact ctx (tree : blocks_tree) p offset size q j :
  0 < block_size ctx -> 0 <= offset -> 0 <= size -> offset + size < 2 ^ 64 - 1 ->
  exists ctx' tree',
    cache_block_invalidate_range ctx tree p offset size = Some (0, ctx', tree') /\
    cache_block_exists ctx' tree' q j
    = cache_block_exists ctx tree q j
      && negb ((hash_path q =? hash_path p)
               && (offset / block_size ctx <=? j)
               && (j <=? (offset + size) / block_size ctx)).
Proof.
  intros Hbs Ho Hs Hsum.
  destruct (cache_block_invalidate_range_spec ctx tree p offset size Hbs Ho Hs Hsum)
    as (ctx' & tree' & Heq & Hdir & Hgone & Hother).
  exists ctx', tree'. split; [exact Heq |].
  rewrite !cache_block_exists_lookup.
  rewrite (get_block_path_ext ctx' ctx q j Hdir).
  destruct ((hash_path q =? hash_path p)
            && (offset / block_size ctx <=? j)
            && (j <=? (offset + size) / block_size ctx)) eqn:Hin; cbn [negb].
  - apply andb_prop in Hin. destruct Hin as [Hin Hhi].
    apply andb_prop in Hin. destruct Hin as [Hh Hlo].
    apply Z.eqb_eq in Hh. apply Z.leb_le in Hlo, Hhi.
    rewrite (get_block_path_same_hash ctx ctx q j p eq_refl Hh).
    rewrite Hgone by lia. rewrite andb_false_r. reflexivity.
  - rewrite andb_true_r. rewrite Hother; [reflexivity |].
    intros b Hb Heqp. apply get_block_path_inj in Heqp; [| reflexivity].
    destruct Heqp as [Hh ->].
    rewrite <- Hh, Z.eqb_refl in Hin. cbn [andb] in Hin.
    apply andb_false_iff in Hin. destruct Hin as [Hin | Hin];
      apply Z.leb_gt in Hin; lia.
Qed.

Lemma invalidate_range_exact_witness :
  let ctx := fst two_blocks_state in
  let tree := snd two_blocks_state in
  (0 < block_size ctx /\ 0 <= 5 /\ 0 <= 2 /\ 5 + 2 < 2 ^ 64 - 1) /\
  exists ctx' tree',
    cache_block_invalidate_range ctx tree "/b/f" 5 2 = Some (0, ctx', tree') /\
    cache_block_exists ctx' tree' "/b/f" 0
    = cache_block_exists ctx tree "/b/f" 0
      && negb ((hash_path "/b/f" =? hash_path "/b/f")
               && (5 / block_size ctx <=? 0)
               && (0 <=? (5 + 2) / block_size ctx)).
Proof.
  assert (H : 0 < block_size (fst two_blocks_state) /\ 0 <= 5 /\ 0 <= 2 /\
              5 + 2 < 2 ^ 64 - 1) by (vm_compute; repeat split; discriminate).
  split; [exact H |].
  exact (invalidate_range_exact (fst two_blocks_state) (snd two_blocks_state)
           "/b/f" 5 2 "/b/f" 0
           (proj1 H) (proj1 (proj2 H)) (proj1 (proj2 (proj2 H)))
           (proj2 (proj2 (proj2 H)))).
Defined.

(** Property X8: invalidation takes off the counter exactly the bytes it
    unlinks.  When the counter covers the bytes present, after
    [cache_block_invalidate_file], and after a [cache_block_invalidate_range]
    that returns, the counter is the former counter minus the bytes that
    are no longer present. *)
Theorem invalidation_counts_removed_bytes ctx (tree : blocks_tree) p :
  counter_covers ctx tree ->
  (let r := cache_block_invalidate_file ctx tree p in
   current_cache_size (snd (fst r))
   = current_cache_size ctx - (bytes_present tree - bytes_present (snd r))) /\
  (forall offset size rc ctx' tree',
     cache_block_invalidate_range ctx tree p offset size = Some (rc, ctx', tree') ->
     current_cache_size ctx'
     = current_cache_size ctx - (bytes_present tree - bytes_present tree')).
Proof.
  intros Hcov. split.
  - destruct (cache_block_invalidate_file_counter ctx tree p Hcov) as (Hover & _).
    cbn zeta. unfold overcount in Hover. lia.
  - intros offset size rc ctx' tree' Heq.
    destruct (cache_block_invalidate_range_counter ctx tree p offset size
                rc ctx' tree' Hcov Heq) as (Hover & _).
    unfold overcount in Hover. lia.
Qed.

Lemma invalidation_counts_removed_bytes_witness :
  counter_covers (fst two_blocks_state) (snd two_blocks_state) /\
  current_cache_size
    (snd (fst (cache_block_invalidate_file (fst two_blocks_state)
                 (snd two_blocks_state) "/b/f")))
  = current_cache_size (fst two_blocks_state)
    - (bytes_present (snd two_blocks_state)
       - bytes_present
           (snd (cache_block_invalidate_file (fst two_blocks_state)
                   (snd two_blocks_state) "/b/f"))).
Proof.
  assert (H : counter_covers (fst two_blocks_state) (snd two_blocks_state))
    by (split; vm_compute; [discriminate | reflexivity]).
  split; [exact H |].
  exact (proj1 (invalidation_counts_removed_bytes
                  (fst two_blocks_state) (snd two_blocks_state) "/b/f" H)).
Defined.

(** ** The block store: the eviction pass *)

Section EvictionFacts.

(** The loop unlinks a prefix of the list; it unlinks a block only while
    the counter minus the bytes evicted so far exceeds the target. *)
Lemma evict_loop_split_last blocks cur target evicted (tree : blocks_tree) :
  exists l1 l2,
    blocks = l1 ++ l2 /\
    evict_loop blocks cur target evicted tree
    = (fold_left (fun e b => wrap64 (e + bi_size b)) l1 evicted,
       unlink_blocks l1 tree) /\
    (forall l0 b,
       l1 = l0 ++ [b] ->
       (wrap64 (cur - fold_left (fun e b => wrap64 (e + bi_size b)) l0 evicted)
          >? target) = true).
Proof.
  revert evicted tree. induction blocks as [| b blocks IH]; intros evicted tree.
  - exists [], []. cbn. split; [reflexivity | split; [reflexivity |]].
    intros [| x l0] b0 H; discriminate H.
  - cbn. destruct (wrap64 (cur - evicted) >? target) eqn:Hgt.
    + destruct (IH (wrap64 (evicted + bi_size b)) (delete (bi_path b) tree))
        as (l1 & l2 & -> & Heq & Hlast).
      exists (b :: l1), l2. cbn. split; [reflexivity | split; [exact Heq |]].
      intros [| x l0] b0 H.
      * cbn in H. injection H as _ H. cbn. exact Hgt.
      * cbn in H. injection H as <- H. cbn. apply (Hlast l0 b0). exact H.
    + exists [], (b :: blocks). cbn. split; [reflexivity | split; [reflexivity |]].
      intros [| x l0] b0 H; discriminate H.
Qed.

Lemma evict_lru_blocks_rc ctx (tree : blocks_tree) target :
  fst (fst (evict_lru_blocks ctx tree target)) = 0.
Proof.
  unfold evict_lru_blocks.
  destruct (current_cache_size ctx <=? target); [reflexivity |].
  destruct (scan_blocks tree); [reflexivity |].
  destruct (evict_loop _ _ _ _ _). reflexivity.
Qed.

End EvictionFacts.

(** Property X9: an eviction pass on a store whose counter covers the
    bytes present returns 0 and only unlinks; it does nothing when the
    counter is within the target; it takes off the counter exactly the bytes
    it unlinks; it ends with the counter within the target or with no block
    left; and every block it unlinks was accessed no later than every block
    it keeps (least recently used first). *)
Theorem evict_lru_blocks_pass ctx (tree : blocks_tree) target :
  counter_covers ctx tree ->
  let r := evict_lru_blocks ctx tree target in
  fst (fst r) = 0 /\
  snd r ⊆ tree /\
  (current_cache_size ctx <= target -> r = (0, ctx, tree)) /\
  current_cache_size (snd (fst r))
  = current_cache_size ctx - (bytes_present tree - bytes_present (snd r)) /\
  (current_cache_size (snd (fst r)) <= target \/ snd r = ∅) /\
  (forall k f k' f',
     tree !! k = Some f -> snd r !! k = None -> snd r !! k' = Some f' ->
     f_atime f <= f_atime f').
Proof.
  intros Hcov r. subst r.
  destruct (evict_lru_blocks_spec ctx tree target Hcov) as (Hover & _ & Hend & Hlru).
  split; [apply evict_lru_blocks_rc |].
  split; [apply evict_lru_blocks_subseteq |].
  split; [| split; [| split; [exact Hend | exact Hlru]]].
  - intros Hle. unfold evict_lru_blocks.
    apply Z.leb_le in Hle. rewrite Hle. reflexivity.
  - unfold overcount in Hover. lia.
Qed.

Lemma evict_lru_blocks_pass_witness :
  counter_covers (fst two_blocks_state) (snd two_blocks_state) /\
  cache_block_exists (fst two_blocks_state) (snd two_blocks_state) "/b/f" 0 = true /\
  cache_block_exists (fst two_blocks_state)
    (snd (evict_lru_blocks (fst two_blocks_state) (snd two_blocks_state) 4))
    "/b/f" 0 = false /\
  (current_cache_size
     (snd (fst (evict_lru_blocks (fst two_blocks_state) (snd two_blocks_state) 4)))
   <= 4 \/
   snd (evict_lru_blocks (fst two_blocks_state) (snd two_blocks_state) 4) = ∅).
Proof.
  assert (H : counter_covers (fst two_blocks_state) (snd two_blocks_state))
    by (split; vm_compute; [discriminate | reflexivity]).
  split; [exact H |].
  split; [vm_compute; reflexivity |].
  split; [vm_compute; reflexivity |].
  exact (proj1 (proj2 (proj2 (proj2 (proj2
           (evict_lru_blocks_pass (fst two_blocks_state) (snd two_blocks_state)
              4 H)))))).
Defined.

(** Property X10: the eviction pass unlinks no more than it needs.  When
    the counter covers the bytes present and the pass unlinks anything, the
    most recently accessed block among those it unlinked was unlinked
    because the counter, with that block still counted, exceeded the
    target. *)
Theorem eviction_is_minimal ctx (tree : blocks_tree) target :
  counter_covers ctx tree ->
  let r := evict_lru_blocks ctx tree target in
  snd r <> tree ->
  exists k f,
    tree !! k = Some f /\ snd r !! k = None /\
    target < current_cache_size (snd (fst r)) + f_size f /\
    (forall k2 f2,
       tree !! k2 = Some f2 -> snd r !! k2 = None -> f_atime f2 <= f_atime f).
Proof.
  intros Hcov r. subst r. unfold evict_lru_blocks.
  destruct (current_cache_size ctx <=? target) eqn:Hle; cbn;
    [intros H; congruence |].
  destruct (scan_blocks tree) as [| b0 bl] eqn:Hscan; [cbn; intros H; congruence |].
  rewrite <- Hscan. clear b0 bl Hscan.
  destruct (evict_loop_split_last (qsort_blocks (scan_blocks tree))
              (current_cache_size ctx) target 0 tree)
    as (l1 & l2 & Hsplit & -> & Hlast).
  cbn. intros Hchanged.
  destruct l1 as [| x l1x] using rev_ind; [cbn in Hchanged; congruence |].
  clear IHl1x. rename l1x into l0.
  pose proof (qsort_blocks_perm (scan_blocks tree)) as Hperm.
  pose proof (qsort_blocks_sorted (scan_blocks tree)) as Hsorted.
  rewrite Hsplit in Hperm, Hsorted.
  assert (Hdesc : Forall (describes tree) ((l0 ++ [x]) ++ l2)).
  { eapply describes_perm; [exact Hperm | apply scan_blocks_describes]. }
  apply Forall_app in Hdesc. destruct Hdesc as [Hd1 Hd2].
  pose proof Hd1 as Hd1'.
  apply Forall_app in Hd1'. destruct Hd1' as [Hd0 Hdx].
  assert (Hsum : sum_sizes (l0 ++ [x]) + sum_sizes l2 = bytes_present tree).
  { rewrite <- sum_sizes_app, (sum_sizes_perm _ _ Hperm), bytes_present_sum.
    reflexivity. }
  pose proof (sum_sizes_nonneg tree l0 Hd0) as Hn0.
  pose proof (sum_sizes_nonneg tree l2 Hd2) as Hn2.
  pose proof (sum_sizes_nonneg tree [x] Hdx) as Hnx.
  rewrite sum_sizes_app in Hsum. cbn [sum_sizes fold_right] in Hsum, Hnx.
  destruct Hcov as [Hcov1 Hcov2].
  pose proof (Hlast l0 x eq_refl) as Hgt.
  rewrite (add_sizes_exact tree l0 0 Hd0) in Hgt by lia.
  rewrite (add_sizes_exact tree (l0 ++ [x]) 0 Hd1)
    by (rewrite ?sum_sizes_app; cbn [sum_sizes fold_right]; lia).
  rewrite sum_sizes_app. cbn [sum_sizes fold_right].
  rewrite !Z.add_0_l in *.
  rewrite (wrap64_small (current_cache_size ctx - sum_sizes l0)) in Hgt by lia.
  rewrite wrap64_small by lia.
  rewrite Z.gtb_ltb in Hgt. apply Z.ltb_lt in Hgt.
  apply Forall_inv in Hdx. destruct Hdx as (f & Hf & Hat & Hsz).
  exists (bi_path x), f.
  split; [exact Hf |].
  split; [apply unlink_blocks_gone; rewrite map_app; apply in_or_app; right;
          left; reflexivity |].
  split; [lia |].
  intros k2 f2 Hk2 Hgone.
  assert (Hin1 : In k2 (map bi_path (l0 ++ [x]))).
  { destruct (in_dec string_dec k2 (map bi_path (l0 ++ [x]))) as [Hin | Hnot];
      [exact Hin |].
    rewrite unlink_blocks_other in Hgone by exact Hnot. congruence. }
  apply in_map_iff in Hin1. destruct Hin1 as (b & Hbk & Hb).
  rewrite Forall_forall in Hd1.
  destruct (Hd1 b (proj2 (list_elem_of_In _ _) Hb)) as (g & Hg & Hatb & _).
  rewrite Hbk, Hk2 in Hg. injection Hg as <-.
  apply in_app_or in Hb. destruct Hb as [Hb | Hb].
  - rewrite <- app_assoc in Hsorted.
    pose proof (strongly_sorted_app_le l0 ([x] ++ l2) b x Hsorted Hb
                  (or_introl eq_refl)) as Hle'.
    unfold atime_le in Hle'. lia.
  - destruct Hb as [<- | []]. lia.
Qed.

Lemma eviction_is_minimal_witness :
  let ctx := fst two_blocks_state in
  let tree := snd two_blocks_state in
  counter_covers ctx tree /\
  snd (evict_lru_blocks ctx tree 4) <> tree /\
  exists k f,
    tree !! k = Some f /\ snd (evict_lru_blocks ctx tree 4) !! k = None /\
    4 < current_cache_size (snd (fst (evict_lru_blocks ctx tree 4))) + f_size f /\
    (forall k2 f2,
       tree !! k2 = Some f2 -> snd (evict_lru_blocks ctx tree 4) !! k2 = None ->
       f_atime f2 <= f_atime f).
Proof.
  assert (H : counter_covers (fst two_blocks_state) (snd two_blocks_state))
    by (split; vm_compute; [discriminate | reflexivity]).
  assert (H' : snd (evict_lru_blocks (fst two_blocks_state)
                      (snd two_blocks_state) 4) <> snd two_blocks_state).
  { intros Heq.
    assert (Hb : bytes_present (snd (evict_lru_blocks (fst two_blocks_state)
                                       (snd two_blocks_state) 4))
                 = bytes_present (snd two_blocks_state))
      by (rewrite Heq; reflexivity).
    vm_compute in Hb. discriminate Hb. }
  split; [exact H |]. split; [exact H' |].
  exact (eviction_is_minimal (fst two_blocks_state) (snd two_blocks_state) 4 H H').
Defined.

(** ** The block store: opening it, and histories of operations *)

(** Property X11: [cache_block_init] on a cache root whose block files
    hold less than 2^64 bytes returns a context whose counter is exactly the
    bytes present (the scan of [calculate_cache_size] misses and double
    counts nothing), whose blocks directory is [<cache_root>/blocks], and
    whose block size is the one given, or 256 KiB when 0 is given: it is
    never 0. *)
Theorem cache_block_init_state root bs maxsz dbg (tree : blocks_tree) :
  bytes_present tree < 2 ^ 64 ->
  let ctx := cache_block_init root bs maxsz dbg tree in
  cache_block_get_stats ctx = (bytes_present tree, maxsz) /\
  blocks_dir ctx = root +:+ "/blocks" /\
  0 < block_size ctx /\
  (0 < bs -> block_size ctx = bs) /\
  (bs = 0 -> block_size ctx = 256 * 1024).
Proof.
  intros Hlt ctx. subst ctx. unfold cache_block_get_stats.
  rewrite (cache_block_init_exact root bs maxsz dbg tree Hlt).
  cbn [cache_block_init max_cache_size blocks_dir block_size].
  split; [reflexivity | split; [reflexivity |]].
  destruct (bs >? 0) eqn:Hbs.
  - rewrite Z.gtb_ltb in Hbs. apply Z.ltb_lt in Hbs.
    split; [exact Hbs | split; [reflexivity | lia]].
  - rewrite Z.gtb_ltb in Hbs. apply Z.ltb_ge in Hbs. unfold DEFAULT_BLOCK_SIZE.
    split; [lia | split; [lia | reflexivity]].
Qed.

Lemma cache_block_init_state_witness :
  bytes_present old_tree < 2 ^ 64 /\
  cache_block_get_stats (cache_block_init "/c" 0 10 false old_tree) = (20, 10) /\
  block_size (cache_block_init "/c" 0 10 false old_tree) = 256 * 1024.
Proof.
  assert (H : bytes_present old_tree < 2 ^ 64) by (vm_compute; reflexivity).
  pose proof (cache_block_init_state "/c" 0 10 false old_tree H) as (Hs & _ & _ & _ & Hb).
  split; [exact H |]. split; [| exact (Hb eq_refl)].
  rewrite Hs. vm_compute. reflexivity.
Defined.

Section Configuration.

Lemma same_configuration_refl ctx : same_configuration ctx ctx.
Proof. repeat split. Qed.

Lemma same_configuration_trans a b c :
  same_configuration a b -> same_configuration b c -> same_configuration a c.
Proof.
  intros (H1 & H2 & H3 & H4) (G1 & G2 & G3 & G4).
  repeat split; congruence.
Qed.

Lemma evict_lru_blocks_config ctx (tree : blocks_tree) target :
  same_configuration (snd (fst (evict_lru_blocks ctx tree target))) ctx.
Proof.
  unfold evict_lru_blocks.
  destruct (current_cache_size ctx <=? target); [apply same_configuration_refl |].
  destruct (scan_blocks tree); [apply same_configuration_refl |].
  destruct (evict_loop _ _ _ _ _). repeat split.
Qed.

Lemma cache_block_write_config ctx (tree : blocks_tree) p i buf now io :
  same_configuration (snd (fst (cache_block_write ctx tree p i buf now io))) ctx.
Proof.
  destruct (write_io_cases io buf) as [-> | [[Hio Hres] | (n & -> & Hn)]].
  - apply same_configuration_refl.
  - rewrite (cache_block_write_short _ _ _ _ _ _ _ Hio Hres).
    apply same_configuration_refl.
  - rewrite (cache_block_write_complete _ _ _ _ _ _ _ Hn).
    destruct ((max_cache_size ctx >? 0)
              && (current_cache_size (counted_ctx ctx buf) >? max_cache_size ctx));
      cbn [fst snd].
    + eapply same_configuration_trans; [apply evict_lru_blocks_config |].
      repeat split.
    + repeat split.
Qed.

Lemma invalidate_blocks_config p n i (st : cache_block_ctx * blocks_tree) :
  same_configuration (fst (invalidate_blocks p n i st)) (fst st).
Proof.
  revert i st. induction n as [| n IH]; intros i [ctx tree]; cbn.
  - apply same_configuration_refl.
  - destruct (tree !! get_block_path ctx p i) as [f |].
    + eapply same_configuration_trans; [apply IH |]. repeat split.
    + apply (IH (i + 1) (ctx, tree)).
Qed.

Lemma cache_block_invalidate_file_config ctx (tree : blocks_tree) p :
  same_configuration (snd (fst (cache_block_invalidate_file ctx tree p))) ctx.
Proof.
  unfold cache_block_invalidate_file.
  destruct (fold_left _ _ _) as [cur tree']. repeat split.
Qed.

Lemma step_config st op st' :
  step st op = Some st' -> same_configuration (fst st') (fst st).
Proof.
  destruct st as [ctx tree]. destruct op as [p i buf now io | p i size offset touch
                                            | p offset size | p]; cbn [step].
  - pose proof (cache_block_write_config ctx tree p i buf now io) as Hc.
    destruct (cache_block_write ctx tree p i buf now io) as [[rc ctx1] tree1].
    intros [= <-]. exact Hc.
  - intros [= <-]. apply same_configuration_refl.
  - unfold cache_block_invalidate_range.
    destruct (_ =? SIZE_MAX); [discriminate |].
    match goal with
    | |- context [invalidate_blocks ?a ?b ?c ?d] =>
        pose proof (invalidate_blocks_config a b c d) as Hc;
        destruct (invalidate_blocks a b c d) as [ctx1 tree1]
    end.
    intros [= <-]. exact Hc.
  - pose proof (cache_block_invalidate_file_config ctx tree p) as Hc.
    destruct (cache_block_invalidate_file ctx tree p) as [[rc ctx1] tree1].
    intros [= <-]. exact Hc.
Qed.

Lemma run_config ops st st' :
  run ops st = Some st' -> same_configuration (fst st') (fst st).
Proof.
  revert st. induction ops as [| op ops IH]; intros st; cbn [run].
  - intros [= <-]. apply same_configuration_refl.
  - destruct (step st op) as [st1 |] eqn:Hstep; [| discriminate].
    intros Hrun. eapply same_configuration_trans; [apply IH; exact Hrun |].
    apply step_config with op. exact Hstep.
Qed.

Lemma cache_block_init_covers root bs maxsz dbg (tree : blocks_tree) :
  bytes_present tree < 2 ^ 64 ->
  counter_covers (cache_block_init root bs maxsz dbg tree) tree /\
  overcount (cache_block_init root bs maxsz dbg tree) tree = 0.
Proof.
  intros Hlt. unfold counter_covers, overcount.
  rewrite (cache_block_init_exact root bs maxsz dbg tree Hlt). lia.
Qed.

End Configuration.

(** Property X12: no operation of the block store changes its
    configuration.  After any sequence of writes, reads and invalidations
    that returns, the blocks directory, the block size, the byte budget and
    the debug flag are those of the start, so every block keeps its file
    name. *)
Theorem history_keeps_configuration ops st st' :
  run ops st = Some st' ->
  same_configuration (fst st') (fst st) /\
  forall p i, get_block_path (fst st') p i = get_block_path (fst st) p i.
Proof.
  intros Hrun. pose proof (run_config ops st st' Hrun) as Hc.
  split; [exact Hc |].
  intros p i. apply get_block_path_ext. apply Hc.
Qed.

Lemma history_keeps_configuration_witness :
  run small_ops (small_ctx, ∅) = Some small_final /\
  same_configuration (fst small_final) small_ctx.
Proof.
  assert (H : run small_ops (small_ctx, ∅) = Some small_final) by reflexivity.
  split; [exact H |].
  exact (proj1 (history_keeps_configuration small_ops (small_ctx, ∅) small_final H)).
Defined.

(** A write of a new block that is cut short: the code returns -1 before
    it counts, and the bytes transferred stay in the file and are served. *)
Example short_write_is_not_counted :
  let r := cache_block_write small_ctx ∅ "/b/f" 0 bytes_AAAA 1700000000
             (Transfers 2) in
  fst (fst r) = -1 /\
  fst (cache_block_get_stats (snd (fst r))) = 0 /\
  bytes_present (snd r) = 2 /\
  fst (cache_block_read (snd (fst r)) (snd r) "/b/f" 0 4 0 None)
  = Some [Byte.x41; Byte.x41].
Proof. vm_compute. repeat split; reflexivity. Qed.

(** Property X13: the counter never under-counts, as long as no write
    leaves bytes that it does not count.  For a block store opened by
    [cache_block_init] on any cache root, after any sequence of operations
    that returns and in which every write fits ([write_fits]: its [open]
    fails; or it is complete and does not take the counter beyond a
    [size_t]; or it is cut short and leaves no more bytes in the file than
    the file it replaces held), the size that [cache_block_get_stats]
    reports is at least the bytes present in the block files. *)
Theorem history_counter_never_undercounts root bs maxsz dbg (tree0 : blocks_tree)
    ops ctx' tree' :
  bytes_present tree0 < 2 ^ 64 ->
  each_write write_fits ops (cache_block_init root bs maxsz dbg tree0, tree0) ->
  run ops (cache_block_init root bs maxsz dbg tree0, tree0) = Some (ctx', tree') ->
  bytes_present tree' <= fst (cache_block_get_stats ctx') < 2 ^ 64.
Proof.
  intros Hlt Hfit Hrun.
  destruct (cache_block_init_covers root bs maxsz dbg tree0 Hlt) as [Hcov _].
  destruct (run_counter_covers ops (cache_block_init root bs maxsz dbg tree0, tree0)
              (ctx', tree') Hcov Hfit Hrun) as [Hcov' _].
  exact Hcov'.
Qed.

Lemma history_counter_never_undercounts_witness :
  bytes_present ∅ < 2 ^ 64 /\
  each_write write_fits faulty_ops (small_ctx, ∅) /\
  run faulty_ops (small_ctx, ∅) = Some faulty_final /\
  bytes_present (snd faulty_final)
  <= fst (cache_block_get_stats (fst faulty_final)) < 2 ^ 64.
Proof.
  assert (H1 : bytes_present ∅ < 2 ^ 64) by (vm_compute; reflexivity).
  assert (H2 : each_write write_fits faulty_ops (small_ctx, ∅))
    by (vm_compute; repeat split; discriminate).
  assert (H3 : run faulty_ops (small_ctx, ∅)
               = Some (fst faulty_final, snd faulty_final))
    by reflexivity.
  split; [exact H1 |]. split; [exact H2 |]. split; [reflexivity |].
  exact (history_counter_never_undercounts "/c" 4 8 false ∅ faulty_ops
           (fst faulty_final) (snd faulty_final) H1 H2 H3).
Defined.

(** Property X14: the counter is exact in the absence of overwrites and
    of uncounted bytes.  For a block store opened by [cache_block_init],
    after any sequence of operations that returns and in which every write
    is for a block that is not cached at that moment and fits
    ([write_is_new]: its [open] fails, or it is complete within a
    [size_t], or it is cut short before any byte went into the new file),
    the size that [cache_block_get_stats] reports equals the bytes present,
    evictions and invalidations included. *)
Theorem history_counter_exact root bs maxsz dbg (tree0 : blocks_tree)
    ops ctx' tree' :
  bytes_present tree0 < 2 ^ 64 ->
  each_write write_is_new ops (cache_block_init root bs maxsz dbg tree0, tree0) ->
  run ops (cache_block_init root bs maxsz dbg tree0, tree0) = Some (ctx', tree') ->
  fst (cache_block_get_stats ctx') = bytes_present tree'.
Proof.
  intros Hlt Hnew Hrun.
  destruct (cache_block_init_covers root bs maxsz dbg tree0 Hlt) as [Hcov Hover].
  exact (run_counter_exact ops (cache_block_init root bs maxsz dbg tree0, tree0)
           (ctx', tree') Hcov Hover Hnew Hrun).
Qed.

Lemma history_counter_exact_witness :
  bytes_present ∅ < 2 ^ 64 /\
  each_write write_is_new small_ops (small_ctx, ∅) /\
  run small_ops (small_ctx, ∅) = Some small_final /\
  fst (cache_block_get_stats (fst small_final)) = bytes_present (snd small_final).
Proof.
  assert (H1 : bytes_present ∅ < 2 ^ 64) by (vm_compute; reflexivity).
  assert (H2 : each_write write_is_new small_ops (small_ctx, ∅))
    by (vm_compute; repeat split).
  assert (H3 : run small_ops (small_ctx, ∅) = Some (fst small_final, snd small_final))
    by reflexivity.
  split; [exact H1 |]. split; [exact H2 |]. split; [reflexivity |].
  exact (history_counter_exact "/c" 4 8 false ∅ small_ops
           (fst small_final) (snd small_final) H1 H2 H3).
Defined.

(** Property X15: the byte budget holds along a history in which no write
    leaves bytes that it does not count.  For a block store opened by
    [cache_block_init] with a budget that the bytes already present
    respect, after any sequence of operations that returns and in which
    every write fits ([write_fits], as in X13), the size that
    [cache_block_get_stats] reports, and with it the bytes present, is
    within the budget. *)
Theorem history_within_budget root bs maxsz dbg (tree0 : blocks_tree)
    ops ctx' tree' :
  0 < maxsz -> bytes_present tree0 <= maxsz -> maxsz < 2 ^ 64 ->
  each_write write_fits ops (cache_block_init root bs maxsz dbg tree0, tree0) ->
  run ops (cache_block_init root bs maxsz dbg tree0, tree0) = Some (ctx', tree') ->
  bytes_present tree' <= fst (cache_block_get_stats ctx') /\
  cache_block_get_stats ctx' = (current_cache_size ctx', maxsz) /\
  current_cache_size ctx' <= maxsz.
Proof.
  intros Hpos Hle Hmax Hfit Hrun.
  assert (Hlt : bytes_present tree0 < 2 ^ 64) by lia.
  destruct (cache_block_init_covers root bs maxsz dbg tree0 Hlt) as [Hcov _].
  destruct (run_counter_covers ops (cache_block_init root bs maxsz dbg tree0, tree0)
              (ctx', tree') Hcov Hfit Hrun) as [[Hcov' _] _].
  pose proof (run_config ops (cache_block_init root bs maxsz dbg tree0, tree0)
                (ctx', tree') Hrun) as (_ & _ & Hm & _).
  cbn [fst snd cache_block_init max_cache_size] in Hm.
  assert (Hcur : current_cache_size
                   (fst (cache_block_init root bs maxsz dbg tree0, tree0))
                 <= max_cache_size
                      (fst (cache_block_init root bs maxsz dbg tree0, tree0))).
  { cbn [fst]. rewrite (cache_block_init_exact root bs maxsz dbg tree0 Hlt).
    cbn [cache_block_init max_cache_size]. exact Hle. }
  pose proof (run_within_budget ops
                (cache_block_init root bs maxsz dbg tree0, tree0) (ctx', tree')
                Hcov Hpos Hcur Hfit Hrun) as Hb.
  cbn [fst snd] in Hb, Hcov'. unfold cache_block_get_stats. cbn [fst].
  rewrite Hm in *. split; [exact Hcov' | split; [reflexivity | exact Hb]].
Qed.

Lemma history_within_budget_witness :
  (0 < 8 /\ bytes_present ∅ <= 8 /\ 8 < 2 ^ 64) /\
  each_write write_fits small_ops (small_ctx, ∅) /\
  run small_ops (small_ctx, ∅) = Some small_final /\
  current_cache_size (fst small_final) <= 8.
Proof.
  assert (H1 : 0 < 8 /\ bytes_present ∅ <= 8 /\ 8 < 2 ^ 64)
    by (vm_compute; repeat split; discriminate).
  assert (H2 : each_write write_fits small_ops (small_ctx, ∅))
    by (vm_compute; repeat split).
  assert (H3 : run small_ops (small_ctx, ∅) = Some (fst small_final, snd small_final))
    by reflexivity.
  split; [exact H1 |]. split; [exact H2 |]. split; [reflexivity |].
  exact (proj2 (proj2
           (history_within_budget "/c" 4 8 false ∅ small_ops
              (fst small_final) (snd small_final)
              (proj1 H1) (proj1 (proj2 H1)) (proj2 (proj2 H1)) H2 H3))).
Defined.

(** ** The metadata store on SQLite: attribute records *)

Section SqliteRecords.
Import MetaSqlite.

Lemma meta_db_eq (a b : meta_db) :
  metadata a = metadata b -> dir_entries a = dir_entries b -> a = b.
Proof. destruct a, b. cbn. intros -> ->. reflexivity. Qed.

(** [cache_meta_lookup] reads the row of the path and nothing else. *)
Lemma cache_meta_lookup_ext ctx db db' path now :
  metadata db !! path = metadata db' !! path ->
  cache_meta_lookup ctx db path now = cache_meta_lookup ctx db' path now.
Proof. intros H. unfold cache_meta_lookup. rewrite H. reflexivity. Qed.

Lemma cache_meta_lookup_None ctx db path now :
  cache_meta_lookup ctx db path now = None <-> metadata db !! path = None.
Proof.
  unfold cache_meta_lookup. destruct (metadata db !! path); split; congruence.
Qed.

End SqliteRecords.

(** Property X16: the store keeps one record per path, the last one
    stored.  A successful [cache_meta_store] or [cache_meta_store_negative]
    leaves the database exactly as if no record of the path had been stored
    or invalidated before it: an attribute record replaces a negative one,
    and a negative record replaces the attributes. *)
Theorem meta_store_last_wins ctx db path st st0 now t0 :
  let store db := snd (MetaSqlite.cache_meta_store ctx db path st now true) in
  let store_neg db :=
    snd (MetaSqlite.cache_meta_store_negative ctx db path now true) in
  let db1 := snd (MetaSqlite.cache_meta_store ctx db path st0 t0 true) in
  let db2 := snd (MetaSqlite.cache_meta_store_negative ctx db path t0 true) in
  let db3 := snd (MetaSqlite.cache_meta_invalidate ctx db path) in
  (store db1 = store db /\ store db2 = store db /\ store db3 = store db) /\
  (store_neg db1 = store_neg db /\ store_neg db2 = store_neg db /\
   store_neg db3 = store_neg db).
Proof.
  cbn zeta.
  unfold MetaSqlite.cache_meta_store, MetaSqlite.cache_meta_store_negative,
    MetaSqlite.cache_meta_invalidate.
  cbn [fst snd MetaSqlite.metadata MetaSqlite.dir_entries].
  repeat split;
    apply meta_db_eq; cbn [MetaSqlite.metadata MetaSqlite.dir_entries];
    try reflexivity;
    first [apply insert_insert_eq | apply insert_delete_eq].
Qed.

(** Property X17: the three operations on attribute records touch the
    record of their path only.  Whatever the outcome of the insert,
    [cache_meta_store], [cache_meta_store_negative] and
    [cache_meta_invalidate] leave the lookup of every other path and every
    directory listing as they were; a store whose insert fails returns -1
    and changes nothing at all. *)
Theorem meta_ops_touch_one_path ctx db path q st now done t :
  q <> path ->
  let untouched r :=
    MetaSqlite.cache_meta_lookup ctx (snd r) q t
    = MetaSqlite.cache_meta_lookup ctx db q t /\
    MetaSqlite.dir_entries (snd r) = MetaSqlite.dir_entries db /\
    (fst r = 0 \/ (fst r = -1 /\ snd r = db)) in
  untouched (MetaSqlite.cache_meta_store ctx db path st now done) /\
  untouched (MetaSqlite.cache_meta_store_negative ctx db path now done) /\
  untouched (MetaSqlite.cache_meta_invalidate ctx db path).
Proof.
  intros Hne. cbn zeta.
  unfold MetaSqlite.cache_meta_store, MetaSqlite.cache_meta_store_negative,
    MetaSqlite.cache_meta_invalidate.
  destruct done; cbn [fst snd].
  - split; [| split];
      (split; [| split; [reflexivity | left; reflexivity]]);
      apply cache_meta_lookup_ext; cbn [MetaSqlite.metadata];
      first [apply lookup_insert_ne | apply lookup_delete_ne]; congruence.
  - split; [| split].
    + split; [reflexivity | split; [reflexivity | right; split; reflexivity]].
    + split; [reflexivity | split; [reflexivity | right; split; reflexivity]].
    + split; [| split; [reflexivity | left; reflexivity]].
      apply cache_meta_lookup_ext; cbn [MetaSqlite.metadata].
      apply lookup_delete_ne. congruence.
Qed.

Lemma meta_ops_touch_one_path_witness :
  "/b/other" <> "/b/a.txt" /\
  MetaSqlite.cache_meta_lookup default_meta_ctx
    (snd (MetaSqlite.cache_meta_store default_meta_ctx MetaSqlite.empty_db
            "/b/a.txt" stat_file_42 1700000001 true)) "/b/other" 1700000002
  = MetaSqlite.cache_meta_lookup default_meta_ctx MetaSqlite.empty_db
      "/b/other" 1700000002.
Proof.
  assert (H : "/b/other" <> "/b/a.txt") by discriminate.
  split; [exact H |].
  exact (proj1 (proj1
           (meta_ops_touch_one_path default_meta_ctx MetaSqlite.empty_db
              "/b/a.txt" "/b/other" stat_file_42 1700000001 true 1700000002 H))).
Defined.

(** Property X18: [cache_meta_lookup] never drops a record because of
    its age.  If the lookup of a path is a hit at some time, it is a hit with
    the same record at every time; only the [valid] flag depends on the
    clock: it is true exactly while the time is before [valid_until], so a
    record found expired is found expired at every later time. *)
Theorem meta_lookup_expiry ctx db path t1 t2 e v :
  MetaSqlite.cache_meta_lookup ctx db path t1 = Some (e, v) ->
  v = (t1 <? valid_until e) /\
  MetaSqlite.cache_meta_lookup ctx db path t2 = Some (e, t2 <? valid_until e) /\
  (t1 <= t2 -> v = false -> (t2 <? valid_until e) = false).
Proof.
  unfold MetaSqlite.cache_meta_lookup.
  destruct (MetaSqlite.metadata db !! path) as [row |]; [| discriminate].
  intros [= <- <-]. split; [reflexivity | split; [reflexivity |]].
  cbn [valid_until]. intros Hle Hv. apply Z.ltb_ge in Hv. apply Z.ltb_ge. lia.
Qed.

Lemma meta_lookup_expiry_witness :
  let db := snd (MetaSqlite.cache_meta_store default_meta_ctx MetaSqlite.empty_db
                   "/b/a.txt" stat_file_42 1700000001 true) in
  let e := {| type := CACHE_ENTRY_FILE; size := 11; mtime := 1700000000;
              ctime := 1700000000; mode := S_IFREG + 420; uid := 501; gid := 20;
              ino := 42; cached_at := 1700000001; valid_until := 1700000006 |} in
  MetaSqlite.cache_meta_lookup default_meta_ctx db "/b/a.txt" 1700000006
  = Some (e, false) /\
  MetaSqlite.cache_meta_lookup default_meta_ctx db "/b/a.txt" 1700000009
  = Some (e, 1700000009 <? valid_until e).
Proof.
  assert (H : MetaSqlite.cache_meta_lookup default_meta_ctx
                (snd (MetaSqlite.cache_meta_store default_meta_ctx
                        MetaSqlite.empty_db "/b/a.txt" stat_file_42
                        1700000001 true)) "/b/a.txt" 1700000006
              = Some ({| type := CACHE_ENTRY_FILE; size := 11;
                         mtime := 1700000000; ctime := 1700000000;
                         mode := S_IFREG + 420; uid := 501; gid := 20;
                         ino := 42; cached_at := 1700000001;
                         valid_until := 1700000006 |}, false))
    by (vm_compute; reflexivity).
  split; [exact H |].
  exact (proj1 (proj2 (meta_lookup_expiry _ _ _ _ 1700000009 _ _ H))).
Defined.

(** ** The metadata store on SQLite: directory listings *)

Section DirListingFacts.
Import MetaSqlite DirFacts.

Lemma in_dir_eq path r : in_dir path r = true <-> r_dir_path r = path.
Proof. unfold in_dir. apply String.eqb_eq. Qed.

(** [cache_dir_lookup] reads the rows of the directory and nothing else. *)
Lemma cache_dir_lookup_ext ctx db db' path now :
  List.filter (in_dir path) (dir_entries db)
  = List.filter (in_dir path) (dir_entries db') ->
  cache_dir_lookup ctx db path now = cache_dir_lookup ctx db' path now.
Proof.
  intros H. unfold cache_dir_lookup, select_dir_rows. rewrite H. reflexivity.
Qed.

(** [INSERT OR REPLACE] of a row of one directory leaves the rows of the
    other directories as they are. *)
Lemma insert_dir_row_other q row t :
  in_dir q row = false ->
  List.filter (in_dir q) (insert_dir_row row t) = List.filter (in_dir q) t.
Proof.
  intros Hrow. unfold insert_dir_row. rewrite List.filter_app.
  cbn [List.filter]. rewrite Hrow, app_nil_r.
  induction t as [| r t IH]; [reflexivity |].
  cbn [List.filter]. destruct (same_key r row) eqn:Hk; cbn [negb List.filter].
  - assert (Hr : in_dir q r = false).
    { unfold same_key in Hk. apply andb_true_iff in Hk. destruct Hk as [Hd _].
      apply String.eqb_eq in Hd. unfold in_dir in *. rewrite Hd. exact Hrow. }
    rewrite Hr. exact IH.
  - destruct (in_dir q r); [rewrite IH |]; [reflexivity | exact IH].
Qed.

Lemma insert_rows_other q path m n v es t :
  q <> path ->
  List.filter (in_dir q)
    (fold_left (fun t e => insert_dir_row (row_of_entry path m n v e) t) es t)
  = List.filter (in_dir q) t.
Proof.
  intros Hne. revert t. induction es as [| e es IH]; intros t; cbn [fold_left].
  - reflexivity.
  - rewrite IH. apply insert_dir_row_other.
    unfold in_dir, row_of_entry. cbn [r_dir_path].
    apply String.eqb_neq. congruence.
Qed.

(** The insert loop succeeds exactly when every step it takes is done. *)
Lemma dir_insert_loop_is_Some path es i m n v insert_done t :
  is_Some (dir_insert_loop path es i m n v insert_done t) <->
  forall j, (j < length es)%nat -> insert_done (i + j)%nat = true.
Proof.
  revert i t. induction es as [| e es IH]; intros i t; cbn [dir_insert_loop length].
  - split; [intros _ j Hj; lia | intros _; eauto].
  - destruct (insert_done i) eqn:Hi.
    + rewrite IH. split.
      * intros H [| j] Hj.
        -- rewrite Nat.add_0_r. exact Hi.
        -- rewrite Nat.add_succ_r. apply (H j). lia.
      * intros H j Hj. specialize (H (S j)). rewrite Nat.add_succ_r in H.
        apply H. lia.
    + split.
      * intros [x Hx]. discriminate Hx.
      * intros H. specialize (H 0%nat). rewrite Nat.add_0_r in H.
        rewrite H in Hi by lia. discriminate Hi.
Qed.

End DirListingFacts.

(** Property X19: invalidation makes the next lookup a miss.
    [cache_meta_invalidate] and [cache_dir_invalidate] return 0 whether or
    not anything is cached for the path; afterwards [cache_meta_lookup],
    respectively [cache_dir_lookup], of the path is a miss at every time,
    and invalidating again changes nothing. *)
Theorem invalidate_then_lookup_misses ctx db path now :
  (let r := MetaSqlite.cache_meta_invalidate ctx db path in
   fst r = 0 /\
   MetaSqlite.cache_meta_lookup ctx (snd r) path now = None /\
   MetaSqlite.cache_meta_invalidate ctx (snd r) path = r) /\
  (let r := MetaSqlite.cache_dir_invalidate ctx db path in
   fst r = 0 /\
   MetaSqlite.cache_dir_lookup ctx (snd r) path now = None /\
   MetaSqlite.cache_dir_invalidate ctx (snd r) path = r).
Proof.
  cbn zeta.
  unfold MetaSqlite.cache_meta_invalidate, MetaSqlite.cache_dir_invalidate.
  cbn [fst snd]. split; (split; [reflexivity | split]).
  - apply cache_meta_lookup_None. cbn. apply lookup_delete_eq.
  - f_equal. apply meta_db_eq; cbn; [| reflexivity].
    apply delete_delete_eq.
  - unfold MetaSqlite.cache_dir_lookup, MetaSqlite.select_dir_rows.
    cbn [MetaSqlite.dir_entries]. rewrite select_after_delete. reflexivity.
  - f_equal. apply meta_db_eq; cbn [MetaSqlite.metadata MetaSqlite.dir_entries];
      [reflexivity |].
    unfold MetaSqlite.delete_dir_rows.
    apply filter_all_true. intros r Hr. apply filter_In in Hr. apply Hr.
Qed.

(** Property X20: the operations on listings touch one directory only.
    Whatever the entries (a null array included) and whatever the outcome
    of the inserts, [cache_dir_store] and [cache_dir_invalidate] leave the
    lookup of every other directory and every attribute record as they
    were. *)
Theorem dir_ops_touch_one_directory ctx db path q entries m now insert_done t :
  q <> path ->
  let untouched db' :=
    MetaSqlite.cache_dir_lookup ctx db' q t = MetaSqlite.cache_dir_lookup ctx db q t /\
    MetaSqlite.metadata db' = MetaSqlite.metadata db in
  untouched (snd (MetaSqlite.cache_dir_store ctx db path entries m now insert_done)) /\
  untouched (snd (MetaSqlite.cache_dir_invalidate ctx db path)).
Proof.
  intros Hne. cbn zeta. split.
  - unfold MetaSqlite.cache_dir_store.
    destruct entries as [es |]; [| split; reflexivity].
    destruct (dir_insert_loop_result path es 0 m now (now + dir_ttl ctx)
                insert_done
                (MetaSqlite.delete_dir_rows path (MetaSqlite.dir_entries db)))
      as [Hl | Hl]; rewrite Hl; cbn [snd]; [split; reflexivity |].
    split; [| reflexivity].
    apply cache_dir_lookup_ext. cbn [MetaSqlite.dir_entries].
    rewrite insert_rows_other by exact Hne.
    apply select_other_after_delete. exact Hne.
  - unfold MetaSqlite.cache_dir_invalidate. cbn [snd]. split; [| reflexivity].
    apply cache_dir_lookup_ext. cbn [MetaSqlite.dir_entries].
    apply select_other_after_delete. exact Hne.
Qed.

Lemma dir_ops_touch_one_directory_witness :
  let db := snd (MetaSqlite.cache_dir_store default_meta_ctx MetaSqlite.empty_db
                   "/b" (Some listing_y_x) 1700000000 1700000001 all_done) in
  "/b" <> "/b/d" /\
  MetaSqlite.cache_dir_lookup default_meta_ctx
    (snd (MetaSqlite.cache_dir_store default_meta_ctx db "/b/d" (Some listing_x)
            1700000002 1700000003 all_done)) "/b" 1700000004
  = MetaSqlite.cache_dir_lookup default_meta_ctx db "/b" 1700000004.
Proof.
  assert (H : "/b" <> "/b/d") by discriminate.
  split; [exact H |].
  exact (proj1 (proj1
           (dir_ops_touch_one_directory default_meta_ctx _ "/b/d" "/b"
              (Some listing_x) 1700000002 1700000003 all_done 1700000004 H))).
Defined.

(** Property X21: what a hit of [cache_dir_lookup] returns, for any
    content of the table: the entries are exactly those of the rows of the
    directory, in ascending order of name; [count] is their number; and the
    directory mtime and the [valid] flag are those of the row that comes
    first in that order, the other rows are not consulted for them. *)
Theorem dir_lookup_hit_shape ctx db path now l count m v :
  MetaSqlite.cache_dir_lookup ctx db path now = Some (l, count, m, v) ->
  Sorted DirFacts.name_le l /\
  count = Z.of_nat (length l) /\
  (forall e,
     In e l <->
     exists r, In r (MetaSqlite.dir_entries db) /\
               MetaSqlite.r_dir_path r = path /\ DirFacts.entry_of_row r = e) /\
  exists r,
    In r (MetaSqlite.dir_entries db) /\ MetaSqlite.r_dir_path r = path /\
    head l = Some (DirFacts.entry_of_row r) /\
    m = MetaSqlite.r_dir_mtime r /\ v = (now <? MetaSqlite.r_valid_until r).
Proof.
  rewrite cache_dir_lookup_rows. unfold MetaSqlite.select_dir_rows.
  pose proof (order_by_name_sorted
                (List.filter (MetaSqlite.in_dir path) (MetaSqlite.dir_entries db)))
    as Hsorted.
  pose proof (order_by_name_perm
                (List.filter (MetaSqlite.in_dir path) (MetaSqlite.dir_entries db)))
    as Hperm.
  destruct (MetaSqlite.order_by_name
              (List.filter (MetaSqlite.in_dir path) (MetaSqlite.dir_entries db)))
    as [| first rest]; [discriminate |].
  intros [= <- <- <- <-].
  change (DirFacts.entry_of_row first :: map DirFacts.entry_of_row rest)
    with (map DirFacts.entry_of_row (first :: rest)).
  assert (Hin : forall r, In r (first :: rest) <->
                  In r (MetaSqlite.dir_entries db) /\ MetaSqlite.r_dir_path r = path).
  { intros r. rewrite <- in_dir_eq, <- filter_In. split.
    - apply Permutation_in. exact Hperm.
    - apply Permutation_in. symmetry. exact Hperm. }
  split; [apply (sorted_entries_of_rows (first :: rest)); exact Hsorted |].
  split; [rewrite length_map; reflexivity |].
  split.
  - intros e. rewrite in_map_iff. split.
    + intros (r & <- & Hr). exists r. apply Hin in Hr. tauto.
    + intros (r & Hr & Hp & <-). exists r. split; [reflexivity |].
      apply Hin. tauto.
  - exists first. destruct (proj1 (Hin first) (or_introl eq_refl)) as [H1 H2].
    repeat split; assumption.
Qed.

Lemma dir_lookup_hit_shape_witness :
  let db := snd (MetaSqlite.cache_dir_store default_meta_ctx MetaSqlite.empty_db
                   "/b" (Some listing_y_x) 1700000000 1700000001 all_done) in
  let l := [ {| name := "x"; d_type := CACHE_ENTRY_FILE |};
             {| name := "y"; d_type := CACHE_ENTRY_DIR |} ] in
  MetaSqlite.cache_dir_lookup default_meta_ctx db "/b" 1700000002
  = Some (l, 2, 1700000000, true) /\
  Sorted DirFacts.name_le l.
Proof.
  assert (H : MetaSqlite.cache_dir_lookup default_meta_ctx
                (snd (MetaSqlite.cache_dir_store default_meta_ctx
                        MetaSqlite.empty_db "/b" (Some listing_y_x)
                        1700000000 1700000001 all_done)) "/b" 1700000002
              = Some ([ {| name := "x"; d_type := CACHE_ENTRY_FILE |};
                        {| name := "y"; d_type := CACHE_ENTRY_DIR |} ],
                      2, 1700000000, true))
    by (vm_compute; reflexivity).
  split; [exact H |].
  exact (proj1 (dir_lookup_hit_shape _ _ _ _ _ _ _ _ H)).
Defined.

(** Property X22: [cache_dir_store] of an entry array returns 0 exactly
    when the insert of every entry is done; when any insert fails it
    returns -1 and the transaction is rolled back: the database, with the
    listing stored before, is as it was. *)
Theorem dir_store_result ctx db path es m now insert_done :
  let r := MetaSqlite.cache_dir_store ctx db path (Some es) m now insert_done in
  (fst r = 0 <-> forall i, (i < length es)%nat -> insert_done i = true) /\
  (fst r <> 0 -> r = (-1, db)).
Proof.
  cbn zeta. unfold MetaSqlite.cache_dir_store.
  pose proof (dir_insert_loop_is_Some path es 0 m now (now + dir_ttl ctx)
                insert_done
                (MetaSqlite.delete_dir_rows path (MetaSqlite.dir_entries db)))
    as Hiff.
  cbn [Nat.add] in Hiff.
  destruct (MetaSqlite.dir_insert_loop path es 0 m now (now + dir_ttl ctx)
              insert_done
              (MetaSqlite.delete_dir_rows path (MetaSqlite.dir_entries db)))
    as [t' |]; cbn [fst snd].
  - split; [| congruence].
    split; [intros _; apply Hiff; eauto | reflexivity].
  - split; [| reflexivity].
    split; [discriminate |].
    intros H. apply Hiff in H. destruct H as [x Hx]. discriminate Hx.
Qed.

Section DuplicateNames.
Import MetaSqlite DirFacts.

Lemma filter_filter_comm {A} (p q : A -> bool) (l : list A) :
  List.filter p (List.filter q l) = List.filter q (List.filter p l).
Proof.
  induction l as [| x l IH]; [reflexivity |].
  cbn [List.filter]. destruct (q x) eqn:Hq; destruct (p x) eqn:Hp;
    cbn [List.filter]; rewrite ?Hq, ?Hp, IH; reflexivity.
Qed.

Lemma nodup_map_filter {A B} (f : A -> B) (q : A -> bool) (l : list A) :
  NoDup (map f l) -> NoDup (map f (List.filter q l)).
Proof.
  induction l as [| e l IH]; intros Hnd; cbn; [constructor |].
  cbn in Hnd. apply NoDup_cons in Hnd. destruct Hnd as [He Hnd].
  destruct (q e); cbn; [| apply IH; exact Hnd].
  apply NoDup_cons. split; [| apply IH; exact Hnd].
  intros Hin. apply He. apply list_elem_of_In in Hin. apply list_elem_of_In.
  apply in_map_iff in Hin. destruct Hin as (x & Hx & Hin).
  apply filter_In in Hin. apply in_map_iff. exists x. tauto.
Qed.

Lemma last_named_snoc n es e :
  last_named n (es ++ [e])
  = if String.eqb (name e) n then Some e else last_named n es.
Proof. unfold last_named. rewrite rev_unit. reflexivity. Qed.

(** The rows of a directory after the inserts of [cache_dir_store], when
    the table held no row of the directory before them: one row per name,
    built from the last entry of that name. *)
Lemma rows_after_inserts path m n v es t :
  List.filter (in_dir path) t = [] ->
  let rows :=
    List.filter (in_dir path)
      (fold_left (fun t e => insert_dir_row (row_of_entry path m n v e) t) es t) in
  NoDup (map r_entry_name rows) /\
  (forall r,
     In r rows <->
     exists e, last_named (name e) es = Some e /\ r = row_of_entry path m n v e).
Proof.
  intros Ht. induction es as [| e es IH] using rev_ind; cbn zeta.
  - cbn [fold_left]. rewrite Ht. split; [constructor |].
    intros r. split; [intros [] | intros (e & He & _); discriminate He].
  - cbn zeta in IH. destruct IH as [IHnd IHin].
    rewrite fold_left_app. cbn [fold_left].
    set (T := fold_left
                (fun t e => insert_dir_row (row_of_entry path m n v e) t) es t)
      in *.
    unfold insert_dir_row. rewrite List.filter_app, filter_filter_comm.
    cbn [List.filter].
    assert (Hrow : in_dir path (row_of_entry path m n v e) = true)
      by (apply in_dir_eq; reflexivity).
    rewrite Hrow.
    assert (Hkey : forall r, In r (List.filter (in_dir path) T) ->
                     same_key r (row_of_entry path m n v e)
                     = String.eqb (r_entry_name r) (name e)).
    { intros r Hr. apply filter_In in Hr. destruct Hr as [_ Hr].
      apply in_dir_eq in Hr. unfold same_key. cbn [row_of_entry r_dir_path
      r_entry_name]. rewrite Hr, String.eqb_refl. reflexivity. }
    assert (Hmem : forall r,
              In r (List.filter
                      (fun r => negb (same_key r (row_of_entry path m n v e)))
                      (List.filter (in_dir path) T)) <->
              In r (List.filter (in_dir path) T) /\ r_entry_name r <> name e).
    { intros r. rewrite filter_In. split.
      - intros [Hr Hk]. split; [exact Hr |]. rewrite (Hkey r Hr) in Hk.
        apply negb_true_iff, String.eqb_neq in Hk. exact Hk.
      - intros [Hr Hk]. split; [exact Hr |]. rewrite (Hkey r Hr).
        apply negb_true_iff, String.eqb_neq. exact Hk. }
    split.
    + rewrite map_app. apply NoDup_app. split; [| split].
      * apply nodup_map_filter. exact IHnd.
      * intros x Hx Hx'. apply list_elem_of_In in Hx, Hx'.
        cbn in Hx'. destruct Hx' as [<- | []].
        apply in_map_iff in Hx. destruct Hx as (r & Hname & Hr).
        apply Hmem in Hr. destruct Hr as [_ Hr]. apply Hr. exact Hname.
      * cbn. apply NoDup_cons. split; [| constructor].
        intros Hin. apply list_elem_of_In in Hin. destruct Hin.
    + intros r. rewrite in_app_iff, Hmem, IHin. cbn [In]. split.
      * intros [[(e0 & He0 & ->) Hne] | [<- | []]].
        -- exists e0. split; [| reflexivity]. rewrite last_named_snoc.
           cbn [row_of_entry r_entry_name] in Hne.
           destruct (String.eqb_spec (name e) (name e0)) as [Heq | _];
             [congruence | exact He0].
        -- exists e. split; [| reflexivity]. rewrite last_named_snoc.
           rewrite String.eqb_refl. reflexivity.
      * intros (e0 & He0 & ->). rewrite last_named_snoc in He0.
        destruct (String.eqb_spec (name e) (name e0)) as [Heq | Hne].
        -- injection He0 as ->. right. left. reflexivity.
        -- left. split; [exists e0; split; [exact He0 | reflexivity] |].
           cbn [row_of_entry r_entry_name]. congruence.
Qed.

(** The listing that a lookup finds after a successful [cache_dir_store],
    whatever the names of the entries. *)
Lemma cache_dir_lookup_after_any_store ctx db path es m now now' insert_done
    l count m' v :
  fst (MetaSqlite.cache_dir_store ctx db path (Some es) m now insert_done) = 0 ->
  MetaSqlite.cache_dir_lookup ctx
    (snd (MetaSqlite.cache_dir_store ctx db path (Some es) m now insert_done))
    path now'
  = Some (l, count, m', v) ->
  NoDup (map name l) /\
  (forall e, In e l <-> last_named (name e) es = Some e) /\
  m' = m /\ v = (now' <? now + dir_ttl ctx).
Proof.
  intros Hrc. rewrite cache_dir_lookup_rows.
  unfold MetaSqlite.cache_dir_store in *.
  destruct (dir_insert_loop_result path es 0 m now (now + dir_ttl ctx)
              insert_done
              (MetaSqlite.delete_dir_rows path (MetaSqlite.dir_entries db)))
    as [Hl | Hl]; rewrite Hl in *; cbn [fst snd] in *; [discriminate Hrc |].
  clear Hrc Hl. cbn [MetaSqlite.dir_entries]. unfold MetaSqlite.select_dir_rows.
  destruct (rows_after_inserts path m now (now + dir_ttl ctx) es
              (MetaSqlite.delete_dir_rows path (MetaSqlite.dir_entries db))
              (select_after_delete path (MetaSqlite.dir_entries db)))
    as [Hnd Hin].
  set (rows := List.filter (MetaSqlite.in_dir path) _) in *.
  pose proof (order_by_name_perm rows) as Hperm.
  destruct (MetaSqlite.order_by_name rows) as [| first rest] eqn:Hrows;
    [discriminate |].
  intros [= <- <- <- <-].
  change (DirFacts.entry_of_row first :: map DirFacts.entry_of_row rest)
    with (map DirFacts.entry_of_row (first :: rest)).
  assert (Hmem : forall r, In r (first :: rest) <-> In r rows).
  { intros r. split; apply Permutation_in; [exact Hperm | symmetry; exact Hperm]. }
  split; [| split].
  - rewrite map_map.
    change (map (fun x => name (DirFacts.entry_of_row x)) (first :: rest))
      with (map MetaSqlite.r_entry_name (first :: rest)).
    rewrite (Permutation_map MetaSqlite.r_entry_name Hperm). exact Hnd.
  - intros e. rewrite in_map_iff. split.
    + intros (r & <- & Hr). apply Hmem, Hin in Hr.
      destruct Hr as (e0 & He0 & ->). rewrite entry_of_row_of_entry. exact He0.
    + intros He. exists (DirFacts.row_of_entry path m now (now + dir_ttl ctx) e).
      split; [apply entry_of_row_of_entry |].
      apply Hmem, Hin. exists e. split; [exact He | reflexivity].
  - destruct (proj1 (Hin first) (proj1 (Hmem first) (or_introl eq_refl)))
      as (e0 & _ & ->).
    split; reflexivity.
Qed.


End DuplicateNames.

(** Property X23: entries of the same name in one array replace each
    other.  After a [cache_dir_store] that returns 0, a hit of
    [cache_dir_lookup] for the directory lists every name once, each with
    the entry that comes last under that name in the stored array, and
    carries the stored directory mtime and the lifetime [dir_ttl]; no row
    of an earlier listing is left. *)
Theorem dir_store_duplicate_names ctx db path es m now now' insert_done
    l count m' v :
  fst (MetaSqlite.cache_dir_store ctx db path (Some es) m now insert_done) = 0 ->
  MetaSqlite.cache_dir_lookup ctx
    (snd (MetaSqlite.cache_dir_store ctx db path (Some es) m now insert_done))
    path now'
  = Some (l, count, m', v) ->
  NoDup (map name l) /\
  (forall e, In e l <-> last_named (name e) es = Some e) /\
  m' = m /\ v = (now' <? now + dir_ttl ctx).
Proof. apply cache_dir_lookup_after_any_store. Qed.

Lemma dir_store_duplicate_names_witness :
  let es := [ {| name := "x"; d_type := CACHE_ENTRY_FILE |};
              {| name := "x"; d_type := CACHE_ENTRY_DIR |} ] in
  let r := MetaSqlite.cache_dir_store default_meta_ctx MetaSqlite.empty_db "/b"
             (Some es) 1700000000 1700000001 all_done in
  fst r = 0 /\
  MetaSqlite.cache_dir_lookup default_meta_ctx (snd r) "/b" 1700000002
  = Some ([ {| name := "x"; d_type := CACHE_ENTRY_DIR |} ], 1, 1700000000, true) /\
  NoDup (map name [ {| name := "x"; d_type := CACHE_ENTRY_DIR |} ]).
Proof.
  assert (H1 : fst (MetaSqlite.cache_dir_store default_meta_ctx
                      MetaSqlite.empty_db "/b"
                      (Some [ {| name := "x"; d_type := CACHE_ENTRY_FILE |};
                              {| name := "x"; d_type := CACHE_ENTRY_DIR |} ])
                      1700000000 1700000001 all_done) = 0)
    by (vm_compute; reflexivity).
  assert (H2 : MetaSqlite.cache_dir_lookup default_meta_ctx
                 (snd (MetaSqlite.cache_dir_store default_meta_ctx
                         MetaSqlite.empty_db "/b"
                         (Some [ {| name := "x"; d_type := CACHE_ENTRY_FILE |};
                                 {| name := "x"; d_type := CACHE_ENTRY_DIR |} ])
                         1700000000 1700000001 all_done)) "/b" 1700000002
               = Some ([ {| name := "x"; d_type := CACHE_ENTRY_DIR |} ], 1,
                       1700000000, true))
    by (vm_compute; reflexivity).
  split; [exact H1 |]. split; [exact H2 |].
  exact (proj1 (dir_store_duplicate_names _ _ _ _ _ _ _ _ _ _ _ _ H1 H2)).
Defined.

(** ** The metadata store on LMDB *)

(** Property X24: in the LMDB variant a stat buffer survives store and
    lookup, and the kind of the record follows the file type.  When the
    transaction succeeds [cache_meta_store] returns 0, and the lookup of the
    path returns size, mtime, ctime, mode, uid and gid of the stat buffer,
    kind DIRECTORY for a directory and FILE otherwise, the time of the store
    and the lifetime [meta_ttl]; the inode field is the one the caller's
    entry held. *)
Theorem lmdb_store_lookup_roundtrip ctx db path st now now' entry0 :
  stat_ok st ->
  let r := MetaLmdb.cache_meta_store ctx db path st now true in
  fst r = 0 /\
  MetaLmdb.cache_meta_lookup ctx (snd r) path entry0 now'
  = Some ({| type := if S_ISDIR (st_mode st)
                     then CACHE_ENTRY_DIR else CACHE_ENTRY_FILE;
             size := st_size st;
             mtime := st_mtime st;
             ctime := st_ctime st;
             mode := st_mode st;
             uid := st_uid st;
             gid := st_gid st;
             ino := ino entry0;
             cached_at := now;
             valid_until := now + meta_ttl ctx |},
          now' <? now + meta_ttl ctx).
Proof.
  intros Hok. cbn zeta. split; [reflexivity |].
  apply lmdb_lookup_store. exact Hok.
Qed.

Lemma lmdb_store_lookup_roundtrip_witness :
  stat_ok stat_dir /\
  (fun r => type (fst r)) <$>
    MetaLmdb.cache_meta_lookup default_meta_ctx
      (snd (MetaLmdb.cache_meta_store default_meta_ctx ∅ "/b/d" stat_dir
              1700000001 true))
      "/b/d"
      {| type := 0; size := 0; mtime := 0; ctime := 0; mode := 0; uid := 0;
         gid := 0; ino := 0; cached_at := 0; valid_until := 0 |}
      1700000002
  = Some CACHE_ENTRY_DIR.
Proof.
  assert (H : stat_ok stat_dir)
    by (unfold stat_ok, stat_dir, S_IFDIR; simpl; lia).
  split; [exact H |].
  rewrite (proj2 (lmdb_store_lookup_roundtrip default_meta_ctx ∅ "/b/d" stat_dir
                    1700000001 1700000002 _ H)).
  reflexivity.
Defined.

(** Property X25: the LMDB operations act on the record of their path
    only.  [cache_meta_store], [cache_meta_store_negative] and
    [cache_meta_invalidate] leave the lookup of every other path as it was,
    and when the transaction fails they return -1 and leave the database
    as it was; after an invalidation that succeeds the lookup of the path
    is a miss. *)
Theorem lmdb_ops_touch_one_path ctx db path q st now (txn_ok : bool) entry0 t :
  q <> path ->
  let untouched (r : Z * MetaLmdb.meta_dbi) :=
    MetaLmdb.cache_meta_lookup ctx (snd r) q entry0 t
    = MetaLmdb.cache_meta_lookup ctx db q entry0 t /\
    (if txn_ok then fst r = 0 else r = (-1, db)) in
  untouched (MetaLmdb.cache_meta_store ctx db path st now txn_ok) /\
  untouched (MetaLmdb.cache_meta_store_negative ctx db path now txn_ok) /\
  untouched (MetaLmdb.cache_meta_invalidate ctx db path txn_ok) /\
  MetaLmdb.cache_meta_lookup ctx
    (snd (MetaLmdb.cache_meta_invalidate ctx db path true)) path entry0 t = None.
Proof.
  intros Hne. cbn zeta.
  unfold MetaLmdb.cache_meta_store, MetaLmdb.cache_meta_store_negative,
    MetaLmdb.cache_meta_invalidate, MetaLmdb.cache_meta_lookup.
  destruct txn_ok; cbn [fst snd].
  - rewrite !lookup_insert_ne, lookup_delete_ne, lookup_delete_eq by congruence.
    repeat split.
  - rewrite lookup_delete_eq. repeat split.
Qed.

Lemma lmdb_ops_touch_one_path_witness :
  "/b/other" <> "/b/d" /\
  MetaLmdb.cache_meta_lookup default_meta_ctx
    (snd (MetaLmdb.cache_meta_store default_meta_ctx ∅ "/b/d" stat_dir
            1700000001 true))
    "/b/other"
    {| type := 0; size := 0; mtime := 0; ctime := 0; mode := 0; uid := 0;
       gid := 0; ino := 0; cached_at := 0; valid_until := 0 |}
    1700000002
  = MetaLmdb.cache_meta_lookup default_meta_ctx ∅ "/b/other"
      {| type := 0; size := 0; mtime := 0; ctime := 0; mode := 0; uid := 0;
         gid := 0; ino := 0; cached_at := 0; valid_until := 0 |}
      1700000002.
Proof.
  assert (H : "/b/other" <> "/b/d") by discriminate.
  split; [exact H |].
  exact (proj1 (proj1
           (lmdb_ops_touch_one_path default_meta_ctx ∅ "/b/d" "/b/other" stat_dir
              1700000001 true _ 1700000002 H))).
Defined.

(** ** The open-time coherence check, composed with the stores *)

Section CoherencyFacts.
Import Coherency.

(** The check, by cases on the staleness of the cached record. *)
Lemma coherency_check_cases mctx db block path st now :
  cache_coherency_check_and_invalidate mctx db block path st now
  = if stale_record db path st
    then (0, snd (MetaSqlite.cache_meta_invalidate mctx db path),
          match block with
          | Some (bctx, tree) =>
              Some (snd (fst (cache_block_invalidate_file bctx tree path)),
                    snd (cache_block_invalidate_file bctx tree path))
          | None => None
          end)
    else (0, db, block).
Proof.
  unfold cache_coherency_check_and_invalidate, stale_record,
    MetaSqlite.cache_meta_lookup, cache_coherency_validate_meta.
  destruct (MetaSqlite.metadata db !! path) as [row |]; cbn; [| reflexivity].
  destruct ((MetaSqlite.c_mtime row =? st_mtime st)
            && (MetaSqlite.c_size row =? Meta.st_size st)); cbn; [reflexivity |].
  destruct block as [[bctx tree] |]; [| reflexivity].
  destruct (cache_block_invalidate_file bctx tree path) as [[rc bctx'] tree'].
  reflexivity.
Qed.

Lemma stale_record_invalidated mctx db path st :
  stale_record (snd (MetaSqlite.cache_meta_invalidate mctx db path)) path st
  = false.
Proof.
  unfold stale_record, MetaSqlite.cache_meta_invalidate.
  cbn [snd MetaSqlite.metadata]. rewrite lookup_delete_eq. reflexivity.
Qed.

Lemma stale_record_stored mctx db path st st' t0 :
  stale_record (snd (MetaSqlite.cache_meta_store mctx db path st t0 true)) path st'
  = negb ((st_mtime st =? st_mtime st') && (Meta.st_size st =? Meta.st_size st')).
Proof.
  unfold stale_record, MetaSqlite.cache_meta_store.
  cbn [snd MetaSqlite.metadata]. rewrite lookup_insert_eq. reflexivity.
Qed.

Lemma stale_record_stored_negative mctx db path st' t0 :
  stale_record (snd (MetaSqlite.cache_meta_store_negative mctx db path t0 true))
    path st'
  = negb ((0 =? st_mtime st') && (0 =? Meta.st_size st')).
Proof.
  unfold stale_record, MetaSqlite.cache_meta_store_negative.
  cbn [snd MetaSqlite.metadata]. rewrite lookup_insert_eq. reflexivity.
Qed.

End CoherencyFacts.

(** Property X26: the check right after a store.  For a record written by
    [cache_meta_store] from a stat buffer, the check against a backend stat
    leaves the metadata store and the block store as they are when mtime and
    size of the two buffers agree, whatever their other fields and whatever
    the age of the record, and removes the record otherwise.  A negative
    record, written by [cache_meta_store_negative], is kept only against a
    backend stat whose mtime and size are both 0, and removed otherwise. *)
Theorem coherency_check_after_store mctx db block path st st' t0 now :
  (let db1 := snd (MetaSqlite.cache_meta_store mctx db path st t0 true) in
   let r := Coherency.cache_coherency_check_and_invalidate mctx db1 block path
              st' now in
   if (st_mtime st =? st_mtime st') && (Meta.st_size st =? Meta.st_size st')
   then r = (0, db1, block)
   else MetaSqlite.cache_meta_lookup mctx (snd (fst r)) path now = None) /\
  (let db1 := snd (MetaSqlite.cache_meta_store_negative mctx db path t0 true) in
   let r := Coherency.cache_coherency_check_and_invalidate mctx db1 block path
              st' now in
   if (0 =? st_mtime st') && (0 =? Meta.st_size st')
   then r = (0, db1, block)
   else MetaSqlite.cache_meta_lookup mctx (snd (fst r)) path now = None).
Proof.
  cbn zeta. rewrite !coherency_check_cases.
  rewrite stale_record_stored, stale_record_stored_negative.
  split.
  - destruct ((st_mtime st =? st_mtime st')
              && (Meta.st_size st =? Meta.st_size st')); cbn [negb fst snd];
      [reflexivity |].
    apply cache_meta_lookup_None. cbn. apply lookup_delete_eq.
  - destruct ((0 =? st_mtime st') && (0 =? Meta.st_size st'));
      cbn [negb fst snd]; [reflexivity |].
    apply cache_meta_lookup_None. cbn. apply lookup_delete_eq.
Qed.

(** Property X27: the check is idempotent.  Running
    [cache_coherency_check_and_invalidate] a second time with the same
    backend stat, at any time, returns 0 and changes nothing more: either
    the first run removed the record and the blocks, and the second finds
    no record; or the record matched, and it still does. *)
Theorem coherency_check_idempotent mctx db block path st now now' :
  let r := Coherency.cache_coherency_check_and_invalidate mctx db block path
             st now in
  fst (fst r) = 0 /\
  Coherency.cache_coherency_check_and_invalidate mctx (snd (fst r)) (snd r)
    path st now' = r.
Proof.
  cbn zeta. rewrite coherency_check_cases.
  destruct (stale_record db path st) eqn:Hstale; cbn [fst snd].
  - split; [reflexivity |]. rewrite coherency_check_cases.
    rewrite stale_record_invalidated. reflexivity.
  - split; [reflexivity |]. rewrite coherency_check_cases, Hstale. reflexivity.
Qed.

(** Property X28: the check acts on one path.  Whatever it finds for the
    path, it leaves the attribute record of every other path and every
    directory listing as they were, and it keeps every block of every path
    whose hash differs from the hash of the path. *)
Theorem coherency_check_frame mctx db bctx (tree : blocks_tree) path st now :
  let r := Coherency.cache_coherency_check_and_invalidate mctx db
             (Some (bctx, tree)) path st now in
  (forall q t, q <> path ->
     MetaSqlite.cache_meta_lookup mctx (snd (fst r)) q t
     = MetaSqlite.cache_meta_lookup mctx db q t) /\
  MetaSqlite.dir_entries (snd (fst r)) = MetaSqlite.dir_entries db /\
  exists bctx' tree',
    snd r = Some (bctx', tree') /\
    forall q j, hash_path q <> hash_path path ->
      cache_block_exists bctx' tree' q j = cache_block_exists bctx tree q j.
Proof.
  cbn zeta. rewrite coherency_check_cases.
  destruct (stale_record db path st); cbn [fst snd].
  - split; [| split; [reflexivity |]].
    + intros q t Hne. apply cache_meta_lookup_ext.
      unfold MetaSqlite.cache_meta_invalidate. cbn [snd MetaSqlite.metadata].
      apply lookup_delete_ne. congruence.
    + eexists _, _. split; [reflexivity |].
      intros q j Hne. rewrite cache_block_invalidate_file_exists.
      apply Z.eqb_neq in Hne. rewrite Hne. apply andb_true_r.
  - split; [reflexivity | split; [reflexivity |]].
    exists bctx, tree. split; reflexivity.
Qed.

(** Property X29: a cached listing passes the directory check exactly when
    the directory has the mtime it was stored with.  After a
    [cache_dir_store] that returns 0, the mtime that a hit of
    [cache_dir_lookup] reports is the stored one, so
    [cache_coherency_validate_dir] on it answers true if and only if the
    backend stat carries the [dir_mtime] given to the store. *)
Theorem dir_listing_validated ctx db path es m now now' insert_done
    l count m' v st :
  fst (MetaSqlite.cache_dir_store ctx db path (Some es) m now insert_done) = 0 ->
  MetaSqlite.cache_dir_lookup ctx
    (snd (MetaSqlite.cache_dir_store ctx db path (Some es) m now insert_done))
    path now'
  = Some (l, count, m', v) ->
  (Coherency.cache_coherency_validate_dir path m' st = true <-> st_mtime st = m).
Proof.
  intros Hrc Hlook.
  destruct (cache_dir_lookup_after_any_store ctx db path es m now now' insert_done
              l count m' v Hrc Hlook) as (_ & _ & -> & _).
  unfold Coherency.cache_coherency_validate_dir. rewrite Z.eqb_eq.
  split; congruence.
Qed.

Lemma dir_listing_validated_witness :
  let r := MetaSqlite.cache_dir_store default_meta_ctx MetaSqlite.empty_db "/b"
             (Some listing_y_x) 1700000000 1700000001 all_done in
  fst r = 0 /\
  MetaSqlite.cache_dir_lookup default_meta_ctx (snd r) "/b" 1700000002
  = Some ([ {| name := "x"; d_type := CACHE_ENTRY_FILE |};
            {| name := "y"; d_type := CACHE_ENTRY_DIR |} ],
          2, 1700000000, true) /\
  (Coherency.cache_coherency_validate_dir "/b" 1700000000 stat_dir = true <->
   st_mtime stat_dir = 1700000000).
Proof.
  assert (H1 : fst (MetaSqlite.cache_dir_store default_meta_ctx
                      MetaSqlite.empty_db "/b" (Some listing_y_x)
                      1700000000 1700000001 all_done) = 0)
    by (vm_compute; reflexivity).
  assert (H2 : MetaSqlite.cache_dir_lookup default_meta_ctx
                 (snd (MetaSqlite.cache_dir_store default_meta_ctx
                         MetaSqlite.empty_db "/b" (Some listing_y_x)
                         1700000000 1700000001 all_done)) "/b" 1700000002
               = Some ([ {| name := "x"; d_type := CACHE_ENTRY_FILE |};
                         {| name := "y"; d_type := CACHE_ENTRY_DIR |} ],
                       2, 1700000000, true))
    by (vm_compute; reflexivity).
  split; [exact H1 |]. split; [exact H2 |].
  exact (dir_listing_validated _ _ _ _ _ _ _ _ _ _ _ _ stat_dir H1 H2).
Defined.

(** ** The directories of a block file *)

Section BlockDirectories.

(** A string without slash is one for which [strrchr] finds nothing. *)
Lemma before_last_slash_cons_None c s :
  c <> "/"%char -> before_last_slash s = None ->
  before_last_slash (String c s) = None.
Proof.
  intros Hc Hs. cbn [before_last_slash]. rewrite Hs.
  destruct (Ascii.eqb_spec c "/"); [congruence | reflexivity].
Qed.

Lemma before_last_slash_app_None a b :
  before_last_slash a = None -> before_last_slash b = None ->
  before_last_slash (a +:+ b) = None.
Proof.
  intros Ha Hb. induction a as [| c a IH]; [exact Hb |].
  rewrite str_app_cons. cbn [before_last_slash] in Ha |- *.
  destruct (before_last_slash a); [discriminate Ha |].
  rewrite (IH eq_refl). exact Ha.
Qed.

(** The part before the last slash of [d/f], when [f] has no slash. *)
Lemma before_last_slash_app d f :
  before_last_slash f = None ->
  before_last_slash (d +:+ "/" +:+ f) = Some d.
Proof.
  intros Hf. induction d as [| c d IH].
  - change ("" +:+ "/" +:+ f) with (String "/" f).
    cbn [before_last_slash]. rewrite Hf. reflexivity.
  - rewrite str_app_cons. cbn [before_last_slash]. rewrite IH. reflexivity.
Qed.

(** A path that has a slash is its part before the last slash, the slash,
    and a rest without slash. *)
Lemma before_last_slash_Some s d :
  before_last_slash s = Some d -> exists f, s = d +:+ "/" +:+ f.
Proof.
  revert d. induction s as [| c s IH]; intros d; cbn [before_last_slash];
    [discriminate |].
  destruct (before_last_slash s) as [d' |].
  - intros [= <-]. destruct (IH d' eq_refl) as [f ->]. exists f. reflexivity.
  - destruct (Ascii.eqb_spec c "/") as [-> | _]; [| discriminate].
    intros [= <-]. exists s. reflexivity.
Qed.

Lemma hex_digit_no_slash d : hex_digit d <> "/"%char.
Proof.
  unfold hex_digit. generalize (Z.to_nat d). intros n.
  do 16 (destruct n as [| n]; [discriminate |]).
  cbn. destruct n; discriminate.
Qed.

Lemma hex_fixed_no_slash w z : before_last_slash (hex_fixed w z) = None.
Proof.
  revert z. induction w as [| w IH]; intros z; [reflexivity |].
  cbn [hex_fixed]. apply before_last_slash_app_None; [apply IH |].
  apply before_last_slash_cons_None; [apply hex_digit_no_slash | reflexivity].
Qed.

Lemma pretty_N_char_no_slash x : pretty_N_char x <> "/"%char.
Proof. unfold pretty_N_char. repeat case_match; discriminate. Qed.

Lemma pretty_N_go_no_slash x s :
  before_last_slash s = None -> before_last_slash (pretty_N_go x s) = None.
Proof.
  revert s. induction (N.lt_wf_0 x) as [x _ IH]; intros s Hs.
  assert (x = 0 \/ 0 < x)%N as [-> | Hx] by lia.
  - rewrite pretty_N_go_0. exact Hs.
  - rewrite pretty_N_go_step by exact Hx. apply IH.
    + apply N.div_lt; [exact Hx | reflexivity].
    + apply before_last_slash_cons_None; [apply pretty_N_char_no_slash | exact Hs].
Qed.

Lemma pretty_N_no_slash (x : N) : before_last_slash (pretty x) = None.
Proof.
  unfold pretty, pretty_N. destruct (decide (x = 0%N)); [reflexivity |].
  apply pretty_N_go_no_slash. reflexivity.
Qed.

(** [%zu] prints no slash. *)
Lemma pretty_Z_no_slash (i : Z) : before_last_slash (pretty i) = None.
Proof.
  destruct i as [| x | x]; [reflexivity | apply (pretty_N_no_slash (N.pos x)) |].
  change (pretty (Z.neg x)) with ("-" +:+ pretty (N.pos x)).
  apply before_last_slash_app_None; [reflexivity | apply pretty_N_no_slash].
Qed.

(** The loop over the slashes, piece by piece. *)
Lemma mkdir_loop_app done a b :
  mkdir_loop done (a +:+ b) = mkdir_loop done a ++ mkdir_loop (done +:+ a) b.
Proof.
  revert done. induction a as [| c a IH]; intros done.
  - change ("" +:+ b) with b. cbn [mkdir_loop app].
    replace (done +:+ "") with done; [reflexivity |].
    clear. induction done as [| x done IH]; [reflexivity |].
    rewrite str_app_cons, <- IH. reflexivity.
  - rewrite str_app_cons. cbn [mkdir_loop].
    destruct (Ascii.eqb_spec c "/") as [-> | Hc].
    + rewrite IH, str_app_assoc. reflexivity.
    + rewrite IH, str_app_assoc. reflexivity.
Qed.

Lemma mkdir_loop_no_slash done s :
  before_last_slash s = None -> mkdir_loop done s = [].
Proof.
  revert done. induction s as [| c s IH]; intros done Hs; [reflexivity |].
  cbn [before_last_slash] in Hs. cbn [mkdir_loop].
  destruct (before_last_slash s); [discriminate Hs |].
  destruct (Ascii.eqb c "/"); [discriminate Hs |].
  apply IH. reflexivity.
Qed.

(** Every [mkdir] of the loop is for a path that [done ++ rest] starts
    with. *)
Lemma mkdir_loop_prefixes done rest :
  Forall (fun d => exists y, done +:+ rest = d +:+ y) (mkdir_loop done rest).
Proof.
  revert done. induction rest as [| c rest IH]; intros done; cbn [mkdir_loop];
    [constructor |].
  destruct (Ascii.eqb_spec c "/") as [-> | Hc].
  - constructor; [exists (String "/" rest); reflexivity |].
    specialize (IH (done +:+ "/")).
    rewrite str_app_assoc in IH. exact IH.
  - specialize (IH (done +:+ String c "")).
    rewrite str_app_assoc in IH. exact IH.
Qed.

Lemma skip_slashes_app done rest :
  fst (skip_slashes done rest) +:+ snd (skip_slashes done rest) = done +:+ rest.
Proof.
  revert done. induction rest as [| c rest IH]; intros done; cbn [skip_slashes];
    [reflexivity |].
  destruct (Ascii.eqb_spec c "/") as [-> | Hc]; [| reflexivity].
  rewrite IH, str_app_assoc. reflexivity.
Qed.

(** Skipping the leading slashes of a path that holds another character
    stops before that character. *)
Lemma skip_slashes_before done s c x :
  c <> "/"%char ->
  exists mid,
    snd (skip_slashes done (s +:+ String c x)) = mid +:+ String c x /\
    fst (skip_slashes done (s +:+ String c x)) +:+ mid = done +:+ s.
Proof.
  intros Hc. revert done. induction s as [| a s IH]; intros done.
  - change ("" +:+ String c x) with (String c x). cbn [skip_slashes].
    destruct (Ascii.eqb_spec c "/"); [congruence |].
    exists "". split; reflexivity.
  - rewrite str_app_cons. cbn [skip_slashes].
    destruct (Ascii.eqb_spec a "/") as [-> | Ha].
    + destruct (IH (done +:+ "/")) as (mid & H1 & H2).
      exists mid. split; [exact H1 |]. rewrite H2, str_app_assoc. reflexivity.
    + exists (String a s). split; reflexivity.
Qed.

(** [create_block_dir] on the path of a file in a directory: the calls for
    the directory's own ancestors, then the directory. *)
Lemma create_block_dir_calls dir file :
  before_last_slash file = None ->
  create_block_dir (dir +:+ "/" +:+ file)
  = Some (mkdir_loop (fst (skip_slashes "" dir)) (snd (skip_slashes "" dir))
          ++ [dir]).
Proof.
  intros Hf. unfold create_block_dir. rewrite (before_last_slash_app dir file Hf).
  destruct (skip_slashes "" dir). reflexivity.
Qed.

End BlockDirectories.

(** Property X30: [create_block_dir] prepares the directory of a block
    file.  On the path of a block of a store whose blocks directory is
    [<cache_root>/blocks] it never fails, and its last three [mkdir] calls
    are for the blocks directory, for its fan-out directory [XX], and for
    [XX/YY], the directory that holds the block file, in this order; and on
    any path every [mkdir] it makes is for a path that the given path starts
    with. *)
Theorem create_block_dir_of_block root ctx p i :
  blocks_dir ctx = root +:+ "/blocks" ->
  (exists before,
     create_block_dir (get_block_path ctx p i)
     = Some (before ++
             [ blocks_dir ctx;
               blocks_dir ctx +:+ "/" +:+ hex_fixed 2 (fanout1 (hash_path p));
               hash_dir ctx p ])) /\
  (forall block_path calls,
     create_block_dir block_path = Some calls ->
     Forall (fun d => String.prefix d block_path = true) calls).
Proof.
  intros Hdir. split.
  - set (X := hex_fixed 2 (fanout1 (hash_path p))).
    set (Y := hex_fixed 2 (fanout2 (hash_path p))).
    set (F := hex_fixed 16 (hash_path p) +:+ "-" +:+ pretty i).
    assert (HF : before_last_slash F = None).
    { apply before_last_slash_app_None; [apply hex_fixed_no_slash |].
      apply before_last_slash_app_None; [reflexivity | apply pretty_Z_no_slash]. }
    assert (Hpath : get_block_path ctx p i = hash_dir ctx p +:+ "/" +:+ F).
    { unfold get_block_path, hash_dir. fold X Y F. rewrite !str_app_assoc.
      reflexivity. }
    rewrite Hpath, (create_block_dir_calls _ _ HF).
    assert (Hhd : hash_dir ctx p
                  = (root +:+ "/") +:+ String "b" ("locks" +:+ "/" +:+ X +:+ "/" +:+ Y)).
    { unfold hash_dir. fold X Y. rewrite Hdir, !str_app_assoc. reflexivity. }
    destruct (skip_slashes_before "" (root +:+ "/") "b"
                ("locks" +:+ "/" +:+ X +:+ "/" +:+ Y)) as (mid & Hsnd & Hfst);
      [discriminate |].
    rewrite <- Hhd in Hsnd, Hfst. rewrite Hsnd.
    change ("" +:+ (root +:+ "/")) with (root +:+ "/") in Hfst.
    exists (mkdir_loop (fst (skip_slashes "" (hash_dir ctx p))) mid).
    rewrite mkdir_loop_app, Hfst, <- app_assoc. f_equal.
    change (String "b" ("locks" +:+ "/" +:+ X +:+ "/" +:+ Y))
      with ("blocks" +:+ "/" +:+ X +:+ "/" +:+ Y).
    rewrite mkdir_loop_app, (mkdir_loop_no_slash _ "blocks") by reflexivity.
    cbn [app]. rewrite str_app_assoc.
    change ("/" +:+ "blocks") with "/blocks". rewrite <- Hdir.
    change ("/" +:+ X +:+ "/" +:+ Y) with (String "/" (X +:+ "/" +:+ Y)).
    cbn [mkdir_loop]. change (Ascii.eqb "/" "/") with true. cbv iota.
    rewrite mkdir_loop_app, (mkdir_loop_no_slash _ X) by apply hex_fixed_no_slash.
    cbn [app]. rewrite !str_app_assoc.
    change ("/" +:+ Y) with (String "/" Y).
    cbn [mkdir_loop]. change (Ascii.eqb "/" "/") with true. cbv iota.
    rewrite (mkdir_loop_no_slash _ Y) by apply hex_fixed_no_slash.
    reflexivity.
  - intros block_path calls. unfold create_block_dir.
    destruct (before_last_slash block_path) as [dir |] eqn:Hb; [| discriminate].
    apply before_last_slash_Some in Hb. destruct Hb as [f ->].
    pose proof (mkdir_loop_prefixes (fst (skip_slashes "" dir))
                  (snd (skip_slashes "" dir))) as Hpre.
    rewrite skip_slashes_app in Hpre.
    change ("" +:+ dir) with dir in Hpre.
    destruct (skip_slashes "" dir) as [done rest]. cbn [fst snd] in Hpre.
    intros [= <-]. apply Forall_app. split.
    + eapply Forall_impl; [exact Hpre |].
      intros d [y ->]. cbn beta. rewrite str_app_assoc. apply str_prefix_app.
    + constructor; [apply str_prefix_app | constructor].
Qed.

Lemma create_block_dir_of_block_witness :
  blocks_dir unbounded_ctx = "/c" +:+ "/blocks" /\
  create_block_dir (get_block_path unbounded_ctx "/b/f" 2)
  = Some ["/c"; "/c/blocks"; "/c/blocks/7c"; "/c/blocks/7c/ab"] /\
  exists before,
    create_block_dir (get_block_path unbounded_ctx "/b/f" 2)
    = Some (before ++
            [ blocks_dir unbounded_ctx;
              blocks_dir unbounded_ctx +:+ "/"
                +:+ hex_fixed 2 (fanout1 (hash_path "/b/f"));
              hash_dir unbounded_ctx "/b/f" ]).
Proof.
  assert (H : blocks_dir unbounded_ctx = "/c" +:+ "/blocks") by reflexivity.
  split; [exact H |]. split; [vm_compute; reflexivity |].
  exact (proj1 (create_block_dir_of_block "/c" unbounded_ctx "/b/f" 2 H)).
Defined.
